(** * weirdc/ast.py: the token cursor and the recursive-descent parser

    A shallow embedding of [weirdc/ast.py].  The token cursor
    ([_HandyDandyTokenIterator]) is a record holding the underlying
    iterator and the deque of buffered tokens; every method of the cursor
    and of [_Parser] is a computation in a state-and-exception monad over
    that record.  Python exceptions are values of [exception]; the state
    reached when an exception is raised is kept, as it is in Python. *)

From Stdlib Require Import String Ascii List ZArith Bool Arith Lia.
Import ListNotations.

Local Open Scope string_scope.
Local Open Scope list_scope.

Set Implicit Arguments.
Local Set Warnings "-register-all".

(** A reading of [int] on strings of ASCII digits, which is what the
    tokenizer's INTEGER tokens hold; it instantiates the parameter [int]
    of the development where an example is evaluated. *)
Definition digit_of_ascii (a : ascii) : option Z :=
  let n := nat_of_ascii a in
  if ((48 <=? n)%nat && (n <=? 57)%nat)%bool
  then Some (Z.of_nat (n - 48)) else None.

Fixpoint int_digits_from (acc : Z) (s : string) : option Z :=
  match s with
  | EmptyString => Some acc
  | String.String a s' =>
      match digit_of_ascii a with
      | Some d => int_digits_from (10 * acc + d)%Z s'
      | None => None
      end
  end.

Definition int_digits (s : string) : option Z :=
  match s with
  | EmptyString => None
  | _ => int_digits_from 0 s
  end.

Section Weirdc.

(** Source positions are produced by the tokenizer and are only copied
    around by the parser. *)
Variable position : Type.

(** Python's builtin [int] applied to a [str]: [Some z] for the integer
    read, [None] when it raises [ValueError]. *)
Variable int : string -> option Z.

(** ** Tokens *)

(** Modelled from the spec: the token type of [weirdc/tokenizer.py], which
    is not among the sources.  A token has a [kind], a [value] (its raw
    text) and [start]/[end] positions; [info] is the pair the parser
    compares with tuples such as [('OP', stop)]. *)
Record Token : Type := mkToken {
  kind : string;
  value : string;
  start : position;
  end_ : position
}.

Definition info (t : Token) : string * string := (kind t, value t).

(** [a == b] on pairs of strings. *)
Definition info_eqb (a b : string * string) : bool :=
  (fst a =? fst b) && (snd a =? snd b).

(** ** Exceptions and outcomes *)

(** The exceptions that this code raises or meets.  The interpreter's
    own [RecursionError], which Python raises when the calls of the
    parser nest deeper than its recursion limit allows, is no part of
    this code and is not among them: the definitions below have no such
    limit, and go on where the interpreter would stop. *)
Inductive exception : Type :=
| EOFError
    (* coming_up: raise EOFError from e *)
| StopIteration
    (* next(self._iterator) on an exhausted iterator *)
| IndexError
    (* self._coming_up_stack[-n] out of range *)
| AssertionError_token (actual : Token)
    (* check_and_pop: assert ..., self.coming_up() *)
| AssertionError_keyword (name : string)
    (* parse_name: assert token.value not in KEYWORDS, token.value *)
| ValueError_invalid_token (actual : Token)
    (* parse_expression: raise ValueError(f"Invalid token: ...") *)
| ValueError_int (text : string).
    (* parse_integer: int(token.value) *)

(** The error taxonomy of the specification, and the exception each kind
    stands for. *)
Inductive error_kind : Type :=
| UnexpectedEndOfInput
| UnexpectedToken
| InvalidToken
| ReservedKeywordUsed
| OtherError.

Definition error_kind_of (e : exception) : error_kind :=
  match e with
  | EOFError => UnexpectedEndOfInput
  | AssertionError_token _ => UnexpectedToken
  | ValueError_invalid_token _ => InvalidToken
  | AssertionError_keyword _ => ReservedKeywordUsed
  | StopIteration | IndexError | ValueError_int _ => OtherError
  end.

(** What a call does: return a value, raise, or (for the definitions that
    recurse on a fuel argument) run out of fuel. *)
Inductive outcome (A : Type) : Type :=
| Returned (a : A)
| Raised (e : exception)
| OutOfFuel.

Arguments Raised {A} e.
Arguments OutOfFuel {A}.

(** ** The cursor state *)

(** [_iterator] is the part of the token sequence not fetched yet.
    [_coming_up_stack] is the deque, written right end first: its head is
    the element [deque.pop()] removes, [appendleft] adds at the far end. *)
Record _HandyDandyTokenIterator : Type := mkCursor {
  _iterator : list Token;
  _coming_up_stack : list Token
}.

(** [__init__] *)
Definition new_HandyDandyTokenIterator (iterable : list Token)
  : _HandyDandyTokenIterator :=
  {| _iterator := iterable; _coming_up_stack := [] |}.

Definition M (A : Type) : Type :=
  _HandyDandyTokenIterator -> outcome A * _HandyDandyTokenIterator.

Definition ret {A} (a : A) : M A := fun c => (Returned a, c).

Definition raise {A} (e : exception) : M A := fun c => (Raised e, c).

Definition out_of_fuel {A} : M A := fun c => (OutOfFuel, c).

Definition bind {A B} (m : M A) (k : A -> M B) : M B :=
  fun c =>
    match m c with
    | (Returned a, c') => k a c'
    | (Raised e, c') => (Raised e, c')
    | (OutOfFuel, c') => (OutOfFuel, c')
    end.

Local Notation "x <- m ;; k" := (bind m (fun x => k))
  (at level 61, m at next level, right associativity).
Local Notation "m ;;; k" := (bind m (fun _ => k))
  (at level 61, right associativity).

(** [next(self._iterator)] *)
Definition next : M Token :=
  fun c =>
    match _iterator c with
    | [] => (Raised StopIteration, c)
    | t :: rest =>
        (Returned t,
         {| _iterator := rest; _coming_up_stack := _coming_up_stack c |})
    end.

(** [self._coming_up_stack.appendleft(t)] *)
Definition appendleft (t : Token) : M unit :=
  fun c =>
    (Returned tt,
     {| _iterator := _iterator c;
        _coming_up_stack := _coming_up_stack c ++ [t] |}).

(** [d[i]] on a deque, with Python's negative indices; [None] stands for
    [IndexError]. *)
Definition deque_getitem (d : list Token) (i : Z) : option Token :=
  let len := Z.of_nat (length d) in
  let j := if (i <? 0)%Z then (i + len)%Z else i in
  if ((0 <=? j) && (j <? len))%Z
  then nth_error d (Z.to_nat (len - 1 - j))
  else None.

(** [pop] *)
Definition pop : M Token :=
  fun c =>
    match _coming_up_stack c with
    | t :: rest =>
        (Returned t, {| _iterator := _iterator c; _coming_up_stack := rest |})
    | [] => next c
    end.

(** The [while] loop of [coming_up]; every turn lengthens the deque by
    one, so it takes [n - len] turns at most. *)
Fixpoint coming_up_loop (fuel : nat) (n : Z) : M unit :=
  fun c =>
    if (Z.of_nat (length (_coming_up_stack c)) <? n)%Z then
      match fuel with
      | O => (OutOfFuel, c)
      | S fuel' =>
          match next c with
          | (Returned t, c') => (appendleft t ;;; coming_up_loop fuel' n) c'
          | (Raised StopIteration, c') => (Raised EOFError, c')
          | (Raised e, c') => (Raised e, c')
          | (OutOfFuel, c') => (OutOfFuel, c')
          end
      end
    else (Returned tt, c).

(** [coming_up] *)
Definition coming_up (n : Z) : M Token :=
  fun c =>
    let missing := (n - Z.of_nat (length (_coming_up_stack c)))%Z in
    (coming_up_loop (Z.to_nat missing) n ;;;
     fun c' =>
       match deque_getitem (_coming_up_stack c') (- n) with
       | Some t => (Returned t, c')
       | None => (Raised IndexError, c')
       end) c.

(** [something_coming_up] *)
Definition something_coming_up : M bool :=
  fun c =>
    match _coming_up_stack c with
    | [] =>
        match next c with
        | (Returned t, c') => (appendleft t ;;; ret true) c'
        | (Raised StopIteration, c') => (Returned false, c')
        | (Raised e, c') => (Raised e, c')
        | (OutOfFuel, c') => (OutOfFuel, c')
        end
    | _ :: _ => (Returned true, c)
    end.

(** [check_and_pop]; [value_ = None] is the default [value=None]. *)
Definition check_and_pop (kind_ : string) (value_ : option string)
  : M Token :=
  t <- coming_up 1 ;;
  if negb (kind t =? kind_) then
    actual <- coming_up 1 ;; raise (AssertionError_token actual)
  else
    match value_ with
    | Some v =>
        t' <- coming_up 1 ;;
        if negb (value t' =? v) then
          actual <- coming_up 1 ;; raise (AssertionError_token actual)
        else pop
    | None => pop
    end.

(** ** AST nodes *)

(** The classes made by [_nodetype]: the listed fields, then [start] and
    [end].  The parser passes [start] and [end] at every construction.
    The node class [String] is written [String] here as well; it hides
    the constructor of [string], which this file only writes as
    literals. *)
Inductive Node : Type :=
| Name (name : string) (start_ end__ : position)
| Integer (value_ : Z) (start_ end__ : position)
| String (value_ : string) (start_ end__ : position)
| FunctionCall (function : Node) (arguments : list Node)
    (start_ end__ : position)
| ExpressionStatement (expression : Node) (start_ end__ : position)
| Declaration (type : Node) (variable : string) (value_ : option Node)
    (start_ end__ : position)
| Assignment (variable : Node) (value_ : Node) (start_ end__ : position)
| If (condition : Node) (body : list Node) (start_ end__ : position)
| FunctionDef (name : string) (arguments : list (Node * string))
    (returntype : option Node) (body : list Node) (start_ end__ : position)
| Return (value_ : Node) (start_ end__ : position)
| DecRef (name : string) (start_ end__ : position).

(** [node.start] *)
Definition Node_start (n : Node) : position :=
  match n with
  | Name _ s _ | Integer _ s _ | String _ s _ | FunctionCall _ _ s _
  | ExpressionStatement _ s _ | Declaration _ _ _ s _ | Assignment _ _ s _
  | If _ _ s _ | FunctionDef _ _ _ _ s _ | Return _ s _ | DecRef _ s _ => s
  end.

(** [node.end] *)
Definition Node_end (n : Node) : position :=
  match n with
  | Name _ _ e | Integer _ _ e | String _ _ e | FunctionCall _ _ _ e
  | ExpressionStatement _ _ e | Declaration _ _ _ _ e | Assignment _ _ _ e
  | If _ _ _ e | FunctionDef _ _ _ _ _ e | Return _ _ e | DecRef _ _ e => e
  end.

(** [node.name] of a [Name] node ([_type_and_name] reads it from the node
    [parse_name] has just returned). *)
Definition Node_name (n : Node) : string :=
  match n with
  | Name s _ _ | DecRef s _ _ | FunctionDef s _ _ _ _ _ => s
  | _ => ""
  end.

Definition KEYWORDS : list string := ["return"; "if"].

(** [x in KEYWORDS] *)
Definition in_KEYWORDS (x : string) : bool :=
  existsb (String.eqb x) KEYWORDS.

(** [s[1:-1]] *)
Definition slice_1_m1 (s : string) : string :=
  substring 1 (String.length s - 2) s.

(** ** The parser *)

(** [_Parser.__init__]: the parser's only attribute is its cursor. *)
Definition _Parser (tokens : list Token) : _HandyDandyTokenIterator :=
  new_HandyDandyTokenIterator tokens.

Definition parse_name (check_for_keywords : bool) : M Node :=
  token <- check_and_pop "NAME" None ;;
  if check_for_keywords && in_KEYWORDS (value token)
  then raise (AssertionError_keyword (value token))
  else ret (Name (value token) (start token) (end_ token)).

Definition parse_integer : M Node :=
  token <- check_and_pop "INTEGER" None ;;
  match int (value token) with
  | Some z => ret (Integer z (start token) (end_ token))
  | None => raise (ValueError_int (value token))
  end.

Definition parse_string : M Node :=
  token <- check_and_pop "STRING" None ;;
  ret (String (slice_1_m1 (value token)) (start token) (end_ token)).

(** The [while True] loop of [_parse_comma_list]. *)
Fixpoint _parse_comma_list_loop {A} (stop : string) (parsemethod : M A)
    (fuel : nat) (elements : list A) : M (list A * Token) :=
  match fuel with
  | O => out_of_fuel
  | S fuel' =>
      element <- parsemethod ;;
      let elements := elements ++ [element] in
      t <- coming_up 1 ;;
      if info_eqb (info t) ("OP", stop) then
        last_token <- pop ;; ret (elements, last_token)
      else
        check_and_pop "OP" (Some ",") ;;;
        t' <- coming_up 1 ;;
        if info_eqb (info t') ("OP", stop) then
          last_token <- pop ;; ret (elements, last_token)
        else _parse_comma_list_loop stop parsemethod fuel' elements
  end.

(** [_parse_comma_list]; the caller passes [parsemethod] (the default is
    [self.parse_expression]). *)
Definition _parse_comma_list {A} (stop : string) (parsemethod : M A)
    (fuel : nat) : M (list A * Token) :=
  t <- coming_up 1 ;;
  if info_eqb (info t) ("OP", stop) then
    last_token <- pop ;; ret ([], last_token)
  else _parse_comma_list_loop stop parsemethod fuel [].

(** The [while True] loop of [parse_expression]: the call suffixes. *)
Fixpoint parse_expression_loop (parse_expression : M Node) (fuel : nat)
    (result : Node) : M Node :=
  match fuel with
  | O => out_of_fuel
  | S fuel' =>
      next_token <- coming_up 1 ;;
      if negb (kind next_token =? "OP") || negb (value next_token =? "(")
      then ret result
      else
        openparen <- check_and_pop "OP" (Some "(") ;;
        al <- _parse_comma_list ")" parse_expression fuel' ;;
        let '(arguments, last_token) := al in
        parse_expression_loop parse_expression fuel'
          (FunctionCall result arguments (Node_start result)
             (end_ last_token))
  end.

Fixpoint parse_expression (fuel : nat) : M Node :=
  match fuel with
  | O => out_of_fuel
  | S fuel' =>
      coming_up_ <- coming_up 1 ;;
      let next_kind := kind coming_up_ in
      result <-
        (if next_kind =? "NAME" then parse_name true
         else if next_kind =? "STRING" then parse_string
         else if next_kind =? "INTEGER" then parse_integer
         else raise (ValueError_invalid_token coming_up_)) ;;
      parse_expression_loop (parse_expression fuel') fuel' result
  end.

Definition parse_expression_statement (fuel : nat) : M Node :=
  value_ <- parse_expression fuel ;;
  semicolon <- check_and_pop "OP" (Some ";") ;;
  ret (ExpressionStatement value_ (Node_start value_) (end_ semicolon)).

Definition assignment (fuel : nat) : M Node :=
  variable <- parse_name true ;;
  check_and_pop "OP" (Some "=") ;;;
  value_ <- parse_expression fuel ;;
  semicolon <- check_and_pop "OP" (Some ";") ;;
  ret (Assignment variable value_ (Node_start variable) (end_ semicolon)).

(** The [while] loop that collects a body up to the closing brace. *)
Fixpoint body_loop (parse_statement : M Node) (fuel : nat)
    (body : list Node) : M (list Node) :=
  match fuel with
  | O => out_of_fuel
  | S fuel' =>
      t <- coming_up 1 ;;
      if negb (info_eqb (info t) ("OP", "}")) then
        statement <- parse_statement ;;
        body_loop parse_statement fuel' (body ++ [statement])
      else ret body
  end.

Definition parse_if (parse_statement : M Node) (fuel : nat) : M Node :=
  the_if <- check_and_pop "NAME" (Some "if") ;;
  condition <- parse_expression fuel ;;
  check_and_pop "OP" (Some "{") ;;;
  body <- body_loop parse_statement fuel [] ;;
  closing_brace <- check_and_pop "OP" (Some "}") ;;
  ret (If condition body (start the_if) (end_ closing_brace)).

(** [_type_and_name].  Its [print(name)] writes to standard output, which
    is no part of the state modelled here. *)
Definition _type_and_name : M (Node * string) :=
  typenode <- parse_name true ;;
  name <- parse_name true ;;
  ret (typenode, Node_name name).

Definition parse_declaration (fuel : nat) : M Node :=
  tn <- _type_and_name ;;
  let '(datatype, variable_name) := tn in
  third_thing <- check_and_pop "OP" None ;;
  if value third_thing =? ";" then
    let semicolon := third_thing in
    let initial_value := @None Node in
    ret (Declaration datatype variable_name initial_value
           (Node_start datatype) (end_ third_thing))
  else
    initial_value <- parse_expression fuel ;;
    semicolon <- check_and_pop "OP" (Some ";") ;;
    ret (Declaration datatype variable_name (Some initial_value)
           (Node_start datatype) (end_ third_thing)).

Definition parse_return (fuel : nat) : M Node :=
  the_return <- check_and_pop "NAME" (Some "return") ;;
  value_ <- parse_expression fuel ;;
  semicolon <- check_and_pop "OP" (Some ";") ;;
  ret (Return value_ (start the_return) (end_ semicolon)).

Definition parse_function_def (parse_statement : M Node) (fuel : nat)
  : M Node :=
  function_keyword <- check_and_pop "NAME" (Some "function") ;;
  name <- parse_name true ;;
  check_and_pop "OP" (Some "(") ;;;
  aj <- _parse_comma_list ")" _type_and_name fuel ;;
  let '(arguments, junk) := aj in
  t <- coming_up 1 ;;
  returntype <-
    (if info_eqb (info t) ("NAME", "returns")
     then pop ;;; r <- parse_name true ;; ret (Some r)
     else ret None) ;;
  before_body <- check_and_pop "OP" None ;;
  body <- body_loop parse_statement fuel [] ;;
  closing_brace <- check_and_pop "OP" (Some "}") ;;
  ret (FunctionDef (Node_name name) arguments returntype body
         (start function_keyword) (end_ closing_brace)).

Fixpoint parse_statement (fuel : nat) : M Node :=
  match fuel with
  | O => out_of_fuel
  | S fuel' =>
      t1 <- coming_up 1 ;;
      if kind t1 =? "NAME" then
        t1 <- coming_up 1 ;;
        if value t1 =? "return" then parse_return fuel else
        t1 <- coming_up 1 ;;
        if value t1 =? "if" then parse_if (parse_statement fuel') fuel else
        t1 <- coming_up 1 ;;
        if value t1 =? "function"
        then parse_function_def (parse_statement fuel') fuel else
        after_name <- coming_up 2 ;;
        if info_eqb (info after_name) ("OP", "=") then assignment fuel else
        if kind after_name =? "NAME" then parse_declaration fuel else
        parse_expression_statement fuel
      else parse_expression_statement fuel
  end.

(** The generator object that [parse_file] returns: the parser it runs on
    and whether its body has ended (by [break] or by an exception). *)
Record generator : Type := mkGenerator {
  gi_parser : _HandyDandyTokenIterator;
  gi_finished : bool
}.

(** The tokens the cursor has not handed out yet: the buffered ones, then
    those still to be fetched. *)
Definition view (c : _HandyDandyTokenIterator) : list Token :=
  _coming_up_stack c ++ _iterator c.

Definition remaining (c : _HandyDandyTokenIterator) : nat :=
  length (view c).

(** [parse_file] *)
Definition parse_file (self : _HandyDandyTokenIterator) : generator :=
  {| gi_parser := self; gi_finished := false |}.

(** [next(g)] on that generator: one turn of the [while True] loop, up to
    the [yield], the [break] or an exception.  [Returned (Some node)] is a
    yielded node, [Returned None] the end of the iteration.  The statement
    is parsed with more fuel than there are tokens left. *)
Definition generator_next (g : generator)
  : outcome (option Node) * generator :=
  if gi_finished g then (Returned None, g)
  else
    match coming_up 1 (gi_parser g) with
    | (Raised EOFError, c) =>
        (Returned None, {| gi_parser := c; gi_finished := true |})
    | (Raised e, c) => (Raised e, {| gi_parser := c; gi_finished := true |})
    | (OutOfFuel, c) => (OutOfFuel, {| gi_parser := c; gi_finished := true |})
    | (Returned _, c) =>
        match parse_statement (S (remaining c)) c with
        | (Returned node, c') =>
            (Returned (Some node),
             {| gi_parser := c'; gi_finished := false |})
        | (Raised e, c') =>
            (Raised e, {| gi_parser := c'; gi_finished := true |})
        | (OutOfFuel, c') =>
            (OutOfFuel, {| gi_parser := c'; gi_finished := true |})
        end
    end.

(** [parse] *)
Definition parse (tokens : list Token) : generator :=
  let parser := _Parser tokens in
  parse_file parser.

(** Iterating a generator to its end, as [list(g)] or a [for] loop does:
    the nodes yielded, and how the iteration ended. *)
Fixpoint iterate (fuel : nat) (g : generator)
  : list Node * outcome unit :=
  match fuel with
  | O => ([], OutOfFuel)
  | S fuel' =>
      match generator_next g with
      | (Returned (Some node), g') =>
          let '(nodes, ending) := iterate fuel' g' in (node :: nodes, ending)
      | (Returned None, _) => ([], Returned tt)
      | (Raised e, _) => ([], Raised e)
      | (OutOfFuel, _) => ([], OutOfFuel)
      end
  end.

(** Every yielded statement uses up a token, so this is fuel enough. *)
Definition iterate_all (g : generator) : list Node * outcome unit :=
  iterate (S (remaining (gi_parser g))) g.

(** Two generators at the same point of the same pending tokens. *)
Definition same_pending (g1 g2 : generator) : Prop :=
  gi_finished g1 = gi_finished g2
  /\ view (gi_parser g1) = view (gi_parser g2).

(** What a computation returns, and the tokens it leaves. *)
Definition observe {A} (x : outcome A * _HandyDandyTokenIterator)
  : outcome A * list Token :=
  (fst x, view (snd x)).

(** A computation run by a fresh parser over [tokens]. *)
Definition run {A} (m : M A) (tokens : list Token)
  : outcome A * list Token :=
  observe (m (_Parser tokens)).

Arguments run {A} m tokens : simpl never.

(** One statement, or one expression, parsed by a fresh parser over
    [tokens], with more fuel than there are tokens: what is returned or
    raised, and the tokens left. *)
Definition statement_on (tokens : list Token) : outcome Node * list Token :=
  run (parse_statement (S (length tokens))) tokens.

Definition expression_on (tokens : list Token)
  : outcome Node * list Token :=
  run (parse_expression (S (length tokens))) tokens.

(** The arguments of a call, after its opening parenthesis. *)
Definition arguments_on (tokens : list Token)
  : outcome (list Node * Token) * list Token :=
  run (_parse_comma_list ")" (parse_expression (S (length tokens)))
         (S (length tokens))) tokens.

Definition statement_of (tokens : list Token) : outcome Node :=
  fst (statement_on tokens).

(** The statements of a body, up to its closing brace, parsed by a fresh
    parser over [tokens], with more fuel than there are tokens. *)
Definition body_on (tokens : list Token)
  : outcome (list Node) * list Token :=
  run (body_loop (parse_statement (S (length tokens)))
         (S (length tokens)) []) tokens.

(** The parameters of a function definition, after its opening
    parenthesis. *)
Definition parameters_on (tokens : list Token)
  : outcome (list (Node * string) * Token) * list Token :=
  run (_parse_comma_list ")" _type_and_name (S (length tokens))) tokens.

(** ** Parser instances in a store *)

(** What [parse] is called on: a sequence of tokens (a list, say), or an
    iterator object that the caller holds, given by its address. *)
Inductive iterable : Type :=
| Sequence (tokens : list Token)
| Iterator (address : nat).

(** The [_iterator] of a cursor, [iter(iterable)].  For a sequence,
    [iter] makes a new iterator object, which nothing but this cursor
    refers to: it is kept with the cursor, as the tokens it has yet to
    produce.  For an iterator, [iter] returns the iterator itself: the
    cursor refers to the object of the caller, and others may do too. *)
Inductive iterator_ref : Type :=
| Own (pending : list Token)
| Shared (address : nat).

(** A generator object made by [parse], with the parser it runs on and
    the cursor of that: [__init__] makes the deque, and only this cursor
    refers to it. *)
Record generator_object : Type := mkGeneratorObject {
  go_iterator : iterator_ref;
  go_coming_up_stack : list Token;
  go_finished : bool
}.

(** The objects of a program that uses the parser: the iterators it
    holds, each with the tokens it has yet to produce, and the generators
    that [parse] has returned to it, both by address. *)
Record store : Type := mkStore {
  st_iterators : list (list Token);
  st_generators : list generator_object
}.

Definition empty_store : store :=
  {| st_iterators := []; st_generators := [] |}.

(** [l[n] = x] *)
Fixpoint set_nth {A} (n : nat) (x : A) (l : list A) : list A :=
  match l, n with
  | [], _ => []
  | _ :: l', O => x :: l'
  | y :: l', S n' => y :: set_nth n' x l'
  end.

(** The state of a generator object, with what its iterator has yet to
    produce read from the store. *)
Definition load (st : store) (o : generator_object) : generator :=
  {| gi_parser :=
       {| _iterator :=
            match go_iterator o with
            | Own pending => pending
            | Shared a => nth a (st_iterators st) []
            end;
          _coming_up_stack := go_coming_up_stack o |};
     gi_finished := go_finished o |}.

(** The state [G] of the generator object [o] at address [g], after a
    call, written to the store. *)
Definition save (g : nat) (o : generator_object) (G : generator)
    (st : store) : store :=
  let pending := _iterator (gi_parser G) in
  {| st_iterators :=
       match go_iterator o with
       | Own _ => st_iterators st
       | Shared a => set_nth a pending (st_iterators st)
       end;
     st_generators :=
       set_nth g
         {| go_iterator :=
              match go_iterator o with
              | Own _ => Own pending
              | Shared a => Shared a
              end;
            go_coming_up_stack := _coming_up_stack (gi_parser G);
            go_finished := gi_finished G |}
         (st_generators st) |}.

(** What a program does with the parser: [iter(tokens)], which gives it
    an iterator of its own; [parse(...)], on a sequence or on one of its
    iterators; and [next(g)] on a generator that [parse] returned.
    Iterators and generators have the order of their making for
    address. *)
Inductive client_op : Type :=
| Call_iter (tokens : list Token)
| Call_parse (tokens : iterable)
| Call_next (g : nat).

(** One call: the result of a [next(g)], with [g], and the store after.
    A call on an object that does not exist is no call of a program; it
    is passed over. *)
Definition client_step (op : client_op) (st : store)
  : list (nat * outcome (option Node)) * store :=
  match op with
  | Call_iter tokens =>
      ([], {| st_iterators := st_iterators st ++ [tokens];
              st_generators := st_generators st |})
  | Call_parse (Sequence tokens) =>
      ([], {| st_iterators := st_iterators st;
              st_generators :=
                st_generators st
                ++ [{| go_iterator := Own tokens;
                       go_coming_up_stack := [];
                       go_finished := false |}] |})
  | Call_parse (Iterator a) =>
      if Nat.ltb a (length (st_iterators st)) then
        ([], {| st_iterators := st_iterators st;
                st_generators :=
                  st_generators st
                  ++ [{| go_iterator := Shared a;
                         go_coming_up_stack := [];
                         go_finished := false |}] |})
      else ([], st)
  | Call_next g =>
      match nth_error (st_generators st) g with
      | Some o =>
          let '(r, G) := generator_next (load st o) in
          ([(g, r)], save g o G st)
      | None => ([], st)
      end
  end.

(** The calls of a program, in order: the results of its [next] calls,
    and the store at the end. *)
Fixpoint run_client (p : list client_op) (st : store)
  : list (nat * outcome (option Node)) * store :=
  match p with
  | [] => ([], st)
  | op :: p' =>
      let '(events, st') := client_step op st in
      let '(events', st'') := run_client p' st' in
      (events ++ events', st'')
  end.




(** ** Sequences of cursor operations *)

Inductive cursor_op : Type :=
| Op_pop
| Op_coming_up (n : Z)
| Op_something_coming_up
| Op_check_and_pop (kind_ : string) (value_ : option string).

(** One operation: the token it consumed, if any, and the state after. *)
Definition do_op (o : cursor_op) (c : _HandyDandyTokenIterator)
  : list Token * _HandyDandyTokenIterator :=
  match o with
  | Op_pop =>
      match pop c with
      | (Returned t, c') => ([t], c')
      | (_, c') => ([], c')
      end
  | Op_coming_up n => ([], snd (coming_up n c))
  | Op_something_coming_up => ([], snd (something_coming_up c))
  | Op_check_and_pop k v =>
      match check_and_pop k v c with
      | (Returned t, c') => ([t], c')
      | (_, c') => ([], c')
      end
  end.

(** A sequence of operations: the tokens consumed, in the order of the
    calls, and the state after the last one. *)
Fixpoint do_ops (ops : list cursor_op) (c : _HandyDandyTokenIterator)
  : list Token * _HandyDandyTokenIterator :=
  match ops with
  | [] => ([], c)
  | o :: ops' =>
      let '(popped, c') := do_op o c in
      let '(popped', c'') := do_ops ops' c' in
      (popped ++ popped', c'')
  end.

(** [k] calls of [pop] in a row: the values returned. *)
Fixpoint pops (k : nat) (c : _HandyDandyTokenIterator)
  : list (outcome Token) :=
  match k with
  | O => []
  | S k' => let '(r, c') := pop c in r :: pops k' c'
  end.

(** ** Notions used to state and prove the properties *)

(** [respects m]: what [m] returns and the tokens it leaves are those of
    a fresh parser over the pending tokens, however these are split
    between the deque and the iterator. *)
Definition respects {A} (m : M A) : Prop :=
  forall c, observe (m c) = run m (view c).

(** Sequencing on observations. *)
Definition then_run {A B} (x : outcome A * list Token)
    (k : A -> list Token -> outcome B * list Token)
  : outcome B * list Token :=
  match x with
  | (Returned a, v) => k a v
  | (Raised e, v) => (Raised e, v)
  | (OutOfFuel, v) => (OutOfFuel, v)
  end.

(** [looks R strict m]: when [m] returns, it has consumed a prefix [ys] of
    the pending tokens (a non-empty one when [strict]), and it returns
    the same value after [ys] in front of any other rest [w] that [R]
    relates to the rest it left. *)
Definition looks {A} (R : list Token -> list Token -> Prop)
    (strict : bool) (m : M A) : Prop :=
  forall v a v',
    run m v = (Returned a, v') ->
    exists ys,
      v = ys ++ v'
      /\ (strict = true -> ys <> [])
      /\ forall w, R v' w -> run m (ys ++ w) = (Returned a, w).

(** The rest is not looked at. *)
Definition any_rest : list Token -> list Token -> Prop :=
  fun _ _ => True.

(** At most the next token is looked at. *)
Definition same_head : list Token -> list Token -> Prop :=
  fun v' w => hd_error w = hd_error v'.

(** Nothing is said about other rests: only the prefix is described. *)
Definition no_rest : list Token -> list Token -> Prop :=
  fun _ _ => False.

(** The rest starts with a token that is not an opening parenthesis. *)
Definition ends_expression (w : list Token) : Prop :=
  match w with
  | t :: _ => negb (kind t =? "OP") || negb (value t =? "(") = true
  | [] => False
  end.

(** The other rest, too, starts with such a token. *)
Definition expression_rest : list Token -> list Token -> Prop :=
  fun _ w => ends_expression w.

(** The rest starts with a comma or with the closing token [stop]. *)
Definition delimiter_rest (stop : string)
  : list Token -> list Token -> Prop :=
  fun _ w =>
    match w with
    | t :: _ => info t = ("OP", ",") \/ info t = ("OP", stop)
    | [] => False
    end.

(** A successful call leaves a token that is not an opening
    parenthesis. *)
Definition ends_well {A} (m : M A) : Prop :=
  forall v a v', run m v = (Returned a, v') -> ends_expression v'.

(** [consumes strict m]: when [m] returns, the tokens it leaves are a
    suffix of those it found, a proper one when [strict]. *)
Definition consumes {A} (strict : bool) (m : M A) : Prop :=
  looks no_rest strict m.

(** [m] never runs out of fuel. *)
Definition fuel_free {A} (m : M A) : Prop :=
  forall v, fst (run m v) <> OutOfFuel.

(** On at most [N] pending tokens [m1] and [m2] do the same, and do not
    run out of fuel. *)
Definition agree {A} (N : nat) (m1 m2 : M A) : Prop :=
  forall v, length v <= N ->
            run m1 v = run m2 v /\ fst (run m1 v) <> OutOfFuel.

(** What the parser can raise: never [StopIteration] (every [pop] comes
    after a successful peek) nor [IndexError]; a keyword assertion names a
    keyword. *)
Definition parser_exception (e : exception) : Prop :=
  match e with
  | StopIteration | IndexError => False
  | AssertionError_keyword s => in_KEYWORDS s = true
  | EOFError | AssertionError_token _ | ValueError_invalid_token _
  | ValueError_int _ => True
  end.

(** Every exception [m] raises satisfies [P]. *)
Definition raises_only {A} (P : exception -> Prop) (m : M A) : Prop :=
  forall v e v', run m v = (Raised e, v') -> P e.

(** [ys] starts with a token that starts at [s]. *)
Definition starts_at (ys : list Token) (s : position) : Prop :=
  exists t tl, ys = t :: tl /\ s = start t.

(** [ys] ends with a token that ends at [e]. *)
Definition ends_at (ys : list Token) (e : position) : Prop :=
  exists front t, ys = front ++ [t] /\ e = end_ t.

(** The node [m] returns starts where the first token consumed starts and
    ends where the last token consumed ends. *)
Definition spanning (m : M Node) : Prop :=
  forall v n v',
    run m v = (Returned n, v') ->
    exists ys,
      v = ys ++ v' /\ starts_at ys (Node_start n) /\ ends_at ys (Node_end n).

(** A [Declaration] node with an initial value. *)
Definition declares_initial_value (n : Node) : bool :=
  match n with
  | Declaration _ _ (Some _) _ _ => true
  | _ => false
  end.

(** The span of a statement node over the tokens [ys] consumed for it: it
    starts where the first token starts; it ends where the last token
    ends, but for a declaration with an initial value, which ends where
    the third token ends, before the tokens of the value and the
    semicolon. *)
Definition statement_span (ys : list Token) (n : Node) : Prop :=
  starts_at ys (Node_start n)
  /\ if declares_initial_value n
     then exists t1 t2 t3 more,
            ys = t1 :: t2 :: t3 :: more
            /\ 2 <= length more
            /\ Node_end n = end_ t3
     else ends_at ys (Node_end n).

(** A [Name] node whose name is no keyword. *)
Definition name_node (n : Node) : bool :=
  match n with
  | Name s _ _ => negb (in_KEYWORDS s)
  | _ => false
  end.

(** The shape of an expression: a name that is no keyword, a literal, or
    a call of an expression on expressions. *)
Fixpoint expression_node (n : Node) : bool :=
  match n with
  | Name s _ _ => negb (in_KEYWORDS s)
  | Integer _ _ _ | String _ _ _ => true
  | FunctionCall f args _ _ =>
      expression_node f && forallb expression_node args
  | _ => false
  end.

(** An argument of a function definition: a type name and a name. *)
Definition argument_pair (a : Node * string) : bool :=
  name_node (fst a) && negb (in_KEYWORDS (snd a)).

(** The shape of a statement, with the shapes of its parts. *)
Fixpoint statement_node (n : Node) : bool :=
  match n with
  | ExpressionStatement e _ _ => expression_node e
  | Declaration ty var val _ _ =>
      name_node ty && negb (in_KEYWORDS var)
      && match val with Some e => expression_node e | None => true end
  | Assignment var val _ _ => name_node var && expression_node val
  | If c body _ _ => expression_node c && forallb statement_node body
  | FunctionDef name args rt body _ _ =>
      negb (in_KEYWORDS name) && forallb argument_pair args
      && match rt with Some r => name_node r | None => true end
      && forallb statement_node body
  | Return e _ _ => expression_node e
  | _ => false
  end.

(** Where an exception leaves the cursor: a token an assertion or
    [parse_expression] rejects is still the next pending one; at an
    [EOFError] at most one token is pending (the [coming_up(2)] of
    [parse_statement] fails with one). *)
Definition error_at (e : exception) (pending : list Token) : Prop :=
  match e with
  | AssertionError_token t | ValueError_invalid_token t =>
      hd_error pending = Some t
  | EOFError => length pending <= 1
  | _ => True
  end.

(** Every exception [m] raises leaves the cursor as [error_at] says. *)
Definition raises_at {A} (m : M A) : Prop :=
  forall v e v', run m v = (Raised e, v') -> error_at e v'.

(** Every value [m] returns satisfies [P]. *)
Definition returns_only {A} (P : A -> bool) (m : M A) : Prop :=
  forall v a v', run m v = (Returned a, v') -> P a = true.

(** [ys] holds two tokens at least, and the last one is the operator
    [;] or the operator [}]. *)
Definition terminated (ys : list Token) : Prop :=
  exists first middle last,
    ys = first :: middle ++ [last]
    /\ kind last = "OP" /\ (value last = ";" \/ value last = "}").

(** ** The cursor against the sequence of pending tokens *)

Lemma view_new (tokens : list Token) :
  view (new_HandyDandyTokenIterator tokens) = tokens.
Proof. reflexivity. Qed.

Lemma observe_pop (c : _HandyDandyTokenIterator) :
  observe (pop c) =
  match view c with
  | [] => (Raised StopIteration, [])
  | t :: v => (Returned t, v)
  end.
Proof.
  unfold observe, pop, next, view.
  destruct c as [it st]; simpl.
  destruct st as [|t st]; simpl; [destruct it; reflexivity | reflexivity].
Qed.

Lemma coming_up_loop_spec (k : nat) (n : Z) :
  forall c,
    (n - Z.of_nat (length (_coming_up_stack c)) <= Z.of_nat k)%Z ->
    exists c',
      coming_up_loop k n c =
        (if (n <=? Z.of_nat (remaining c))%Z
         then Returned tt else Raised EOFError, c')
      /\ view c' = view c
      /\ ((n <= Z.of_nat (remaining c))%Z ->
          (n <= Z.of_nat (length (_coming_up_stack c')))%Z)
      /\ exists fetched,
           _coming_up_stack c' = _coming_up_stack c ++ fetched
           /\ _iterator c = fetched ++ _iterator c'.
Proof.
  induction k as [|k IH]; intros [it st] Hk; simpl in *.
  - destruct (Z.ltb_spec (Z.of_nat (length st)) n); [lia|].
    exists (mkCursor it st). unfold remaining, view; simpl.
    rewrite length_app.
    destruct (Z.leb_spec n (Z.of_nat (length st + length it))); [|lia].
    split; [reflexivity|]. split; [reflexivity|]. split; [lia|].
    exists []; simpl. now rewrite app_nil_r.
  - destruct (Z.ltb_spec (Z.of_nat (length st)) n) as [Hlt|Hge].
    + unfold next; simpl. destruct it as [|t it]; simpl.
      * exists (mkCursor [] st). unfold remaining, view; simpl.
        rewrite app_nil_r.
        destruct (Z.leb_spec n (Z.of_nat (length st))); [lia|].
        split; [reflexivity|]. split; [reflexivity|]. split; [lia|].
        exists []; now rewrite app_nil_r.
      * unfold bind, appendleft; simpl.
        destruct (IH (mkCursor it (st ++ [t]))) as (c' & E & V & L & f & F1 & F2).
        { simpl. rewrite length_app; simpl. lia. }
        exists c'. rewrite E. unfold remaining, view in *; simpl in *.
        rewrite <- app_assoc in *; simpl in *.
        replace (length (st ++ t :: it)) with (length (st ++ [t] ++ it))
          by reflexivity.
        simpl. repeat split; auto.
        exists (t :: f). split; [exact F1 | simpl; now rewrite <- F2].
    + exists (mkCursor it st). unfold remaining, view; simpl.
      rewrite length_app.
      destruct (Z.leb_spec n (Z.of_nat (length st + length it))); [|lia].
      split; [reflexivity|]. split; [reflexivity|]. split; [lia|].
    exists []; simpl. now rewrite app_nil_r.
Qed.

(** [coming_up(n)], n >= 1: the n-th pending token or [EOFError], and the
    pending tokens are left as they were. *)
Lemma observe_coming_up (n : Z) (c : _HandyDandyTokenIterator) :
  (1 <= n)%Z ->
  observe (coming_up n c) =
  (match nth_error (view c) (Z.to_nat (n - 1)) with
   | Some t => Returned t
   | None => Raised EOFError
   end, view c).
Proof.
  intros Hn. unfold coming_up, bind.
  destruct (coming_up_loop_spec (Z.to_nat (n - Z.of_nat (length (_coming_up_stack c)))) n c)
    as (c' & E & V & L & f & F1 & F2); [lia|].
  rewrite E.
  destruct (Z.leb_spec n (Z.of_nat (remaining c))) as [Hle|Hgt].
  - specialize (L Hle). unfold deque_getitem.
    set (len := Z.of_nat (length (_coming_up_stack c'))) in *.
    destruct (Z.ltb_spec (- n) 0); [|lia].
    destruct (Z.leb_spec 0 (- n + len)); [|lia].
    destruct (Z.ltb_spec (- n + len) len); [|lia]. simpl.
    replace (len - 1 - (- n + len))%Z with (n - 1)%Z by lia.
    rewrite <- V. unfold view.
    rewrite nth_error_app1 by (unfold len in *; lia).
    destruct (nth_error (_coming_up_stack c') (Z.to_nat (n - 1))) eqn:En.
    + reflexivity.
    + apply nth_error_None in En. unfold len in *. lia.
  - unfold observe; simpl. rewrite V.
    destruct (nth_error (view c) (Z.to_nat (n - 1))) eqn:En; auto.
    assert (Z.to_nat (n - 1) < length (view c))
      by (apply nth_error_Some; congruence).
    unfold remaining in *. lia.
Qed.

Lemma observe_something_coming_up (c : _HandyDandyTokenIterator) :
  observe (something_coming_up c) =
  (Returned (match view c with [] => false | _ :: _ => true end), view c).
Proof.
  unfold observe, something_coming_up, next, view.
  destruct c as [it st]; simpl.
  destruct st as [|t st]; simpl; [|reflexivity].
  destruct it as [|t it]; simpl; reflexivity.
Qed.

(** ** Computations that only depend on the pending tokens *)

Lemma observe_bind {A B} (m : M A) (k : A -> M B) c :
  respects m -> (forall a, respects (k a)) ->
  observe (bind m k c) = then_run (observe (m c)) (fun a => run (k a)).
Proof.
  intros Hm Hk. unfold bind, then_run.
  destruct (m c) as [[a|e|] c1]; simpl; auto.
  apply Hk.
Qed.

Lemma respects_bind {A B} (m : M A) (k : A -> M B) :
  respects m -> (forall a, respects (k a)) -> respects (bind m k).
Proof.
  intros Hm Hk c. unfold run.
  rewrite !observe_bind by assumption.
  now rewrite Hm, (Hm (_Parser (view c))), view_new.
Qed.

Lemma run_bind {A B} (m : M A) (k : A -> M B) v :
  respects m -> (forall a, respects (k a)) ->
  run (bind m k) v = then_run (run m v) (fun a => run (k a)).
Proof.
  intros Hm Hk. unfold run at 1. now rewrite observe_bind.
Qed.

Lemma respects_ret {A} (a : A) : respects (ret a).
Proof. intro c. reflexivity. Qed.

Lemma respects_raise {A} (e : exception) : respects (@raise A e).
Proof. intro c. reflexivity. Qed.

Lemma respects_out_of_fuel {A} : respects (@out_of_fuel A).
Proof. intro c. reflexivity. Qed.

Lemma run_ret {A} (a : A) v : run (ret a) v = (Returned a, v).
Proof. reflexivity. Qed.

Lemma run_raise {A} (e : exception) v : run (@raise A e) v = (Raised e, v).
Proof. reflexivity. Qed.

Lemma run_out_of_fuel {A} v : run (@out_of_fuel A) v = (OutOfFuel, v).
Proof. reflexivity. Qed.

Lemma respects_pop : respects pop.
Proof. intro c. unfold run. now rewrite !observe_pop, view_new. Qed.

Lemma run_pop v :
  run pop v =
  match v with
  | [] => (Raised StopIteration, [])
  | t :: v' => (Returned t, v')
  end.
Proof. unfold run. now rewrite observe_pop, view_new. Qed.

Lemma respects_coming_up (n : Z) : (1 <= n)%Z -> respects (coming_up n).
Proof.
  intros Hn c. unfold run. now rewrite !observe_coming_up, view_new.
Qed.

Lemma run_coming_up (n : Z) v :
  (1 <= n)%Z ->
  run (coming_up n) v =
  (match nth_error v (Z.to_nat (n - 1)) with
   | Some t => Returned t
   | None => Raised EOFError
   end, v).
Proof.
  intro Hn. unfold run. now rewrite observe_coming_up, view_new.
Qed.

Lemma respects_coming_up_1 : respects (coming_up 1).
Proof. apply respects_coming_up. lia. Qed.

Lemma respects_coming_up_2 : respects (coming_up 2).
Proof. apply respects_coming_up. lia. Qed.

Lemma run_coming_up_1 v :
  run (coming_up 1) v =
  (match v with [] => Raised EOFError | t :: _ => Returned t end, v).
Proof. rewrite run_coming_up by lia. now destruct v. Qed.

Lemma run_coming_up_2 v :
  run (coming_up 2) v =
  (match v with
   | _ :: t :: _ => Returned t
   | _ => Raised EOFError
   end, v).
Proof. rewrite run_coming_up by lia. now destruct v as [|? [|? ?]]. Qed.

Lemma respects_something_coming_up : respects something_coming_up.
Proof.
  intro c. unfold run. now rewrite !observe_something_coming_up, view_new.
Qed.

Create HintDb respects.

#[local] Hint Resolve respects_ret respects_raise respects_out_of_fuel
  respects_pop respects_coming_up_1 respects_coming_up_2
  respects_something_coming_up : respects.

(** Goals [respects m] for [m] put together from computations that are
    known to respect the pending tokens. *)
Ltac respects_tac :=
  repeat first
    [ match goal with
      | |- forall _, _ => intro
      | |- respects (bind _ _) => apply respects_bind
      | |- respects (if ?b then _ else _) => destruct b
      | |- respects (match ?x with _ => _ end) => destruct x
      end
    | progress auto with respects ].

(** Rewriting [run] through the structure of a computation. *)
Ltac run_step :=
  first
    [ rewrite run_bind by respects_tac
    | rewrite run_ret
    | rewrite run_raise
    | rewrite run_out_of_fuel
    | rewrite run_coming_up_1
    | rewrite run_coming_up_2
    | rewrite run_pop ].

Lemma respects_check_and_pop kind_ value_ :
  respects (check_and_pop kind_ value_).
Proof. unfold check_and_pop. respects_tac. Qed.

#[local] Hint Resolve respects_check_and_pop : respects.

Lemma run_check_and_pop kind_ value_ v :
  run (check_and_pop kind_ value_) v =
  match v with
  | [] => (Raised EOFError, [])
  | t :: v' =>
      if negb (kind t =? kind_) then (Raised (AssertionError_token t), v)
      else
        match value_ with
        | Some x =>
            if negb (value t =? x)
            then (Raised (AssertionError_token t), v)
            else (Returned t, v')
        | None => (Returned t, v')
        end
  end.
Proof.
  unfold check_and_pop. repeat run_step.
  destruct v as [|t v']; simpl; [reflexivity|].
  destruct (negb (kind t =? kind_)); simpl.
  - now repeat (run_step; simpl).
  - destruct value_ as [x|]; repeat (run_step; simpl); auto.
    destruct (negb (value t =? x)); now repeat (run_step; simpl).
Qed.

(** ** The parser only depends on the pending tokens *)

Lemma respects_parse_name b : respects (parse_name b).
Proof. unfold parse_name. respects_tac. Qed.

Lemma respects_parse_integer : respects parse_integer.
Proof. unfold parse_integer. respects_tac. Qed.

Lemma respects_parse_string : respects parse_string.
Proof. unfold parse_string. respects_tac. Qed.

#[local] Hint Resolve respects_parse_name respects_parse_integer
  respects_parse_string : respects.

Lemma respects__type_and_name : respects _type_and_name.
Proof. unfold _type_and_name. respects_tac. Qed.

#[local] Hint Resolve respects__type_and_name : respects.

Lemma respects__parse_comma_list_loop {A} stop (parsemethod : M A) :
  respects parsemethod ->
  forall fuel elements,
    respects (_parse_comma_list_loop stop parsemethod fuel elements).
Proof.
  intros Hp fuel. induction fuel as [|fuel IH]; intro elements; simpl.
  - respects_tac.
  - respects_tac.
Qed.

#[local] Hint Resolve respects__parse_comma_list_loop : respects.

Lemma respects__parse_comma_list {A} stop (parsemethod : M A) fuel :
  respects parsemethod ->
  respects (_parse_comma_list stop parsemethod fuel).
Proof. intro Hp. unfold _parse_comma_list. respects_tac. Qed.

#[local] Hint Resolve respects__parse_comma_list : respects.

Lemma respects_parse_expression_loop (parse_expression : M Node) :
  respects parse_expression ->
  forall fuel result,
    respects (parse_expression_loop parse_expression fuel result).
Proof.
  intros Hp fuel. induction fuel as [|fuel IH]; intro result; simpl.
  - respects_tac.
  - respects_tac.
Qed.

#[local] Hint Resolve respects_parse_expression_loop : respects.

Lemma respects_parse_expression fuel : respects (parse_expression fuel).
Proof.
  induction fuel as [|fuel IH]; simpl; respects_tac.
Qed.

#[local] Hint Resolve respects_parse_expression : respects.

Lemma respects_parse_expression_statement fuel :
  respects (parse_expression_statement fuel).
Proof. unfold parse_expression_statement. respects_tac. Qed.

Lemma respects_assignment fuel : respects (assignment fuel).
Proof. unfold assignment. respects_tac. Qed.

Lemma respects_parse_declaration fuel : respects (parse_declaration fuel).
Proof. unfold parse_declaration. respects_tac. Qed.

Lemma respects_parse_return fuel : respects (parse_return fuel).
Proof. unfold parse_return. respects_tac. Qed.

#[local] Hint Resolve respects_parse_expression_statement
  respects_assignment respects_parse_declaration respects_parse_return
  : respects.

Lemma respects_body_loop (parse_statement : M Node) :
  respects parse_statement ->
  forall fuel body, respects (body_loop parse_statement fuel body).
Proof.
  intros Hp fuel. induction fuel as [|fuel IH]; intro body; simpl.
  - respects_tac.
  - respects_tac.
Qed.

#[local] Hint Resolve respects_body_loop : respects.

Lemma respects_parse_if (parse_statement : M Node) fuel :
  respects parse_statement -> respects (parse_if parse_statement fuel).
Proof. intro Hp. unfold parse_if. respects_tac. Qed.

Lemma respects_parse_function_def (parse_statement : M Node) fuel :
  respects parse_statement ->
  respects (parse_function_def parse_statement fuel).
Proof. intro Hp. unfold parse_function_def. respects_tac. Qed.

#[local] Hint Resolve respects_parse_if respects_parse_function_def
  : respects.

Lemma respects_parse_statement fuel : respects (parse_statement fuel).
Proof.
  induction fuel as [|fuel IH]; simpl; respects_tac.
Qed.

#[local] Hint Resolve respects_parse_statement : respects.

(** ** The leaves of the grammar, on the pending tokens *)

Lemma run_parse_name b v :
  run (parse_name b) v =
  match v with
  | [] => (Raised EOFError, [])
  | t :: v' =>
      if negb (kind t =? "NAME") then (Raised (AssertionError_token t), v)
      else if b && in_KEYWORDS (value t)
           then (Raised (AssertionError_keyword (value t)), v')
           else (Returned (Name (value t) (start t) (end_ t)), v')
  end.
Proof.
  unfold parse_name. run_step. rewrite run_check_and_pop.
  destruct v as [|t v']; simpl; [reflexivity|].
  destruct (negb (kind t =? "NAME")); simpl; [reflexivity|].
  destruct (b && in_KEYWORDS (value t)); now run_step.
Qed.

Lemma run_parse_string v :
  run parse_string v =
  match v with
  | [] => (Raised EOFError, [])
  | t :: v' =>
      if negb (kind t =? "STRING") then (Raised (AssertionError_token t), v)
      else (Returned (String (slice_1_m1 (value t)) (start t) (end_ t)), v')
  end.
Proof.
  unfold parse_string. run_step. rewrite run_check_and_pop.
  destruct v as [|t v']; simpl; [reflexivity|].
  destruct (negb (kind t =? "STRING")); simpl; [reflexivity|].
  now run_step.
Qed.

Lemma run_parse_integer v :
  run parse_integer v =
  match v with
  | [] => (Raised EOFError, [])
  | t :: v' =>
      if negb (kind t =? "INTEGER") then (Raised (AssertionError_token t), v)
      else match int (value t) with
           | Some z => (Returned (Integer z (start t) (end_ t)), v')
           | None => (Raised (ValueError_int (value t)), v')
           end
  end.
Proof.
  unfold parse_integer. run_step. rewrite run_check_and_pop.
  destruct v as [|t v']; simpl; [reflexivity|].
  destruct (negb (kind t =? "INTEGER")); simpl; [reflexivity|].
  destruct (int (value t)); now run_step.
Qed.

Lemma run__type_and_name v :
  run _type_and_name v =
  then_run (run (parse_name true) v) (fun typenode v1 =>
  then_run (run (parse_name true) v1) (fun name v2 =>
  (Returned (typenode, Node_name name), v2))).
Proof.
  unfold _type_and_name. run_step.
  destruct (run (parse_name true) v) as [[typenode|e|] v1];
    cbn [then_run]; auto.
  run_step.
  destruct (run (parse_name true) v1) as [[name|e|] v2];
    cbn [then_run]; auto.
Qed.

(** ** How far a successful call looks *)

Lemma looks_weaken {A} (R R' : list Token -> list Token -> Prop)
    (s s' : bool) (m : M A) :
  looks R s m ->
  (forall v' w, R' v' w -> R v' w) ->
  (s' = true -> s = true) ->
  looks R' s' m.
Proof.
  intros H HR Hs v a v' E.
  destruct (H v a v' E) as (ys & E1 & S1 & L1).
  exists ys. repeat split; auto.
Qed.

Lemma looks_bind {A B} (R1 R2 : list Token -> list Token -> Prop)
    (s1 s2 : bool) (m : M A) (k : A -> M B) :
  respects m -> (forall a, respects (k a)) ->
  looks R1 s1 m ->
  (forall a, looks R2 s2 (k a)) ->
  (forall ys v' w, (s2 = true -> ys <> []) -> R2 v' w ->
                   R1 (ys ++ v') (ys ++ w)) ->
  looks R2 (s1 || s2) (bind m k).
Proof.
  intros Rm Rk Hm Hk HR v b v' E.
  rewrite run_bind in E by assumption.
  destruct (run m v) as [[a|e|] v1] eqn:Em; cbn [then_run] in E;
    try discriminate.
  destruct (Hm v a v1 Em) as (ys1 & E1 & S1 & L1).
  destruct (Hk a v1 b v' E) as (ys2 & E2 & S2 & L2).
  exists (ys1 ++ ys2). split; [|split].
  - now rewrite <- app_assoc, <- E2.
  - intros Hs Hnil. apply app_eq_nil in Hnil as [-> ->].
    destruct s1, s2; try discriminate;
      try (now apply S1); now apply S2.
  - intros w Hw. rewrite run_bind by assumption.
    rewrite <- app_assoc, L1; [cbn [then_run]; now apply L2|].
    subst v1. now apply HR.
Qed.

Lemma looks_ret {A} R (a : A) : looks R false (ret a).
Proof.
  intros v b v' E. rewrite run_ret in E. inversion E; subst.
  exists []. split; [reflexivity|]. split; [discriminate|].
  intros w _. apply run_ret.
Qed.

Lemma looks_raise {A} R s (e : exception) : looks R s (@raise A e).
Proof. intros v b v' E. rewrite run_raise in E. discriminate. Qed.

Lemma looks_out_of_fuel {A} R s : looks R s (@out_of_fuel A).
Proof. intros v b v' E. rewrite run_out_of_fuel in E. discriminate. Qed.

Lemma looks_coming_up_1 : looks same_head false (coming_up 1).
Proof.
  intros v a v' E. rewrite run_coming_up_1 in E.
  destruct v as [|t v1]; inversion E; subst.
  exists []. split; [reflexivity|]. split; [discriminate|].
  intros [|t' w] Hw; inversion Hw; subst. apply run_coming_up_1.
Qed.

Lemma looks_pop : looks any_rest true pop.
Proof.
  intros v a v' E. rewrite run_pop in E.
  destruct v as [|t v1]; inversion E; subst.
  exists [a]. split; [reflexivity|]. split; [discriminate|].
  intros w _. apply run_pop.
Qed.

Lemma looks_check_and_pop kind_ value_ :
  looks any_rest true (check_and_pop kind_ value_).
Proof.
  intros v a v' E. rewrite run_check_and_pop in E.
  destruct v as [|t v1]; [discriminate|].
  destruct (negb (kind t =? kind_)) eqn:Ek; [discriminate|].
  assert (Ha : a = t /\ v' = v1
               /\ match value_ with
                  | Some x => negb (value t =? x) = false
                  | None => True
                  end).
  { destruct value_ as [x|]; [destruct (negb (value t =? x)) eqn:Ev|];
      inversion E; auto. }
  destruct Ha as (-> & -> & Hv).
  exists [t]. split; [reflexivity|]. split; [discriminate|]. intros w _.
  rewrite run_check_and_pop. cbn [app]. rewrite Ek.
  destruct value_ as [x|]; [now rewrite Hv|reflexivity].
Qed.

Lemma looks_parse_name b : looks any_rest true (parse_name b).
Proof.
  intros v a v' E. rewrite run_parse_name in E.
  destruct v as [|t v1]; [discriminate|].
  destruct (negb (kind t =? "NAME")) eqn:Ek; [discriminate|].
  destruct (b && in_KEYWORDS (value t)) eqn:Eb; inversion E; subst.
  exists [t]. split; [reflexivity|]. split; [discriminate|]. intros w _.
  rewrite run_parse_name. cbn [app]. now rewrite Ek, Eb.
Qed.

Lemma looks_parse_string : looks any_rest true parse_string.
Proof.
  intros v a v' E. rewrite run_parse_string in E.
  destruct v as [|t v1]; [discriminate|].
  destruct (negb (kind t =? "STRING")) eqn:Ek; inversion E; subst.
  exists [t]. split; [reflexivity|]. split; [discriminate|]. intros w _.
  rewrite run_parse_string. cbn [app]. now rewrite Ek.
Qed.

Lemma looks_parse_integer : looks any_rest true parse_integer.
Proof.
  intros v a v' E. rewrite run_parse_integer in E.
  destruct v as [|t v1]; [discriminate|].
  destruct (negb (kind t =? "INTEGER")) eqn:Ek; [discriminate|].
  destruct (int (value t)) eqn:Ei; inversion E; subst.
  exists [t]. split; [reflexivity|]. split; [discriminate|]. intros w _.
  rewrite run_parse_integer. cbn [app]. now rewrite Ek, Ei.
Qed.

Lemma any_rest_compat (R : list Token -> list Token -> Prop) (s : bool) :
  forall ys v' w : list Token,
    (s = true -> ys <> []) -> R v' w -> any_rest (ys ++ v') (ys ++ w).
Proof. intros; exact I. Qed.

Lemma same_head_compat_strict (R : list Token -> list Token -> Prop) :
  forall ys v' w : list Token,
    (true = true -> ys <> []) -> R v' w -> same_head (ys ++ v') (ys ++ w).
Proof.
  intros [|y ys] v' w H _; [now elim H|reflexivity].
Qed.

Lemma same_head_compat (s : bool) :
  forall ys v' w : list Token,
    (s = true -> ys <> []) -> same_head v' w ->
    same_head (ys ++ v') (ys ++ w).
Proof.
  intros [|y ys] v' w _ H; [exact H|reflexivity].
Qed.

Lemma looks__type_and_name : looks any_rest true _type_and_name.
Proof.
  unfold _type_and_name.
  apply (looks_bind (R1 := any_rest) (s1 := true) (s2 := true));
    [respects_tac|respects_tac|apply looks_parse_name|intro typenode
    |apply any_rest_compat].
  apply (looks_bind (R1 := any_rest) (s1 := true) (s2 := false));
    [respects_tac|respects_tac|apply looks_parse_name|intro name
    |apply any_rest_compat].
  apply looks_ret.
Qed.

(** ** Comma lists and expressions on the pending tokens *)

Lemma run__parse_comma_list_loop_S {A} stop (parsemethod : M A) fuel
    elements v :
  respects parsemethod ->
  run (_parse_comma_list_loop stop parsemethod (S fuel) elements) v =
  then_run (run parsemethod v) (fun element v1 =>
    match v1 with
    | [] => (Raised EOFError, [])
    | t :: v2 =>
        if info_eqb (info t) ("OP", stop)
        then (Returned (elements ++ [element], t), v2)
        else if negb (kind t =? "OP") || negb (value t =? ",")
        then (Raised (AssertionError_token t), v1)
        else
          match v2 with
          | [] => (Raised EOFError, [])
          | t' :: v3 =>
              if info_eqb (info t') ("OP", stop)
              then (Returned (elements ++ [element], t'), v3)
              else run (_parse_comma_list_loop stop parsemethod fuel
                          (elements ++ [element])) v2
          end
    end).
Proof.
  intro Hp. cbn [_parse_comma_list_loop]. run_step.
  destruct (run parsemethod v) as [[element|e|] v1]; cbn [then_run]; auto.
  repeat run_step. destruct v1 as [|t v2]; cbn [then_run]; auto.
  destruct (info_eqb (info t) ("OP", stop)).
  - now repeat (run_step; cbn [then_run]).
  - run_step. rewrite run_check_and_pop.
    destruct (negb (kind t =? "OP")); cbn [then_run orb]; auto.
    destruct (negb (value t =? ",")); cbn [then_run]; auto.
    repeat run_step. destruct v2 as [|t' v3]; cbn [then_run]; auto.
    destruct (info_eqb (info t') ("OP", stop)); auto.
Qed.

Lemma run__parse_comma_list {A} stop (parsemethod : M A) fuel v :
  respects parsemethod ->
  run (_parse_comma_list stop parsemethod fuel) v =
  match v with
  | [] => (Raised EOFError, [])
  | t :: v1 =>
      if info_eqb (info t) ("OP", stop) then (Returned ([], t), v1)
      else run (_parse_comma_list_loop stop parsemethod fuel []) v
  end.
Proof.
  intro Hp. unfold _parse_comma_list. repeat run_step.
  destruct v as [|t v1]; cbn [then_run]; auto.
  destruct (info_eqb (info t) ("OP", stop)); auto.
Qed.

Lemma run_parse_expression_loop_S (parse_expression : M Node) fuel
    result v :
  respects parse_expression ->
  run (parse_expression_loop parse_expression (S fuel) result) v =
  match v with
  | [] => (Raised EOFError, [])
  | t :: v1 =>
      if negb (kind t =? "OP") || negb (value t =? "(")
      then (Returned result, v)
      else
        then_run (run (_parse_comma_list ")" parse_expression fuel) v1)
          (fun al v2 =>
             run (parse_expression_loop parse_expression fuel
                    (FunctionCall result (fst al) (Node_start result)
                       (end_ (snd al)))) v2)
  end.
Proof.
  intro Hp. cbn [parse_expression_loop]. repeat run_step.
  destruct v as [|t v1]; cbn [then_run]; auto.
  destruct (negb (kind t =? "OP")) eqn:Ek; cbn [orb].
  - now run_step.
  - destruct (negb (value t =? "(")) eqn:Ev; [now run_step|].
    run_step. rewrite run_check_and_pop, Ek, Ev. cbn [then_run].
    run_step.
    destruct (run (_parse_comma_list ")" parse_expression fuel) v1)
      as [[[arguments last_token]|e|] v2]; cbn [then_run]; auto.
Qed.

Lemma run_parse_expression_S fuel v :
  run (parse_expression (S fuel)) v =
  match v with
  | [] => (Raised EOFError, [])
  | t :: _ =>
      then_run
        (if kind t =? "NAME" then run (parse_name true) v
         else if kind t =? "STRING" then run parse_string v
         else if kind t =? "INTEGER" then run parse_integer v
         else (Raised (ValueError_invalid_token t), v))
        (fun result =>
           run (parse_expression_loop (parse_expression fuel) fuel result))
  end.
Proof.
  cbn [parse_expression]. repeat run_step.
  destruct v as [|t v1]; cbn [then_run]; auto.
  run_step.
  destruct (kind t =? "NAME"); [reflexivity|].
  destruct (kind t =? "STRING"); [reflexivity|].
  destruct (kind t =? "INTEGER"); [reflexivity|].
  now run_step.
Qed.

Lemma looks__parse_comma_list_loop {A} stop (parsemethod : M A) :
  respects parsemethod ->
  looks same_head false parsemethod ->
  forall fuel elements,
    looks any_rest true
      (_parse_comma_list_loop stop parsemethod fuel elements).
Proof.
  intros Rp Hp fuel.
  induction fuel as [|fuel IH]; intro elements;
    cbn [_parse_comma_list_loop]; [apply looks_out_of_fuel|].
  apply (looks_bind (R1 := same_head) (s1 := false) (s2 := true));
    [respects_tac|respects_tac|exact Hp|intro element
    |apply same_head_compat_strict].
  apply (looks_bind (R1 := same_head) (s1 := false) (s2 := true));
    [respects_tac|respects_tac|apply looks_coming_up_1|intro t
    |apply same_head_compat_strict].
  destruct (info_eqb (info t) ("OP", stop)).
  - apply (looks_bind (R1 := any_rest) (s1 := true) (s2 := false));
      [respects_tac|respects_tac|apply looks_pop|intro last_token
      |apply any_rest_compat].
    apply looks_ret.
  - apply (looks_bind (R1 := any_rest) (s1 := true) (s2 := true));
      [respects_tac|respects_tac|apply looks_check_and_pop|intros _
      |apply any_rest_compat].
    apply (looks_bind (R1 := same_head) (s1 := false) (s2 := true));
      [respects_tac|respects_tac|apply looks_coming_up_1|intro t'
      |apply same_head_compat_strict].
    destruct (info_eqb (info t') ("OP", stop)); [|apply IH].
    apply (looks_bind (R1 := any_rest) (s1 := true) (s2 := false));
      [respects_tac|respects_tac|apply looks_pop|intro last_token
      |apply any_rest_compat].
    apply looks_ret.
Qed.

Lemma looks__parse_comma_list {A} stop (parsemethod : M A) fuel :
  respects parsemethod ->
  looks same_head false parsemethod ->
  looks any_rest true (_parse_comma_list stop parsemethod fuel).
Proof.
  intros Rp Hp. unfold _parse_comma_list.
  apply (looks_bind (R1 := same_head) (s1 := false) (s2 := true));
    [respects_tac|respects_tac|apply looks_coming_up_1|intro t
    |apply same_head_compat_strict].
  destruct (info_eqb (info t) ("OP", stop));
    [|now apply looks__parse_comma_list_loop].
  apply (looks_bind (R1 := any_rest) (s1 := true) (s2 := false));
    [respects_tac|respects_tac|apply looks_pop|intro last_token
    |apply any_rest_compat].
  apply looks_ret.
Qed.

Lemma looks_same_head_of_expression {A} (s : bool) (m : M A) :
  looks expression_rest s m -> ends_well m -> looks same_head s m.
Proof.
  intros H Hw v a v' E.
  destruct (H v a v' E) as (ys & E1 & S1 & L1).
  exists ys. split; [exact E1|]. split; [exact S1|].
  intros w Hh. apply L1. specialize (Hw v a v' E).
  unfold expression_rest, same_head in *.
  destruct v' as [|t' v'']; [contradiction|].
  destruct w as [|t w']; [discriminate|]. inversion Hh; subst. exact Hw.
Qed.

Lemma looks_parse_expression_loop (parse_expression : M Node) :
  respects parse_expression ->
  looks same_head false parse_expression ->
  forall fuel result,
    looks expression_rest false
      (parse_expression_loop parse_expression fuel result)
    /\ ends_well (parse_expression_loop parse_expression fuel result).
Proof.
  intros Rp Hp fuel.
  assert (G : forall result v a v',
             run (parse_expression_loop parse_expression fuel result) v
             = (Returned a, v') ->
             exists ys,
               v = ys ++ v' /\ ends_expression v'
               /\ forall w, ends_expression w ->
                    run (parse_expression_loop parse_expression fuel result)
                      (ys ++ w) = (Returned a, w)).
  { induction fuel as [|fuel IH]; intros result v a v' E;
      [discriminate|].
    rewrite run_parse_expression_loop_S in E by assumption.
    destruct v as [|t v1]; [discriminate|].
    destruct (negb (kind t =? "OP") || negb (value t =? "(")) eqn:Ec.
    - inversion E; subst. exists []. split; [reflexivity|].
      split; [exact Ec|]. intros [|t' w'] Hw; [contradiction|].
      rewrite run_parse_expression_loop_S by assumption.
      cbn [app]. cbn [ends_expression] in Hw. now rewrite Hw.
    - destruct (run (_parse_comma_list ")" parse_expression fuel) v1)
        as [[al|e|] v2] eqn:El; cbn [then_run] in E; try discriminate.
      destruct (@looks__parse_comma_list _ ")" parse_expression fuel
                  Rp Hp _ _ _ El) as (zs & Ez & _ & Lz).
      destruct (IH _ _ _ _ E) as (ys2 & E2 & Hends & L2).
      exists (t :: zs ++ ys2). split; [|split; [exact Hends|]].
      + cbn [app]. now rewrite <- app_assoc, <- E2, <- Ez.
      + intros w Hw.
        rewrite run_parse_expression_loop_S by assumption.
        cbn [app]. rewrite Ec, <- app_assoc, (Lz (ys2 ++ w) I).
        cbn [then_run]. now apply L2. }
  intro result. split.
  - intros v a v' E. destruct (G _ _ _ _ E) as (ys & E1 & _ & L).
    exists ys. split; [exact E1|]. split; [discriminate|exact L].
  - intros v a v' E. now destruct (G _ _ _ _ E) as (ys & _ & H & _).
Qed.

Lemma primary_one_token (t : Token) (v1 : list Token) r v1' :
  (if kind t =? "NAME" then run (parse_name true) (t :: v1)
   else if kind t =? "STRING" then run parse_string (t :: v1)
   else if kind t =? "INTEGER" then run parse_integer (t :: v1)
   else (Raised (ValueError_invalid_token t), t :: v1))
  = (Returned r, v1') ->
  v1' = v1
  /\ forall w,
       (if kind t =? "NAME" then run (parse_name true) (t :: w)
        else if kind t =? "STRING" then run parse_string (t :: w)
        else if kind t =? "INTEGER" then run parse_integer (t :: w)
        else (Raised (ValueError_invalid_token t), t :: w))
       = (Returned r, w).
Proof.
  rewrite run_parse_name, run_parse_string, run_parse_integer.
  intro H. split.
  - destruct (kind t =? "NAME"); cbn [negb] in H.
    + destruct (true && in_KEYWORDS (value t)); now inversion H.
    + destruct (kind t =? "STRING"); cbn [negb] in H; [now inversion H|].
      destruct (kind t =? "INTEGER"); cbn [negb] in H; [|discriminate].
      destruct (int (value t)); now inversion H.
  - intro w. rewrite run_parse_name, run_parse_string, run_parse_integer.
    destruct (kind t =? "NAME"); cbn [negb] in *.
    + destruct (true && in_KEYWORDS (value t)); now inversion H.
    + destruct (kind t =? "STRING"); cbn [negb] in *; [now inversion H|].
      destruct (kind t =? "INTEGER"); cbn [negb] in *; [|discriminate].
      destruct (int (value t)); now inversion H.
Qed.

Lemma looks_parse_expression fuel :
  looks expression_rest true (parse_expression fuel)
  /\ ends_well (parse_expression fuel).
Proof.
  induction fuel as [|fuel [IH1 IH2]];
    [split; intros v a v' E; discriminate|].
  assert (Hp : looks same_head false (parse_expression fuel)).
  { apply (@looks_weaken _ same_head same_head true false);
      [now apply looks_same_head_of_expression|auto|discriminate]. }
  assert (G : forall v a v',
             run (parse_expression (S fuel)) v = (Returned a, v') ->
             exists ys,
               v = ys ++ v' /\ ys <> [] /\ ends_expression v'
               /\ forall w, ends_expression w ->
                    run (parse_expression (S fuel)) (ys ++ w)
                    = (Returned a, w)).
  { intros v a v' E. rewrite run_parse_expression_S in E.
    destruct v as [|t v1]; [discriminate|].
    match type of E with
    | then_run ?P _ = _ => destruct P as [[r|e|] v1'] eqn:EP
    end; cbn [then_run] in E; try discriminate.
    destruct (primary_one_token _ _ EP) as [-> Lp].
    destruct (looks_parse_expression_loop (respects_parse_expression fuel)
                Hp fuel r) as [Hl He].
    destruct (Hl _ _ _ E) as (ys & E1 & _ & L).
    exists (t :: ys). split; [now rewrite E1|]. split; [discriminate|].
    split; [exact (He _ _ _ E)|].
    intros w Hw. rewrite run_parse_expression_S. cbn [app].
    rewrite Lp. cbn [then_run]. now apply L. }
  split.
  - intros v a v' E. destruct (G _ _ _ E) as (ys & E1 & N & _ & L).
    exists ys. split; [exact E1|]. split; [intros _; exact N|exact L].
  - intros v a v' E. now destruct (G _ _ _ E) as (ys & _ & _ & H & _).
Qed.

Lemma looks_same_head_parse_expression fuel :
  looks same_head true (parse_expression fuel).
Proof.
  destruct (looks_parse_expression fuel) as [H1 H2].
  now apply looks_same_head_of_expression.
Qed.

(** ** What a successful call consumes *)

Lemma consumes_of_looks {A} R (s s' : bool) (m : M A) :
  looks R s m -> (s' = true -> s = true) -> consumes s' m.
Proof.
  intros H Hs.
  apply looks_weaken with (R := R) (s := s);
    [exact H|intros ? ? []|exact Hs].
Qed.

Lemma consumes_length {A} (s : bool) (m : M A) v a v' :
  consumes s m -> run m v = (Returned a, v') ->
  length v' <= length v /\ (s = true -> length v' < length v).
Proof.
  intros H E. destruct (H v a v' E) as (ys & -> & S1 & _).
  rewrite length_app. split; [lia|].
  intro Hs. specialize (S1 Hs). destruct ys; [contradiction|simpl; lia].
Qed.

Lemma consumes_bind {A B} (s1 s2 : bool) (m : M A) (k : A -> M B) :
  respects m -> (forall a, respects (k a)) ->
  consumes s1 m -> (forall a, consumes s2 (k a)) ->
  consumes (s1 || s2) (bind m k).
Proof.
  intros Rm Rk Hm Hk.
  apply (looks_bind (R1 := no_rest)); auto.
Qed.

Lemma consumes_bind_l {A B} (m : M A) (k : A -> M B) :
  respects m -> (forall a, respects (k a)) ->
  consumes true m -> (forall a, consumes false (k a)) ->
  consumes true (bind m k).
Proof. apply (consumes_bind (s1 := true) (s2 := false)). Qed.

Lemma consumes_bind_r {A B} (m : M A) (k : A -> M B) :
  respects m -> (forall a, respects (k a)) ->
  consumes false m -> (forall a, consumes true (k a)) ->
  consumes true (bind m k).
Proof. apply (consumes_bind (s1 := false) (s2 := true)). Qed.

Lemma consumes_bind_0 {A B} (m : M A) (k : A -> M B) :
  respects m -> (forall a, respects (k a)) ->
  consumes false m -> (forall a, consumes false (k a)) ->
  consumes false (bind m k).
Proof. apply (consumes_bind (s1 := false) (s2 := false)). Qed.

Lemma consumes_weak {A} (m : M A) : consumes true m -> consumes false m.
Proof.
  intro H. apply consumes_of_looks with (R := no_rest) (s := true);
    [exact H|discriminate].
Qed.

Lemma consumes_ret {A} (a : A) : consumes false (ret a).
Proof. apply looks_ret. Qed.

Lemma consumes_raise {A} s (e : exception) : consumes s (@raise A e).
Proof. apply looks_raise. Qed.

Lemma consumes_out_of_fuel {A} s : consumes s (@out_of_fuel A).
Proof. apply looks_out_of_fuel. Qed.

Lemma consumes_coming_up (n : Z) : (1 <= n)%Z -> consumes false (coming_up n).
Proof.
  intros Hn v a v' E. rewrite run_coming_up in E by assumption.
  inversion E; subst. exists []. split; [reflexivity|].
  split; [discriminate|]. intros w [].
Qed.

Lemma consumes_coming_up_1 : consumes false (coming_up 1).
Proof. apply consumes_coming_up. lia. Qed.

Lemma consumes_coming_up_2 : consumes false (coming_up 2).
Proof. apply consumes_coming_up. lia. Qed.

Lemma consumes_pop : consumes true pop.
Proof.
  apply consumes_of_looks with (R := any_rest) (s := true);
    [apply looks_pop|auto].
Qed.

Lemma consumes_check_and_pop k v : consumes true (check_and_pop k v).
Proof.
  apply consumes_of_looks with (R := any_rest) (s := true);
    [apply looks_check_and_pop|auto].
Qed.

Lemma consumes_parse_name b : consumes true (parse_name b).
Proof.
  apply consumes_of_looks with (R := any_rest) (s := true);
    [apply looks_parse_name|auto].
Qed.

Lemma consumes_parse_string : consumes true parse_string.
Proof.
  apply consumes_of_looks with (R := any_rest) (s := true);
    [apply looks_parse_string|auto].
Qed.

Lemma consumes_parse_integer : consumes true parse_integer.
Proof.
  apply consumes_of_looks with (R := any_rest) (s := true);
    [apply looks_parse_integer|auto].
Qed.

Lemma consumes__type_and_name : consumes true _type_and_name.
Proof.
  apply consumes_of_looks with (R := any_rest) (s := true);
    [apply looks__type_and_name|auto].
Qed.

Lemma consumes_parse_expression fuel : consumes true (parse_expression fuel).
Proof.
  apply consumes_of_looks with (R := expression_rest) (s := true);
    [apply looks_parse_expression|auto].
Qed.

Lemma consumes__parse_comma_list_type_and_name fuel :
  consumes true (_parse_comma_list ")" _type_and_name fuel).
Proof.
  apply consumes_of_looks with (R := any_rest) (s := true); [|auto].
  apply looks__parse_comma_list; [respects_tac|].
  apply looks_weaken with (R := any_rest) (s := true);
    [apply looks__type_and_name|intros; exact I|discriminate].
Qed.

Create HintDb consumes.

#[local] Hint Resolve consumes_ret consumes_raise consumes_out_of_fuel
  consumes_coming_up_1 consumes_coming_up_2 consumes_pop
  consumes_check_and_pop consumes_parse_name consumes_parse_string
  consumes_parse_integer consumes__type_and_name
  consumes_parse_expression consumes__parse_comma_list_type_and_name
  : consumes.

(** Goals [consumes s m] for [m] put together with [bind]. *)
Ltac consumes_tac :=
  lazymatch goal with
  | |- forall _, _ => intro; consumes_tac
  | |- consumes true (bind _ _) =>
      first
        [ apply consumes_bind_l;
            [respects_tac|respects_tac|solve [consumes_tac]
            |solve [consumes_tac]]
        | apply consumes_bind_r;
            [respects_tac|respects_tac|solve [consumes_tac]
            |solve [consumes_tac]] ]
  | |- consumes false (bind _ _) =>
      apply consumes_bind_0;
        [respects_tac|respects_tac|solve [consumes_tac]|solve [consumes_tac]]
  | |- consumes _ (if ?b then _ else _) => destruct b; consumes_tac
  | |- consumes _ (match ?x with _ => _ end) => destruct x; consumes_tac
  | |- consumes false _ =>
      first [ solve [auto with consumes respects]
            | apply consumes_weak; solve [auto with consumes respects] ]
  | |- consumes true _ => solve [auto with consumes respects]
  end.

Lemma consumes_parse_expression_statement fuel :
  consumes true (parse_expression_statement fuel).
Proof. unfold parse_expression_statement. consumes_tac. Qed.

Lemma consumes_assignment fuel : consumes true (assignment fuel).
Proof. unfold assignment. consumes_tac. Qed.

Lemma consumes_parse_declaration fuel :
  consumes true (parse_declaration fuel).
Proof. unfold parse_declaration. consumes_tac. Qed.

Lemma consumes_parse_return fuel : consumes true (parse_return fuel).
Proof. unfold parse_return. consumes_tac. Qed.

#[local] Hint Resolve consumes_parse_expression_statement
  consumes_assignment consumes_parse_declaration consumes_parse_return
  : consumes.

Lemma consumes_body_loop (parse_statement : M Node) :
  respects parse_statement -> consumes false parse_statement ->
  forall fuel body, consumes false (body_loop parse_statement fuel body).
Proof.
  intros Rp Hp fuel.
  induction fuel as [|fuel IH]; intro body; cbn [body_loop]; consumes_tac.
Qed.

#[local] Hint Resolve consumes_body_loop : consumes.

Lemma consumes_parse_if (parse_statement : M Node) fuel :
  respects parse_statement -> consumes false parse_statement ->
  consumes true (parse_if parse_statement fuel).
Proof. intros Rp Hp. unfold parse_if. consumes_tac. Qed.

Lemma consumes_parse_function_def (parse_statement : M Node) fuel :
  respects parse_statement -> consumes false parse_statement ->
  consumes true (parse_function_def parse_statement fuel).
Proof. intros Rp Hp. unfold parse_function_def. consumes_tac. Qed.

#[local] Hint Resolve consumes_parse_if consumes_parse_function_def
  : consumes.

Lemma consumes_parse_statement fuel : consumes true (parse_statement fuel).
Proof.
  induction fuel as [|fuel IH]; cbn [parse_statement];
    [apply consumes_out_of_fuel|].
  assert (consumes false (parse_statement fuel))
    by now apply consumes_weak.
  consumes_tac.
Qed.

(** ** Fuel *)

Lemma fuel_free_bind {A B} (m : M A) (k : A -> M B) :
  respects m -> (forall a, respects (k a)) ->
  fuel_free m -> (forall a, fuel_free (k a)) -> fuel_free (bind m k).
Proof.
  intros Rm Rk Hm Hk v. rewrite run_bind by assumption.
  specialize (Hm v). destruct (run m v) as [[a|e|] v1]; cbn [then_run fst] in *;
    [apply Hk|discriminate|congruence].
Qed.

Lemma fuel_free_ret {A} (a : A) : fuel_free (ret a).
Proof. intro v. rewrite run_ret. discriminate. Qed.

Lemma fuel_free_raise {A} (e : exception) : fuel_free (@raise A e).
Proof. intro v. rewrite run_raise. discriminate. Qed.

Lemma fuel_free_coming_up_1 : fuel_free (coming_up 1).
Proof. intro v. rewrite run_coming_up_1. now destruct v. Qed.

Lemma fuel_free_coming_up_2 : fuel_free (coming_up 2).
Proof. intro v. rewrite run_coming_up_2. now destruct v as [|? [|? ?]]. Qed.

Lemma fuel_free_pop : fuel_free pop.
Proof. intro v. rewrite run_pop. now destruct v. Qed.

Lemma fuel_free_check_and_pop k x : fuel_free (check_and_pop k x).
Proof.
  intro v. rewrite run_check_and_pop. destruct v as [|t v]; [discriminate|].
  destruct (negb (kind t =? k)); [discriminate|].
  destruct x as [x|]; [destruct (negb (value t =? x))|]; discriminate.
Qed.

Create HintDb fuel_free.

#[local] Hint Resolve fuel_free_ret fuel_free_raise fuel_free_coming_up_1
  fuel_free_coming_up_2 fuel_free_pop fuel_free_check_and_pop : fuel_free.

Ltac fuel_free_tac :=
  repeat first
    [ match goal with
      | |- forall _, _ => intro
      | |- fuel_free (bind _ _) =>
          apply fuel_free_bind; [respects_tac|respects_tac| |]
      | |- fuel_free (if ?b then _ else _) => destruct b
      | |- fuel_free (match ?x with _ => _ end) => destruct x
      end
    | progress auto with fuel_free ].

Lemma fuel_free_parse_name b : fuel_free (parse_name b).
Proof. unfold parse_name. fuel_free_tac. Qed.

Lemma fuel_free_parse_string : fuel_free parse_string.
Proof. unfold parse_string. fuel_free_tac. Qed.

Lemma fuel_free_parse_integer : fuel_free parse_integer.
Proof. unfold parse_integer. fuel_free_tac. Qed.

#[local] Hint Resolve fuel_free_parse_name fuel_free_parse_string
  fuel_free_parse_integer : fuel_free.

Lemma fuel_free__type_and_name : fuel_free _type_and_name.
Proof. unfold _type_and_name. fuel_free_tac. Qed.

#[local] Hint Resolve fuel_free__type_and_name : fuel_free.

Lemma agree_same {A} N (m : M A) : fuel_free m -> agree N m m.
Proof. intros H v _. split; [reflexivity|apply H]. Qed.

Lemma agree_mono {A} N N' (m1 m2 : M A) :
  agree N m1 m2 -> N' <= N -> agree N' m1 m2.
Proof. intros H Hle v Hv. apply H. lia. Qed.

Lemma agree_bind {A B} N (m1 m2 : M A) (k1 k2 : A -> M B) :
  respects m1 -> respects m2 ->
  (forall a, respects (k1 a)) -> (forall a, respects (k2 a)) ->
  agree N m1 m2 -> consumes false m1 ->
  (forall a, agree N (k1 a) (k2 a)) ->
  agree N (bind m1 k1) (bind m2 k2).
Proof.
  intros R1 R2 Rk1 Rk2 Hm Hc Hk v Hv.
  rewrite !run_bind by assumption.
  destruct (Hm v Hv) as [E Hf]. rewrite <- E.
  destruct (run m1 v) as [[a|e|] v1] eqn:Em; cbn [then_run fst] in *;
    [|split; [reflexivity|discriminate]|congruence].
  apply Hk. destruct (consumes_length Hc Em). lia.
Qed.

Lemma agree_bind_strict {A B} N (m1 m2 : M A) (k1 k2 : A -> M B) :
  respects m1 -> respects m2 ->
  (forall a, respects (k1 a)) -> (forall a, respects (k2 a)) ->
  agree N m1 m2 -> consumes true m1 ->
  (forall N', N' < N -> forall a, agree N' (k1 a) (k2 a)) ->
  agree N (bind m1 k1) (bind m2 k2).
Proof.
  intros R1 R2 Rk1 Rk2 Hm Hc Hk v Hv.
  rewrite !run_bind by assumption.
  destruct (Hm v Hv) as [E Hf]. rewrite <- E.
  destruct (run m1 v) as [[a|e|] v1] eqn:Em; cbn [then_run fst] in *;
    [|split; [reflexivity|discriminate]|congruence].
  destruct (consumes_length Hc Em) as [_ Hlt].
  apply (Hk (length v1)); [specialize (Hlt eq_refl); lia|lia].
Qed.

(** Goals [agree N m1 m2] for [m1] and [m2] of the same shape; the parts
    that need a lemma about a loop are left to the caller. *)
Ltac agree_leaf :=
  first
    [ apply agree_same; solve [fuel_free_tac]
    | eapply agree_mono; [eassumption|lia] ].

Ltac agree_tac :=
  lazymatch goal with
  | |- forall _, _ => intro; agree_tac
  | |- agree _ (bind _ _) (bind _ _) =>
      first
        [ apply agree_bind_strict;
            [respects_tac|respects_tac|respects_tac|respects_tac
            |try agree_leaf|solve [consumes_tac]|intros ? ? ?; agree_tac]
        | apply agree_bind;
            [respects_tac|respects_tac|respects_tac|respects_tac
            |try agree_leaf|solve [consumes_tac]|intro; agree_tac] ]
  | |- agree _ (if ?b then _ else _) (if ?b then _ else _) =>
      destruct b; agree_tac
  | |- agree _ (match ?x with _ => _ end) (match ?x with _ => _ end) =>
      destruct x; agree_tac
  | |- _ => try agree_leaf
  end.

Lemma consumes__parse_comma_list_loop {A} stop (parsemethod : M A) :
  respects parsemethod -> consumes false parsemethod ->
  forall fuel elements,
    consumes true (_parse_comma_list_loop stop parsemethod fuel elements).
Proof.
  intros Rp Hp fuel.
  induction fuel as [|fuel IH]; intro elements;
    cbn [_parse_comma_list_loop]; consumes_tac.
Qed.

#[local] Hint Resolve consumes__parse_comma_list_loop : consumes.

Lemma consumes__parse_comma_list {A} stop (parsemethod : M A) fuel :
  respects parsemethod -> consumes false parsemethod ->
  consumes true (_parse_comma_list stop parsemethod fuel).
Proof. intros Rp Hp. unfold _parse_comma_list. consumes_tac. Qed.

#[local] Hint Resolve consumes__parse_comma_list : consumes.

Lemma agree__parse_comma_list_loop {A} stop (N : nat) :
  forall (pm1 pm2 : M A) k1 k2 elements,
    respects pm1 -> respects pm2 ->
    agree N pm1 pm2 -> consumes false pm1 ->
    N < k1 -> N < k2 ->
    agree N (_parse_comma_list_loop stop pm1 k1 elements)
            (_parse_comma_list_loop stop pm2 k2 elements).
Proof.
  induction N as [N IH] using lt_wf_ind.
  intros pm1 pm2 [|k1] [|k2] elements R1 R2 Ha Hc H1 H2; try lia.
  cbn [_parse_comma_list_loop]. agree_tac.
  apply IH; auto; try lia. eapply agree_mono; [eassumption|lia].
Qed.

Lemma agree__parse_comma_list {A} stop (N : nat) (pm1 pm2 : M A) k1 k2 :
  respects pm1 -> respects pm2 ->
  agree N pm1 pm2 -> consumes false pm1 ->
  N < k1 -> N < k2 ->
  agree N (_parse_comma_list stop pm1 k1) (_parse_comma_list stop pm2 k2).
Proof.
  intros R1 R2 Ha Hc H1 H2. unfold _parse_comma_list. agree_tac.
  now apply agree__parse_comma_list_loop.
Qed.

Lemma agree_parse_expression_loop (N : nat) :
  forall (h1 h2 : M Node) k1 k2 result,
    respects h1 -> respects h2 ->
    agree N h1 h2 -> consumes false h1 ->
    N < k1 -> N < k2 ->
    agree N (parse_expression_loop h1 k1 result)
            (parse_expression_loop h2 k2 result).
Proof.
  induction N as [N IH] using lt_wf_ind.
  intros h1 h2 [|k1] [|k2] result R1 R2 Ha Hc H1 H2; try lia.
  cbn [parse_expression_loop]. agree_tac.
  - apply agree__parse_comma_list; auto; try lia.
    eapply agree_mono; [eassumption|lia].
  - apply IH; auto; try lia. eapply agree_mono; [eassumption|lia].
Qed.

Lemma agree_parse_expression (N : nat) :
  forall f1 f2, N < f1 -> N < f2 ->
                agree N (parse_expression f1) (parse_expression f2).
Proof.
  induction N as [N IH] using lt_wf_ind.
  intros [|f1] [|f2] H1 H2; try lia.
  cbn [parse_expression]. agree_tac.
  apply agree_parse_expression_loop; auto with respects; try lia.
  - apply IH; lia.
  - apply consumes_weak, consumes_parse_expression.
Qed.

Lemma agree_parse_expression_statement (N : nat) f1 f2 :
  N < f1 -> N < f2 ->
  agree N (parse_expression_statement f1) (parse_expression_statement f2).
Proof.
  intros H1 H2. unfold parse_expression_statement. agree_tac.
  now apply agree_parse_expression.
Qed.

Lemma agree_assignment (N : nat) f1 f2 :
  N < f1 -> N < f2 -> agree N (assignment f1) (assignment f2).
Proof.
  intros H1 H2. unfold assignment. agree_tac.
  apply agree_parse_expression; lia.
Qed.

Lemma agree_parse_declaration (N : nat) f1 f2 :
  N < f1 -> N < f2 ->
  agree N (parse_declaration f1) (parse_declaration f2).
Proof.
  intros H1 H2. unfold parse_declaration. agree_tac.
  apply agree_parse_expression; lia.
Qed.

Lemma agree_parse_return (N : nat) f1 f2 :
  N < f1 -> N < f2 -> agree N (parse_return f1) (parse_return f2).
Proof.
  intros H1 H2. unfold parse_return. agree_tac.
  apply agree_parse_expression; lia.
Qed.

Lemma agree_body_loop (N : nat) :
  forall (h1 h2 : M Node) k1 k2 body,
    respects h1 -> respects h2 ->
    agree N h1 h2 -> consumes true h1 ->
    N < k1 -> N < k2 ->
    agree N (body_loop h1 k1 body) (body_loop h2 k2 body).
Proof.
  induction N as [N IH] using lt_wf_ind.
  intros h1 h2 [|k1] [|k2] body R1 R2 Ha Hc H1 H2; try lia.
  cbn [body_loop]. agree_tac.
  apply IH; auto; try lia. eapply agree_mono; [eassumption|lia].
Qed.

Lemma agree_parse_if (N : nat) (h1 h2 : M Node) f1 f2 :
  respects h1 -> respects h2 ->
  (forall N', N' < N -> agree N' h1 h2) -> consumes true h1 ->
  N < f1 -> N < f2 ->
  agree N (parse_if h1 f1) (parse_if h2 f2).
Proof.
  intros R1 R2 Ha Hc H1 H2.
  assert (consumes false h1) by now apply consumes_weak.
  unfold parse_if. agree_tac.
  - apply agree_parse_expression; lia.
  - apply agree_body_loop; auto; try lia. apply Ha; lia.
Qed.

Lemma agree_parse_function_def (N : nat) (h1 h2 : M Node) f1 f2 :
  respects h1 -> respects h2 ->
  (forall N', N' < N -> agree N' h1 h2) -> consumes true h1 ->
  N < f1 -> N < f2 ->
  agree N (parse_function_def h1 f1) (parse_function_def h2 f2).
Proof.
  intros R1 R2 Ha Hc H1 H2.
  assert (consumes false h1) by now apply consumes_weak.
  unfold parse_function_def. agree_tac.
  - apply agree__parse_comma_list; auto with respects; try lia.
    + apply agree_same; fuel_free_tac.
    + apply consumes_weak, consumes__type_and_name.
  - apply agree_body_loop; auto; try lia. apply Ha; lia.
Qed.

Lemma agree_parse_statement (N : nat) :
  forall f1 f2, N < f1 -> N < f2 ->
                agree N (parse_statement f1) (parse_statement f2).
Proof.
  induction N as [N IH] using lt_wf_ind.
  intros [|f1] [|f2] H1 H2; try lia.
  cbn [parse_statement]. agree_tac;
    try (apply agree_parse_return; lia);
    try (apply agree_assignment; lia);
    try (apply agree_parse_declaration; lia);
    try (apply agree_parse_expression_statement; lia).
  - apply agree_parse_if; auto with respects; try lia.
    + intros N' HN'. apply IH; lia.
    + apply consumes_parse_statement.
  - apply agree_parse_function_def; auto with respects; try lia.
    + intros N' HN'. apply IH; lia.
    + apply consumes_parse_statement.
Qed.

(** With more fuel than there are pending tokens the parser does not run
    out of fuel, and any two such amounts give the same result. *)
Lemma parse_expression_fuel (v : list Token) (f1 f2 : nat) :
  length v < f1 -> length v < f2 ->
  run (parse_expression f1) v = run (parse_expression f2) v
  /\ fst (run (parse_expression f1) v) <> OutOfFuel.
Proof.
  intros H1 H2. now apply (@agree_parse_expression (length v) f1 f2).
Qed.

Lemma parse_statement_fuel (v : list Token) (f1 f2 : nat) :
  length v < f1 -> length v < f2 ->
  run (parse_statement f1) v = run (parse_statement f2) v
  /\ fst (run (parse_statement f1) v) <> OutOfFuel.
Proof.
  intros H1 H2. now apply (@agree_parse_statement (length v) f1 f2).
Qed.

(** ** The exceptions the parser raises *)

Lemma raises_only_bind {A B} P (m : M A) (k : A -> M B) :
  respects m -> (forall a, respects (k a)) ->
  raises_only P m -> (forall a, raises_only P (k a)) ->
  raises_only P (bind m k).
Proof.
  intros Rm Rk Hm Hk v e v' E. rewrite run_bind in E by assumption.
  destruct (run m v) as [[a|e0|] v1] eqn:Em; cbn [then_run] in E.
  - now apply (Hk a v1 e v').
  - inversion E; subst. now apply (Hm v e v').
  - discriminate.
Qed.

Lemma raises_only_ret {A} P (a : A) : raises_only P (ret a).
Proof. intros v e v' E. rewrite run_ret in E. discriminate. Qed.

Lemma raises_only_raise {A} (P : exception -> Prop) (e : exception) :
  P e -> raises_only P (@raise A e).
Proof.
  intros He v e' v' E. rewrite run_raise in E. now inversion E; subst.
Qed.

Lemma raises_only_out_of_fuel {A} P : raises_only P (@out_of_fuel A).
Proof. intros v e v' E. rewrite run_out_of_fuel in E. discriminate. Qed.

Lemma raises_coming_up_1 : raises_only parser_exception (coming_up 1).
Proof.
  intros v e v' E. rewrite run_coming_up_1 in E.
  destruct v; inversion E; exact I.
Qed.

Lemma raises_coming_up_2 : raises_only parser_exception (coming_up 2).
Proof.
  intros v e v' E. rewrite run_coming_up_2 in E.
  destruct v as [|? [|? ?]]; inversion E; exact I.
Qed.

Lemma raises_check_and_pop k x :
  raises_only parser_exception (check_and_pop k x).
Proof.
  intros v e v' E. rewrite run_check_and_pop in E.
  destruct v as [|t v]; [inversion E; exact I|].
  destruct (negb (kind t =? k)); [inversion E; exact I|].
  destruct x as [x|]; [destruct (negb (value t =? x))|];
    inversion E; exact I.
Qed.

Lemma raises_parse_name b : raises_only parser_exception (parse_name b).
Proof.
  intros v e v' E. rewrite run_parse_name in E.
  destruct v as [|t v]; [inversion E; exact I|].
  destruct (negb (kind t =? "NAME")); [inversion E; exact I|].
  destruct (b && in_KEYWORDS (value t)) eqn:Eb; inversion E; subst.
  cbn [parser_exception]. now apply andb_true_iff in Eb.
Qed.

Lemma raises_parse_string : raises_only parser_exception parse_string.
Proof.
  intros v e v' E. rewrite run_parse_string in E.
  destruct v as [|t v]; [inversion E; exact I|].
  destruct (negb (kind t =? "STRING")); inversion E; exact I.
Qed.

Lemma raises_parse_integer : raises_only parser_exception parse_integer.
Proof.
  intros v e v' E. rewrite run_parse_integer in E.
  destruct v as [|t v]; [inversion E; exact I|].
  destruct (negb (kind t =? "INTEGER")); [inversion E; exact I|].
  destruct (int (value t)); inversion E; exact I.
Qed.

Create HintDb raises.

#[local] Hint Resolve raises_only_ret raises_only_out_of_fuel
  raises_coming_up_1 raises_coming_up_2 raises_check_and_pop
  raises_parse_name raises_parse_string raises_parse_integer : raises.

Ltac raises_tac :=
  repeat first
    [ match goal with
      | |- forall _, _ => intro
      | |- raises_only _ (bind _ _) =>
          apply raises_only_bind; [respects_tac|respects_tac| |]
      | |- raises_only _ (raise _) => apply raises_only_raise; exact I
      | |- raises_only _ (if ?b then _ else _) => destruct b
      | |- raises_only _ (match ?x with _ => _ end) => destruct x
      end
    | progress auto with raises respects ].

Lemma raises__type_and_name : raises_only parser_exception _type_and_name.
Proof. unfold _type_and_name. raises_tac. Qed.

#[local] Hint Resolve raises__type_and_name : raises.

Lemma raises__parse_comma_list_loop {A} stop (parsemethod : M A) :
  respects parsemethod -> raises_only parser_exception parsemethod ->
  forall fuel elements,
    raises_only parser_exception
      (_parse_comma_list_loop stop parsemethod fuel elements).
Proof.
  intros Rp Hp fuel.
  induction fuel as [|fuel IH]; intros elements v e v' E;
    [discriminate|].
  rewrite run__parse_comma_list_loop_S in E by assumption.
  destruct (run parsemethod v) as [[element|e0|] v1] eqn:Em;
    cbn [then_run] in E; try discriminate.
  - destruct v1 as [|t v2]; [inversion E; exact I|].
    destruct (info_eqb (info t) ("OP", stop)); [discriminate|].
    destruct (negb (kind t =? "OP") || negb (value t =? ","));
      [inversion E; exact I|].
    destruct v2 as [|t' v3]; [inversion E; exact I|].
    destruct (info_eqb (info t') ("OP", stop)); [discriminate|].
    eapply IH; eassumption.
  - inversion E; subst. eapply Hp; eassumption.
Qed.

Lemma raises__parse_comma_list {A} stop (parsemethod : M A) fuel :
  respects parsemethod -> raises_only parser_exception parsemethod ->
  raises_only parser_exception (_parse_comma_list stop parsemethod fuel).
Proof.
  intros Rp Hp v e v' E. rewrite run__parse_comma_list in E by assumption.
  destruct v as [|t v1]; [inversion E; exact I|].
  destruct (info_eqb (info t) ("OP", stop)); [discriminate|].
  eapply raises__parse_comma_list_loop; eassumption.
Qed.

#[local] Hint Resolve raises__parse_comma_list : raises.

Lemma raises_parse_expression_loop (parse_expression : M Node) :
  respects parse_expression ->
  raises_only parser_exception parse_expression ->
  forall fuel result,
    raises_only parser_exception
      (parse_expression_loop parse_expression fuel result).
Proof.
  intros Rp Hp fuel.
  induction fuel as [|fuel IH]; intro result; cbn [parse_expression_loop];
    raises_tac.
Qed.

#[local] Hint Resolve raises_parse_expression_loop : raises.

Lemma raises_parse_expression fuel :
  raises_only parser_exception (parse_expression fuel).
Proof.
  induction fuel as [|fuel IH]; cbn [parse_expression]; raises_tac.
Qed.

#[local] Hint Resolve raises_parse_expression : raises.

Lemma raises_parse_expression_statement fuel :
  raises_only parser_exception (parse_expression_statement fuel).
Proof. unfold parse_expression_statement. raises_tac. Qed.

Lemma raises_assignment fuel :
  raises_only parser_exception (assignment fuel).
Proof. unfold assignment. raises_tac. Qed.

Lemma raises_parse_declaration fuel :
  raises_only parser_exception (parse_declaration fuel).
Proof. unfold parse_declaration. raises_tac. Qed.

Lemma raises_parse_return fuel :
  raises_only parser_exception (parse_return fuel).
Proof. unfold parse_return. raises_tac. Qed.

#[local] Hint Resolve raises_parse_expression_statement raises_assignment
  raises_parse_declaration raises_parse_return : raises.

Lemma raises_body_loop (parse_statement : M Node) :
  respects parse_statement ->
  raises_only parser_exception parse_statement ->
  forall fuel body,
    raises_only parser_exception (body_loop parse_statement fuel body).
Proof.
  intros Rp Hp fuel.
  induction fuel as [|fuel IH]; intro body; cbn [body_loop]; raises_tac.
Qed.

#[local] Hint Resolve raises_body_loop : raises.

Lemma raises_parse_if (parse_statement : M Node) fuel :
  respects parse_statement ->
  raises_only parser_exception parse_statement ->
  raises_only parser_exception (parse_if parse_statement fuel).
Proof. intros Rp Hp. unfold parse_if. raises_tac. Qed.

(** The [returns] clause: the [pop] comes after a peek that found a
    token. *)
Lemma raises_returns_clause {B} (k : option Node -> M B) :
  (forall r, respects (k r)) ->
  (forall r, raises_only parser_exception (k r)) ->
  raises_only parser_exception
    (bind (coming_up 1) (fun t =>
       bind (if info_eqb (info t) ("NAME", "returns")
             then bind pop (fun _ =>
                    bind (parse_name true) (fun r => ret (Some r)))
             else ret None) k)).
Proof.
  intros Rk Hk v e v' E.
  rewrite run_bind, run_coming_up_1 in E by respects_tac.
  destruct v as [|t v1]; cbn [then_run] in E; [inversion E; exact I|].
  rewrite run_bind in E by respects_tac.
  destruct (info_eqb (info t) ("NAME", "returns")).
  - rewrite run_bind, run_pop in E by respects_tac. cbn [then_run] in E.
    rewrite run_bind in E by respects_tac.
    destruct (run (parse_name true) v1) as [[r|e0|] v2] eqn:En;
      cbn [then_run] in E; try discriminate.
    + rewrite run_ret in E. cbn [then_run] in E. eapply Hk; eassumption.
    + inversion E; subst. eapply raises_parse_name; eassumption.
  - rewrite run_ret in E. cbn [then_run] in E. eapply Hk; eassumption.
Qed.

Lemma raises_parse_function_def (parse_statement : M Node) fuel :
  respects parse_statement ->
  raises_only parser_exception parse_statement ->
  raises_only parser_exception (parse_function_def parse_statement fuel).
Proof.
  intros Rp Hp. unfold parse_function_def.
  apply raises_only_bind; [respects_tac|respects_tac|raises_tac|].
  intro function_keyword.
  apply raises_only_bind; [respects_tac|respects_tac|raises_tac|].
  intro name.
  apply raises_only_bind; [respects_tac|respects_tac|raises_tac|].
  intros _.
  apply raises_only_bind; [respects_tac|respects_tac|raises_tac|].
  intros [arguments junk].
  apply raises_returns_clause; [respects_tac|raises_tac].
Qed.

#[local] Hint Resolve raises_parse_if raises_parse_function_def : raises.

Lemma raises_parse_statement fuel :
  raises_only parser_exception (parse_statement fuel).
Proof.
  induction fuel as [|fuel IH]; cbn [parse_statement]; raises_tac.
Qed.

(** ** Enough fuel *)

Lemma statement_on_fuel (v : list Token) (fuel : nat) :
  length v < fuel -> run (parse_statement fuel) v = statement_on v.
Proof.
  intro H. unfold statement_on. apply parse_statement_fuel; lia.
Qed.

Lemma expression_on_fuel (v : list Token) (fuel : nat) :
  length v < fuel -> run (parse_expression fuel) v = expression_on v.
Proof.
  intro H. unfold expression_on. apply parse_expression_fuel; lia.
Qed.

Lemma info_eqb_eq (a b : string * string) : info_eqb a b = true <-> a = b.
Proof.
  destruct a as [a1 a2], b as [b1 b2]. unfold info_eqb. cbn [fst snd].
  rewrite andb_true_iff, !String.eqb_eq. split.
  - now intros [-> ->].
  - intro H. now inversion H.
Qed.

Lemma in_KEYWORDS_false (x : string) :
  in_KEYWORDS x = false -> (x =? "return") = false /\ (x =? "if") = false.
Proof.
  unfold in_KEYWORDS. cbn [existsb KEYWORDS]. intro H.
  apply orb_false_iff in H as [H1 H2].
  apply orb_false_iff in H2 as [H2 _]. now split.
Qed.

Lemma in_KEYWORDS_not_function (x : string) :
  in_KEYWORDS x = true -> (x =? "function") = false.
Proof.
  unfold in_KEYWORDS. cbn [existsb KEYWORDS]. intro H.
  apply orb_true_iff in H as [H|H].
  - apply String.eqb_eq in H. now subst.
  - apply orb_true_iff in H as [H|H]; [|discriminate].
    apply String.eqb_eq in H. now subst.
Qed.

(** Rewriting [run] as far as the pending tokens are known. *)
Ltac run_simpl := repeat (run_step; cbn [then_run]).

Lemma parse_statement_S fuel :
  parse_statement (S fuel) =
  bind (coming_up 1) (fun t1 =>
    if kind t1 =? "NAME" then
      bind (coming_up 1) (fun t2 =>
        if value t2 =? "return" then parse_return (S fuel) else
        bind (coming_up 1) (fun t3 =>
          if value t3 =? "if"
          then parse_if (parse_statement fuel) (S fuel) else
          bind (coming_up 1) (fun t4 =>
            if value t4 =? "function"
            then parse_function_def (parse_statement fuel) (S fuel) else
            bind (coming_up 2) (fun after_name =>
              if info_eqb (info after_name) ("OP", "=")
              then assignment (S fuel) else
              if kind after_name =? "NAME"
              then parse_declaration (S fuel)
              else parse_expression_statement (S fuel)))))
    else parse_expression_statement (S fuel)).
Proof. reflexivity. Qed.

(** Running the parser on tokens that are known, one call at a time. *)
Ltac run_eval_step :=
  first
    [ rewrite run_bind by respects_tac
    | rewrite run_ret
    | rewrite run_raise
    | rewrite run_coming_up_1
    | rewrite run_coming_up_2
    | rewrite run_pop
    | rewrite run_check_and_pop
    | rewrite run_parse_name
    | rewrite run_parse_string
    | rewrite run_parse_integer
    | rewrite run__type_and_name
    | rewrite run__parse_comma_list by respects_tac
    | rewrite run__parse_comma_list_loop_S by respects_tac
    | rewrite run_parse_expression_loop_S by respects_tac
    | rewrite run_parse_expression_S
    | rewrite parse_statement_S
    | progress unfold parse_return, parse_declaration, assignment,
        parse_expression_statement, parse_if, parse_function_def ];
  cbn [then_run kind value start end_ info info_eqb fst snd app
       String.eqb Ascii.eqb Bool.eqb negb andb orb
       in_KEYWORDS existsb KEYWORDS Node_start Node_end Node_name].

Ltac run_eval := repeat run_eval_step.

(** ** What the cursor operations do to the pending tokens *)

Lemma coming_up_fetches (n : Z) (c : _HandyDandyTokenIterator) :
  exists fetched,
    _coming_up_stack (snd (coming_up n c)) = _coming_up_stack c ++ fetched
    /\ _iterator c = fetched ++ _iterator (snd (coming_up n c)).
Proof.
  unfold coming_up, bind.
  destruct (coming_up_loop_spec
              (Z.to_nat (n - Z.of_nat (length (_coming_up_stack c)))) n c)
    as (c' & E & _ & _ & f & F1 & F2); [lia|].
  rewrite E. exists f.
  destruct (n <=? Z.of_nat (remaining c))%Z; simpl; auto.
  destruct (deque_getitem (_coming_up_stack c') (- n)); simpl; auto.
Qed.

Lemma view_coming_up (n : Z) (c : _HandyDandyTokenIterator) :
  view (snd (coming_up n c)) = view c.
Proof.
  destruct (coming_up_fetches n c) as (f & F1 & F2).
  unfold view. rewrite F1, F2. now rewrite app_assoc.
Qed.

Lemma do_op_view (o : cursor_op) (c : _HandyDandyTokenIterator) :
  view c = fst (do_op o c) ++ view (snd (do_op o c)).
Proof.
  destruct o as [|n| |k v]; simpl.
  - pose proof (observe_pop c) as H. unfold observe in H.
    destruct (pop c) as [[t| |] c']; simpl in *;
      destruct (view c); inversion H; subst; auto.
  - now rewrite view_coming_up.
  - pose proof (observe_something_coming_up c) as H. unfold observe in H.
    now inversion H.
  - pose proof (respects_check_and_pop k v c) as H.
    rewrite run_check_and_pop in H. unfold observe in H.
    destruct (check_and_pop k v c) as [[t| |] c']; simpl in *;
      destruct (view c) as [|t0 v0]; try (inversion H; subst; auto; fail).
    + destruct (negb (kind t0 =? k)); [inversion H|].
      destruct v as [x|]; [destruct (negb (value t0 =? x))|];
        inversion H; subst; auto.
    + destruct (negb (kind t0 =? k)); [now inversion H|].
      destruct v as [x|]; [destruct (negb (value t0 =? x))|];
        inversion H; subst; auto.
    + destruct (negb (kind t0 =? k)); [now inversion H|].
      destruct v as [x|]; [destruct (negb (value t0 =? x))|];
        inversion H; subst; auto.
Qed.

Lemma do_ops_view (ops : list cursor_op) :
  forall c, view c = fst (do_ops ops c) ++ view (snd (do_ops ops c)).
Proof.
  induction ops as [|o ops IH]; intro c; simpl; [reflexivity|].
  pose proof (do_op_view o c) as H1.
  destruct (do_op o c) as [p1 c1]; simpl in *.
  pose proof (IH c1) as H2.
  destruct (do_ops ops c1) as [p2 c2]; simpl in *.
  now rewrite H1, H2, app_assoc.
Qed.

Lemma pops_firstn (k : nat) :
  forall c, k <= length (view c) ->
            pops k c = map (@Returned Token) (firstn k (view c)).
Proof.
  induction k as [|k IH]; intros c Hk; simpl; [reflexivity|].
  pose proof (observe_pop c) as H. unfold observe in H.
  destruct (pop c) as [r c']; simpl in *.
  destruct (view c) as [|t v]; simpl in *; [lia|].
  inversion H; subst. rewrite IH by lia. reflexivity.
Qed.

(** ** The generator only depends on the pending tokens *)

Lemma respects_same_view {A} (m : M A) c1 c2 :
  respects m -> view c1 = view c2 -> observe (m c1) = observe (m c2).
Proof. intros Hm Hv. now rewrite (Hm c1), (Hm c2), Hv. Qed.

Lemma generator_next_same_pending (g1 g2 : generator) :
  same_pending g1 g2 ->
  fst (generator_next g1) = fst (generator_next g2)
  /\ same_pending (snd (generator_next g1)) (snd (generator_next g2)).
Proof.
  intros [Hf Hv]. unfold generator_next. rewrite <- Hf.
  destruct (gi_finished g1) eqn:Ef; cbv beta iota.
  - split; [reflexivity|]. split; simpl; congruence.
  - pose proof (respects_same_view (gi_parser g1) (gi_parser g2)
                  respects_coming_up_1 Hv) as H.
    unfold observe in H.
    destruct (coming_up 1 (gi_parser g1)) as [r1 c1].
    destruct (coming_up 1 (gi_parser g2)) as [r2 c2].
    simpl in H. inversion H as [[Hr Hc]]. subst r2. clear H.
    destruct r1 as [t|e|]; cbv beta iota.
    + unfold remaining. rewrite <- Hc.
      generalize (S (length (view c1))). intro fuel.
      pose proof (respects_same_view c1 c2
                    (respects_parse_statement fuel) Hc) as H.
      unfold observe in H.
      destruct (parse_statement fuel c1) as [r1 c1'].
      destruct (parse_statement fuel c2) as [r2 c2'].
      simpl in H. inversion H as [[Hr' Hc']]. subst r2.
      destruct r1; simpl; (split; [reflexivity|split; simpl; auto]).
    + destruct e; simpl; (split; [reflexivity|split; simpl; auto]).
    + split; [reflexivity|split; simpl; auto].
Qed.

Lemma iterate_same_pending (fuel : nat) :
  forall g1 g2, same_pending g1 g2 -> iterate fuel g1 = iterate fuel g2.
Proof.
  induction fuel as [|fuel IH]; intros g1 g2 H; simpl; [reflexivity|].
  destruct (generator_next_same_pending H) as [Hr Hg].
  destruct (generator_next g1) as [r1 g1'].
  destruct (generator_next g2) as [r2 g2']. simpl in *. subst r2.
  destruct r1 as [[node|]|e|]; auto.
  now rewrite (IH g1' g2' Hg).
Qed.

(** ** The tokens a node spans *)

Lemma run_bind_inv {A B} (m : M A) (k : A -> M B) v b v' :
  respects m -> (forall a, respects (k a)) ->
  run (bind m k) v = (Returned b, v') ->
  exists a v1, run m v = (Returned a, v1) /\ run (k a) v1 = (Returned b, v').
Proof.
  intros Hm Hk E. rewrite run_bind in E by assumption.
  destruct (run m v) as [[a|e|] v1]; cbn [then_run] in E;
    try discriminate.
  now exists a, v1.
Qed.

Lemma run_ret_inv {A} (a b : A) v v' :
  run (ret a) v = (Returned b, v') -> b = a /\ v' = v.
Proof. rewrite run_ret. intro E. now inversion E. Qed.

Lemma check_and_pop_inv k x v t v' :
  run (check_and_pop k x) v = (Returned t, v') -> v = t :: v'.
Proof.
  rewrite run_check_and_pop. destruct v as [|t0 v0]; [discriminate|].
  destruct (negb (kind t0 =? k)); [discriminate|].
  destruct x as [x|];
    [destruct (negb (value t0 =? x)); [discriminate|]|];
    intro E; now inversion E.
Qed.

Lemma pop_inv v t v' : run pop v = (Returned t, v') -> v = t :: v'.
Proof.
  rewrite run_pop. destruct v as [|t0 v0]; [discriminate|].
  intro E. now inversion E.
Qed.

Lemma coming_up_1_inv v t v' :
  run (coming_up 1) v = (Returned t, v') -> v' = v.
Proof.
  rewrite run_coming_up_1. destruct v as [|t0 v0]; [discriminate|].
  intro E. now inversion E.
Qed.

Lemma coming_up_2_inv v t v' :
  run (coming_up 2) v = (Returned t, v') -> v' = v.
Proof.
  rewrite run_coming_up_2. destruct v as [|t0 [|t1 v0]]; try discriminate.
  intro E. now inversion E.
Qed.

Lemma starts_at_cons t tl : starts_at (t :: tl) (start t).
Proof. now exists t, tl. Qed.

Lemma ends_at_last front t : ends_at (front ++ [t]) (end_ t).
Proof. now exists front, t. Qed.

Lemma starts_at_app ys zs s : starts_at ys s -> starts_at (ys ++ zs) s.
Proof. intros (t & tl & -> & ->). now exists t, (tl ++ zs). Qed.

Lemma ends_at_app ys zs e : ends_at zs e -> ends_at (ys ++ zs) e.
Proof.
  intros (front & t & -> & ->). exists (ys ++ front), t.
  now rewrite app_assoc.
Qed.

Lemma ends_at_cons t zs e : ends_at zs e -> ends_at (t :: zs) e.
Proof. apply (ends_at_app [t]). Qed.

Lemma parse_name_inv b v n v' :
  run (parse_name b) v = (Returned n, v') ->
  exists t, v = t :: v' /\ Node_start n = start t /\ Node_end n = end_ t.
Proof.
  rewrite run_parse_name. destruct v as [|t v0]; [discriminate|].
  destruct (negb (kind t =? "NAME")); [discriminate|].
  destruct (b && in_KEYWORDS (value t)); [discriminate|].
  intro E. inversion E; subst. now exists t.
Qed.

Lemma parse_string_inv v n v' :
  run parse_string v = (Returned n, v') ->
  exists t, v = t :: v' /\ Node_start n = start t /\ Node_end n = end_ t.
Proof.
  rewrite run_parse_string. destruct v as [|t v0]; [discriminate|].
  destruct (negb (kind t =? "STRING")); [discriminate|].
  intro E. inversion E; subst. now exists t.
Qed.

Lemma parse_integer_inv v n v' :
  run parse_integer v = (Returned n, v') ->
  exists t, v = t :: v' /\ Node_start n = start t /\ Node_end n = end_ t.
Proof.
  rewrite run_parse_integer. destruct v as [|t v0]; [discriminate|].
  destruct (negb (kind t =? "INTEGER")); [discriminate|].
  destruct (int (value t)); [|discriminate].
  intro E. inversion E; subst. now exists t.
Qed.

Lemma _type_and_name_inv v typenode name v' :
  run _type_and_name v = (Returned (typenode, name), v') ->
  exists t1 t2, v = t1 :: t2 :: v' /\ Node_start typenode = start t1.
Proof.
  rewrite run__type_and_name.
  destruct (run (parse_name true) v) as [[n1|e|] v1] eqn:E1;
    cbn [then_run]; try discriminate.
  destruct (run (parse_name true) v1) as [[n2|e|] v2] eqn:E2;
    cbn [then_run]; try discriminate.
  intro E. inversion E; subst.
  apply parse_name_inv in E1. destruct E1 as (t1 & -> & S1 & _).
  apply parse_name_inv in E2. destruct E2 as (t2 & -> & _).
  now exists t1, t2.
Qed.

(** The last token a comma list consumes is the one it returns. *)
Lemma _parse_comma_list_loop_last {A} stop (parsemethod : M A) :
  respects parsemethod -> consumes false parsemethod ->
  forall fuel elements v r last v',
    run (_parse_comma_list_loop stop parsemethod fuel elements) v
    = (Returned (r, last), v') ->
    exists front, v = (front ++ [last]) ++ v'.
Proof.
  intros Rp Hp fuel.
  induction fuel as [|fuel IH]; intros elements v r last v' E.
  - cbn [_parse_comma_list_loop] in E. rewrite run_out_of_fuel in E.
    discriminate.
  - rewrite run__parse_comma_list_loop_S in E by assumption.
    destruct (run parsemethod v) as [[element|e|] v1] eqn:Ep;
      cbn [then_run] in E; try discriminate.
    destruct (Hp v element v1 Ep) as (ys & -> & _).
    destruct v1 as [|t v2]; [discriminate|].
    destruct (info_eqb (info t) ("OP", stop)).
    + inversion E; subst. exists ys. now rewrite <- app_assoc.
    + destruct (negb (kind t =? "OP") || negb (value t =? ","));
        [discriminate|].
      destruct v2 as [|t' v3]; [discriminate|].
      destruct (info_eqb (info t') ("OP", stop)).
      * inversion E; subst. exists (ys ++ [t]).
        now rewrite <- !app_assoc.
      * apply IH in E. destruct E as (front & E).
        exists (ys ++ t :: front). rewrite E.
        now rewrite <- !app_assoc.
Qed.

Lemma _parse_comma_list_last {A} stop (parsemethod : M A) fuel v r last
    v' :
  respects parsemethod -> consumes false parsemethod ->
  run (_parse_comma_list stop parsemethod fuel) v
  = (Returned (r, last), v') ->
  exists front, v = (front ++ [last]) ++ v'.
Proof.
  intros Rp Hp E. rewrite run__parse_comma_list in E by assumption.
  destruct v as [|t v1]; [discriminate|].
  destruct (info_eqb (info t) ("OP", stop)).
  - inversion E; subst. now exists [].
  - eapply _parse_comma_list_loop_last; eassumption.
Qed.

(** The call suffixes keep the start of the expression and move its end
    to the closing parenthesis of the last one. *)
Lemma parse_expression_loop_span (parse_expression : M Node) :
  respects parse_expression -> consumes false parse_expression ->
  forall fuel result v n v',
    run (parse_expression_loop parse_expression fuel result) v
    = (Returned n, v') ->
    Node_start n = Node_start result
    /\ exists ys,
         v = ys ++ v'
         /\ (ys = [] /\ Node_end n = Node_end result
             \/ ends_at ys (Node_end n)).
Proof.
  intros Rp Hp fuel.
  induction fuel as [|fuel IH]; intros result v n v' E.
  - cbn [parse_expression_loop] in E. rewrite run_out_of_fuel in E.
    discriminate.
  - rewrite run_parse_expression_loop_S in E by assumption.
    destruct v as [|t v1]; [discriminate|].
    destruct (negb (kind t =? "OP") || negb (value t =? "(")).
    + inversion E; subst. split; [reflexivity|].
      exists []. split; [reflexivity|now left].
    + destruct (run (_parse_comma_list ")" parse_expression fuel) v1)
        as [[[arguments last]|e|] v2] eqn:El; cbn [then_run] in E;
        try discriminate.
      apply _parse_comma_list_last in El; [|assumption|assumption].
      destruct El as (front & ->).
      apply IH in E. cbn [fst snd Node_start Node_end] in E.
      destruct E as (Es & ys & -> & Ee).
      split; [exact Es|].
      exists ((t :: front ++ [last]) ++ ys).
      split; [cbn [app]; now rewrite <- !app_assoc|].
      right. destruct Ee as [[-> Ee]|Ee].
      * rewrite app_nil_r, Ee. apply (ends_at_last (t :: front)).
      * now apply ends_at_app.
Qed.

Lemma spanning_parse_expression fuel : spanning (parse_expression fuel).
Proof.
  intros v n v' E. destruct fuel as [|fuel].
  - cbn [parse_expression] in E. rewrite run_out_of_fuel in E.
    discriminate.
  - rewrite run_parse_expression_S in E.
    destruct v as [|t v0]; [discriminate|].
    assert (Hprimary : forall m : M Node,
      (forall v n v', run m v = (Returned n, v') ->
         exists t, v = t :: v' /\ Node_start n = start t
                   /\ Node_end n = end_ t) ->
      then_run (run m (t :: v0))
        (fun result =>
           run (parse_expression_loop (parse_expression fuel) fuel result))
      = (Returned n, v') ->
      exists ys, t :: v0 = ys ++ v' /\ starts_at ys (Node_start n)
                 /\ ends_at ys (Node_end n)).
    { intros m Hm E'.
      destruct (run m (t :: v0)) as [[result|e|] v1] eqn:Em;
        cbn [then_run] in E'; try discriminate.
      apply Hm in Em. destruct Em as (t' & Ev & Hs & He).
      inversion Ev; subst t' v1.
      apply parse_expression_loop_span in E';
        [|apply respects_parse_expression
         |apply consumes_weak, consumes_parse_expression].
      destruct E' as (Es & ys & -> & Ee).
      exists (t :: ys). split; [reflexivity|].
      split; [rewrite Es, Hs; apply starts_at_cons|].
      destruct Ee as [[-> Ee]|Ee].
      - rewrite Ee, He. apply (ends_at_last []).
      - now apply ends_at_cons. }
    destruct (kind t =? "NAME");
      [exact (Hprimary _ (@parse_name_inv true) E)|].
    destruct (kind t =? "STRING");
      [exact (Hprimary _ (@parse_string_inv) E)|].
    destruct (kind t =? "INTEGER");
      [exact (Hprimary _ (@parse_integer_inv) E)|].
    discriminate.
Qed.

Lemma consumes_inv {A} (s : bool) (m : M A) v a v' :
  consumes s m -> run m v = (Returned a, v') -> exists ys, v = ys ++ v'.
Proof. intros H E. destruct (H v a v' E) as (ys & -> & _). now exists ys. Qed.

(** Equations between lists of tokens that differ in how [++] is
    nested. *)
Ltac list_eq :=
  repeat first [rewrite <- app_assoc | progress cbn [app]]; reflexivity.

(** A successful [bind], taken apart. *)
Tactic Notation "run_inv" hyp(E) "as" ident(a) ident(v1) ident(E1) :=
  apply run_bind_inv in E;
  [destruct E as (a & v1 & E1 & E)|respects_tac|respects_tac].

Lemma statement_span_ends ys n :
  declares_initial_value n = false ->
  starts_at ys (Node_start n) -> ends_at ys (Node_end n) ->
  statement_span ys n.
Proof. intros Hd Hs He. split; [exact Hs|]. now rewrite Hd. Qed.

Lemma span_parse_expression_statement fuel v n v' :
  run (parse_expression_statement fuel) v = (Returned n, v') ->
  exists ys, v = ys ++ v' /\ statement_span ys n.
Proof.
  unfold parse_expression_statement. intro E.
  run_inv E as value_ v1 E1. run_inv E as semicolon v2 E2.
  apply run_ret_inv in E. destruct E as [-> ->].
  apply spanning_parse_expression in E1.
  destruct E1 as (ys & -> & Hs & _).
  apply check_and_pop_inv in E2. subst v1.
  exists (ys ++ [semicolon]). split; [list_eq|].
  apply statement_span_ends; cbn [Node_start Node_end];
    [reflexivity|now apply starts_at_app|apply ends_at_last].
Qed.

Lemma span_assignment fuel v n v' :
  run (assignment fuel) v = (Returned n, v') ->
  exists ys, v = ys ++ v' /\ statement_span ys n.
Proof.
  unfold assignment. intro E.
  run_inv E as variable v1 E1. run_inv E as equals v2 E2.
  run_inv E as value_ v3 E3. run_inv E as semicolon v4 E4.
  apply run_ret_inv in E. destruct E as [-> ->].
  apply parse_name_inv in E1. destruct E1 as (t & -> & Hs & _).
  apply check_and_pop_inv in E2. subst v1.
  apply spanning_parse_expression in E3. destruct E3 as (ys & -> & _).
  apply check_and_pop_inv in E4. subst v3.
  exists ((t :: equals :: ys) ++ [semicolon]).
  split; [list_eq|].
  apply statement_span_ends; cbn [Node_start Node_end];
    [reflexivity|rewrite Hs; apply starts_at_cons|apply ends_at_last].
Qed.

Lemma span_parse_return fuel v n v' :
  run (parse_return fuel) v = (Returned n, v') ->
  exists ys, v = ys ++ v' /\ statement_span ys n.
Proof.
  unfold parse_return. intro E.
  run_inv E as the_return v1 E1. run_inv E as value_ v2 E2.
  run_inv E as semicolon v3 E3.
  apply run_ret_inv in E. destruct E as [-> ->].
  apply check_and_pop_inv in E1. subst v.
  apply spanning_parse_expression in E2. destruct E2 as (ys & -> & _).
  apply check_and_pop_inv in E3. subst v2.
  exists ((the_return :: ys) ++ [semicolon]).
  split; [list_eq|].
  apply statement_span_ends; cbn [Node_start Node_end];
    [reflexivity|apply starts_at_cons|apply ends_at_last].
Qed.

(** [parse_declaration]: without an initial value the third token is the
    semicolon, the last token consumed; with one, the node still ends at
    the third token, and the value and the semicolon follow. *)
Lemma span_parse_declaration fuel v n v' :
  run (parse_declaration fuel) v = (Returned n, v') ->
  exists ys, v = ys ++ v' /\ statement_span ys n.
Proof.
  unfold parse_declaration. intro E.
  run_inv E as tn v1 E1. destruct tn as [datatype variable_name].
  run_inv E as third_thing v2 E2.
  apply _type_and_name_inv in E1. destruct E1 as (t1 & t2 & -> & Hs).
  apply check_and_pop_inv in E2. subst v1.
  destruct (value third_thing =? ";").
  - cbv zeta in E. apply run_ret_inv in E. destruct E as [-> ->].
    exists [t1; t2; third_thing]. split; [reflexivity|].
    apply statement_span_ends; cbn [Node_start Node_end];
      [reflexivity|rewrite Hs; apply starts_at_cons
      |apply (ends_at_last [t1; t2])].
  - run_inv E as initial_value v3 E3. run_inv E as semicolon v4 E4.
    apply run_ret_inv in E. destruct E as [-> ->].
    apply spanning_parse_expression in E3.
    destruct E3 as (ys & -> & (t & tl & -> & _) & _).
    apply check_and_pop_inv in E4. subst v3.
    exists (t1 :: t2 :: third_thing :: (t :: tl) ++ [semicolon]).
    split; [list_eq|].
    split; cbn [Node_start Node_end declares_initial_value].
    + rewrite Hs. apply starts_at_cons.
    + exists t1, t2, third_thing, ((t :: tl) ++ [semicolon]).
      split; [reflexivity|]. split; [|reflexivity].
      rewrite length_app. cbn [length]. lia.
Qed.

Lemma span_parse_if (parse_statement : M Node) fuel v n v' :
  respects parse_statement -> consumes false parse_statement ->
  run (parse_if parse_statement fuel) v = (Returned n, v') ->
  exists ys, v = ys ++ v' /\ statement_span ys n.
Proof.
  intros Rp Hp. unfold parse_if. intro E.
  run_inv E as the_if v1 E1. run_inv E as condition v2 E2.
  run_inv E as brace v3 E3. run_inv E as body v4 E4.
  run_inv E as closing_brace v5 E5.
  apply run_ret_inv in E. destruct E as [-> ->].
  apply check_and_pop_inv in E1. subst v.
  apply spanning_parse_expression in E2. destruct E2 as (ys & -> & _).
  apply check_and_pop_inv in E3. subst v2.
  apply consumes_inv with (s := false) in E4;
    [|now apply consumes_body_loop].
  destruct E4 as (zs & ->).
  apply check_and_pop_inv in E5. subst v4.
  exists ((the_if :: ys ++ brace :: zs) ++ [closing_brace]).
  split; [list_eq|].
  apply statement_span_ends; cbn [Node_start Node_end];
    [reflexivity|apply starts_at_cons|apply ends_at_last].
Qed.

Lemma span_parse_function_def (parse_statement : M Node) fuel v n v' :
  respects parse_statement -> consumes false parse_statement ->
  run (parse_function_def parse_statement fuel) v = (Returned n, v') ->
  exists ys, v = ys ++ v' /\ statement_span ys n.
Proof.
  intros Rp Hp. unfold parse_function_def. intro E.
  run_inv E as function_keyword v1 E1. run_inv E as name v2 E2.
  run_inv E as paren v3 E3. run_inv E as aj v4 E4.
  destruct aj as [arguments junk].
  run_inv E as t v5 E5. run_inv E as returntype v6 E6.
  run_inv E as before_body v7 E7. run_inv E as body v8 E8.
  run_inv E as closing_brace v9 E9.
  apply run_ret_inv in E. destruct E as [-> ->].
  apply check_and_pop_inv in E1. subst v.
  apply consumes_inv with (s := true) in E2; [|apply consumes_parse_name].
  destruct E2 as (ys2 & ->).
  apply check_and_pop_inv in E3. subst v2.
  apply consumes_inv with (s := true) in E4;
    [|apply consumes__parse_comma_list;
      [apply respects__type_and_name
      |apply consumes_weak, consumes__type_and_name]].
  destruct E4 as (ys4 & ->).
  apply coming_up_1_inv in E5. subst v5.
  apply consumes_inv with (s := false) in E6; [|consumes_tac].
  destruct E6 as (ys6 & ->).
  apply check_and_pop_inv in E7. subst v6.
  apply consumes_inv with (s := false) in E8;
    [|now apply consumes_body_loop].
  destruct E8 as (ys8 & ->).
  apply check_and_pop_inv in E9. subst v8.
  exists ((function_keyword :: ys2 ++ paren :: ys4 ++ ys6
             ++ before_body :: ys8) ++ [closing_brace]).
  split; [list_eq|].
  apply statement_span_ends; cbn [Node_start Node_end];
    [reflexivity|apply starts_at_cons|apply ends_at_last].
Qed.

(** Every statement the parser returns starts where the first token it
    consumed starts, and ends where the last one ends unless it is a
    declaration with an initial value. *)
Lemma span_parse_statement fuel v n v' :
  run (parse_statement fuel) v = (Returned n, v') ->
  exists ys, v = ys ++ v' /\ statement_span ys n.
Proof.
  destruct fuel as [|fuel]; intro E.
  - cbn [parse_statement] in E. rewrite run_out_of_fuel in E.
    discriminate.
  - assert (Rp : respects (parse_statement fuel))
      by apply respects_parse_statement.
    assert (Hp : consumes false (parse_statement fuel))
      by apply consumes_weak, consumes_parse_statement.
    rewrite parse_statement_S in E.
    run_inv E as t1 v1 E1. apply coming_up_1_inv in E1. subst v1.
    destruct (kind t1 =? "NAME");
      [|now apply span_parse_expression_statement in E].
    run_inv E as t2 v2 E2. apply coming_up_1_inv in E2. subst v2.
    destruct (value t2 =? "return"); [now apply span_parse_return in E|].
    run_inv E as t3 v3 E3. apply coming_up_1_inv in E3. subst v3.
    destruct (value t3 =? "if");
      [now apply span_parse_if in E|].
    run_inv E as t4 v4 E4. apply coming_up_1_inv in E4. subst v4.
    destruct (value t4 =? "function");
      [now apply span_parse_function_def in E|].
    run_inv E as after_name v5 E5. apply coming_up_2_inv in E5. subst v5.
    destruct (info_eqb (info after_name) ("OP", "="));
      [now apply span_assignment in E|].
    destruct (kind after_name =? "NAME");
      [now apply span_parse_declaration in E|].
    now apply span_parse_expression_statement in E.
Qed.

(** ** Statements about particular inputs *)

(** C5: the truncated statement [Int a] (NAME NAME, then the end of the
    input) fails with [EOFError], the exception that stands for
    UnexpectedEndOfInput: [check_and_pop] peeks for the third token and
    finds none.  The generator returned by [parse] raises it at its first
    step. *)
Theorem truncated_declaration_raises_EOFError (s1 e1 s2 e2 : position) :
  let tokens := [mkToken "NAME" "Int" s1 e1; mkToken "NAME" "a" s2 e2] in
  statement_of tokens = Raised EOFError
  /\ error_kind_of EOFError = UnexpectedEndOfInput
  /\ iterate_all (parse tokens) = ([], Raised EOFError).
Proof. repeat split. Qed.

(** C2, as the code has it: [if if {}] fails with the keyword assertion
    of [parse_name] (ReservedKeywordUsed) on the second [if], which
    [parse_expression] takes for a name because its kind is NAME; the
    second [if] has been consumed and the braces are left. *)
Theorem if_if_raises_ReservedKeywordUsed
    (s1 e1 s2 e2 s3 e3 s4 e4 : position) :
  let lbrace := mkToken "OP" "{" s3 e3 in
  let rbrace := mkToken "OP" "}" s4 e4 in
  let tokens :=
    [mkToken "NAME" "if" s1 e1; mkToken "NAME" "if" s2 e2; lbrace; rbrace] in
  statement_on tokens =
    (Raised (AssertionError_keyword "if"), [lbrace; rbrace])
  /\ statement_of tokens = Raised (AssertionError_keyword "if")
  /\ error_kind_of (AssertionError_keyword "if") = ReservedKeywordUsed
  /\ iterate_all (parse tokens) = ([], Raised (AssertionError_keyword "if")).
Proof. repeat split. Qed.

(** C3, at the failing input: in [function f ( ) <op> }] the token before
    the body may be any OP token, [;] for one; [parse_function_def] only
    checks its kind and returns a [FunctionDef]. *)
Theorem function_def_accepts_any_OP_before_body
    (s1 e1 s2 e2 s3 e3 s4 e4 s5 e5 s6 e6 : position) (op : string) :
  statement_of
    [mkToken "NAME" "function" s1 e1; mkToken "NAME" "f" s2 e2;
     mkToken "OP" "(" s3 e3; mkToken "OP" ")" s4 e4;
     mkToken "OP" op s5 e5; mkToken "OP" "}" s6 e6]
  = Returned (FunctionDef "f" [] None [] s1 e6).
Proof. reflexivity. Qed.

(** C1, at the failing input: for [Int a = b ;] the [end] of the
    [Declaration] is the [end] of the [=] token ([third_thing.end]), not
    that of the semicolon, the last token consumed.  In general, a
    statement node the parser returns starts where the first token
    consumed for it starts, and ends where the last token consumed ends
    unless it is a declaration with an initial value: that one ends where
    its third token ends, with at least two more tokens (the value and the
    semicolon) consumed after it. *)
Theorem declaration_with_initializer_ends_at_third_token
    (s1 e1 s2 e2 s3 e3 s4 e4 s5 e5 : position) :
  let tokens :=
    [mkToken "NAME" "Int" s1 e1; mkToken "NAME" "a" s2 e2;
     mkToken "OP" "=" s3 e3; mkToken "NAME" "b" s4 e4;
     mkToken "OP" ";" s5 e5] in
  statement_on tokens =
    (Returned
       (Declaration (Name "Int" s1 e1) "a" (Some (Name "b" s4 e4)) s1 e3),
     [])
  /\ forall fuel v n v',
       run (parse_statement fuel) v = (Returned n, v') ->
       exists ys, v = ys ++ v' /\ statement_span ys n.
Proof.
  split; [reflexivity|].
  intros fuel v n v'. apply span_parse_statement.
Qed.

(** ** The cursor *)

(** C8: after any sequence of cursor operations on a fresh cursor over
    [tokens], the tokens consumed so far followed by the pending ones are
    [tokens] (every token sits in exactly one place: consumed, buffered in
    the deque, or still in the iterator).  For n >= 1, [coming_up(n)]
    returns the n-th pending token and raises [EOFError] exactly when
    fewer than n are pending; it consumes nothing, only moves tokens from
    the iterator to the deque, and the calls of [pop] that follow return
    the pending tokens in order. *)
Theorem coming_up_peeks_without_consuming
    (tokens : list Token) (ops : list cursor_op) (n : Z) :
  (1 <= n)%Z ->
  let popped := fst (do_ops ops (new_HandyDandyTokenIterator tokens)) in
  let c := snd (do_ops ops (new_HandyDandyTokenIterator tokens)) in
  let pending := view c in
  let c' := snd (coming_up n c) in
  tokens = popped ++ _coming_up_stack c ++ _iterator c
  /\ fst (coming_up n c) =
       match nth_error pending (Z.to_nat (n - 1)) with
       | Some t => Returned t
       | None => Raised EOFError
       end
  /\ (fst (coming_up n c) = Raised EOFError <->
      (Z.of_nat (length pending) < n)%Z)
  /\ view c' = pending
  /\ (exists fetched,
        _coming_up_stack c' = _coming_up_stack c ++ fetched
        /\ _iterator c = fetched ++ _iterator c')
  /\ (forall k, k <= length pending ->
                pops k c' = map (@Returned Token) (firstn k pending)).
Proof.
  intros Hn popped c pending c'.
  pose proof (do_ops_view ops (new_HandyDandyTokenIterator tokens)) as Hv.
  rewrite view_new in Hv. fold popped c in Hv.
  pose proof (observe_coming_up c Hn) as Ho. unfold observe in Ho.
  assert (Hr : fst (coming_up n c) =
               match nth_error pending (Z.to_nat (n - 1)) with
               | Some t => Returned t
               | None => Raised EOFError
               end) by (now inversion Ho).
  assert (Hc : view c' = pending) by apply view_coming_up.
  split; [exact Hv|]. split; [exact Hr|]. split; [|split; [exact Hc|split]].
  - rewrite Hr. destruct (nth_error pending (Z.to_nat (n - 1))) eqn:E.
    + split; [discriminate|]. intro Hlt.
      assert (Z.to_nat (n - 1) < length pending)
        by (apply nth_error_Some; congruence).
      lia.
    + split; [intros _|reflexivity].
      apply nth_error_None in E. lia.
  - apply coming_up_fetches.
  - intros k Hk. rewrite <- Hc in *. now apply pops_firstn.
Qed.

(** ** Declarations *)

(** C10, with the side conditions under which the two names are taken
    for a declaration: in NAME NAME OP expr [;], where neither NAME is a
    reserved word, the first is not [function] and the OP token is not
    [;], the OP token may have any value; the statement parses to a
    [Declaration] whose value is the expression (and whose [end] is the
    [end] of that OP token). *)
Theorem declaration_separator_is_any_OP
    (t1 t2 t3 semi : Token) (rest rest' : list Token) (e : Node) :
  kind t1 = "NAME" -> kind t2 = "NAME" -> kind t3 = "OP" ->
  in_KEYWORDS (value t1) = false -> in_KEYWORDS (value t2) = false ->
  value t1 <> "function" ->
  value t3 <> ";" ->
  expression_on rest = (Returned e, semi :: rest') ->
  info semi = ("OP", ";") ->
  statement_on (t1 :: t2 :: t3 :: rest) =
    (Returned
       (Declaration (Name (value t1) (start t1) (end_ t1)) (value t2)
          (Some e) (start t1) (end_ t3)),
     rest').
Proof.
  intros K1 K2 K3 W1 W2 F1 V3 He Hs.
  apply in_KEYWORDS_false in W1 as W1'. destruct W1' as [W1r W1i].
  apply String.eqb_neq in F1, V3.
  inversion Hs as [[Hsk Hsv]].
  unfold statement_on.
  remember (length (t1 :: t2 :: t3 :: rest)) as F eqn:HF. cbn [length] in HF.
  cbn [parse_statement]. run_simpl. rewrite K1. cbn [String.eqb Ascii.eqb Bool.eqb].
  run_simpl. rewrite W1r. run_simpl. rewrite W1i. run_simpl. rewrite F1.
  run_simpl. unfold info_eqb, info. cbn [fst snd]. rewrite K2.
  cbn [String.eqb Ascii.eqb Bool.eqb andb].
  unfold parse_declaration. run_step. rewrite run__type_and_name.
  rewrite run_parse_name, K1, W1. cbn [String.eqb Ascii.eqb Bool.eqb negb andb then_run].
  rewrite run_parse_name, K2, W2. cbn [String.eqb Ascii.eqb Bool.eqb negb andb then_run].
  run_step. rewrite run_check_and_pop, K3.
  cbn [String.eqb Ascii.eqb Bool.eqb negb andb then_run]. rewrite V3.
  run_step. rewrite expression_on_fuel by lia. rewrite He. cbn [then_run].
  run_step. rewrite run_check_and_pop, Hsk, Hsv.
  cbn [String.eqb Ascii.eqb Bool.eqb negb andb then_run].
  now run_simpl.
Qed.

(** ** Function definitions *)

(** C4, as the code has it: [parse_function_def] reads the function name
    with [parse_name()], keyword check on.  A [function] statement fails
    with the keyword assertion (ReservedKeywordUsed) naming its name
    token, right after that token, exactly when the token is a NAME whose
    value is a reserved word. *)
Theorem function_name_is_checked_for_keywords
    (kw name : Token) (rest : list Token) :
  info kw = ("NAME", "function") ->
  (statement_on (kw :: name :: rest) =
     (Raised (AssertionError_keyword (value name)), rest)
   <-> kind name = "NAME" /\ in_KEYWORDS (value name) = true).
Proof.
  intro Hkw. unfold info in Hkw. injection Hkw as Hk Hv.
  assert (E : statement_on (kw :: name :: rest) =
              then_run (run (parse_name true) (name :: rest)) (fun name0 =>
                run (bind (check_and_pop "OP" (Some "(")) (fun _ =>
                  bind (_parse_comma_list ")" _type_and_name
                          (S (length (kw :: name :: rest))))
                    (fun aj =>
                  let '(arguments, junk) := aj in
                  bind (coming_up 1) (fun t =>
                  bind (if info_eqb (info t) ("NAME", "returns")
                        then bind pop (fun _ =>
                               bind (parse_name true)
                                 (fun r => ret (Some r)))
                        else ret None) (fun returntype =>
                  bind (check_and_pop "OP" None) (fun before_body =>
                  bind (body_loop
                          (parse_statement (length (kw :: name :: rest)))
                          (S (length (kw :: name :: rest))) [])
                    (fun body =>
                  bind (check_and_pop "OP" (Some "}")) (fun closing_brace =>
                  ret (FunctionDef (Node_name name0) arguments returntype
                         body (start kw) (end_ closing_brace)))))))))))).
  { unfold statement_on.
    remember (length (kw :: name :: rest)) as F eqn:HF.
    cbn [parse_statement].
    repeat (first [run_step | rewrite Hk | rewrite Hv];
            cbn [String.eqb Ascii.eqb Bool.eqb then_run]).
    unfold parse_function_def. run_step.
    rewrite run_check_and_pop, Hk, Hv.
    cbn [String.eqb Ascii.eqb Bool.eqb negb then_run].
    now run_step. }
  split.
  - intro H. split.
    + rewrite E, run_parse_name in H.
      destruct (kind name =? "NAME") eqn:En; [now apply String.eqb_eq|].
      discriminate.
    + unfold statement_on in H.
      change (parser_exception (AssertionError_keyword (value name))).
      eapply raises_parse_statement; eassumption.
  - intros [Kn Wn]. rewrite E, run_parse_name, Kn, Wn. reflexivity.
Qed.

(** ** Comma lists *)

Lemma app_cons_tail_inv {T} (xs ys : list T) (a b : T) (rest : list T) :
  xs ++ a :: rest = ys ++ b :: rest -> xs = ys /\ a = b.
Proof.
  intro H.
  change (xs ++ [a] ++ rest = ys ++ [b] ++ rest) in H.
  rewrite !app_assoc in H. apply app_inv_tail in H.
  now apply app_inj_tail in H.
Qed.

Lemma nil_or_last {T} (l : list T) :
  l = [] \/ exists l' a, l = l' ++ [a].
Proof. induction l using rev_ind; eauto. Qed.

Lemma is_comma (t : Token) :
  negb (kind t =? "OP") || negb (value t =? ",") = false ->
  info t = ("OP", ",").
Proof.
  intro H. apply orb_false_iff in H as [H1 H2].
  apply negb_false_iff in H1, H2. apply String.eqb_eq in H1, H2.
  unfold info. now rewrite H1, H2.
Qed.

Lemma trailing_comma_in_loop {A} (stop : string) (parsemethod : M A) :
  respects parsemethod ->
  looks (delimiter_rest stop) false parsemethod ->
  stop <> "," ->
  forall fuel elements0 ys z close rest elements last comma rest',
    run (_parse_comma_list_loop stop parsemethod fuel elements0)
      ((ys ++ [z]) ++ close :: rest) = (Returned (elements, last), rest) ->
    info z <> ("OP", ",") ->
    info comma = ("OP", ",") ->
    run (_parse_comma_list_loop stop parsemethod fuel elements0)
      ((ys ++ [z]) ++ comma :: close :: rest')
    = (Returned (elements, last), rest').
Proof.
  intros Rp Hp Hstop fuel.
  induction fuel as [|fuel IH];
    intros elements0 ys z close rest elements last comma rest' E Hz Hc;
    [discriminate|].
  assert (Hcs : info_eqb (info comma) ("OP", stop) = false).
  { destruct (info_eqb (info comma) ("OP", stop)) eqn:X; [|reflexivity].
    apply info_eqb_eq in X. rewrite Hc in X. inversion X. congruence. }
  assert (Hcc : negb (kind comma =? "OP") || negb (value comma =? ",")
                = false).
  { inversion Hc as [[Hck Hcv]]. now rewrite Hck, Hcv. }
  rewrite run__parse_comma_list_loop_S in E by assumption.
  rewrite run__parse_comma_list_loop_S by assumption.
  destruct (run parsemethod ((ys ++ [z]) ++ close :: rest))
    as [[element|e0|] v1] eqn:Em; cbn [then_run] in E; try discriminate.
  destruct (Hp _ _ _ Em) as (zs & Ez & _ & Lz).
  destruct v1 as [|t v2]; [discriminate|].
  destruct (info_eqb (info t) ("OP", stop)) eqn:Et.
  - (* the element is followed by the closing token *)
    inversion E; subst. apply app_cons_tail_inv in Ez as [Ez1 Ez2].
    subst zs close.
    rewrite (Lz (comma :: last :: rest')) by (cbn; auto).
    cbn [then_run]. rewrite Hcs, Hcc, Et. reflexivity.
  - destruct (negb (kind t =? "OP") || negb (value t =? ",")) eqn:Ec;
      [discriminate|].
    pose proof (is_comma _ Ec) as Ht.
    destruct v2 as [|t' v3]; [discriminate|].
    destruct (info_eqb (info t') ("OP", stop)) eqn:Et'.
    + (* a trailing comma is there already: excluded *)
      inversion E; subst.
      change (zs ++ t :: last :: rest)
        with (zs ++ [t] ++ last :: rest) in Ez.
      rewrite app_assoc in Ez. apply app_cons_tail_inv in Ez as [Ez _].
      apply app_inj_tail in Ez as [_ ->]. contradiction.
    + (* the list goes on *)
      assert (Hcl : consumes true
                      (_parse_comma_list_loop stop parsemethod fuel
                         (elements0 ++ [element]))).
      { apply consumes__parse_comma_list_loop; [assumption|].
        apply consumes_of_looks with (R := delimiter_rest stop) (s := false);
          [assumption|auto]. }
      destruct (Hcl _ _ _ E) as (us & Eu & Su & _).
      specialize (Su eq_refl).
      destruct (exists_last Su) as (us0 & u & Eus). subst us.
      rewrite Eu in Ez.
      assert (X : zs ++ t :: (us0 ++ [u]) ++ rest
                  = (zs ++ t :: us0) ++ u :: rest)
        by (now rewrite <- !app_assoc).
      rewrite X in Ez. apply app_cons_tail_inv in Ez as [Ey Ecl]. subst u.
      destruct (nil_or_last us0) as [->|(us1 & z' & ->)].
      * apply app_inj_tail in Ey as [_ ->]. contradiction.
      * assert (Y : zs ++ t :: us1 ++ [z'] = (zs ++ t :: us1) ++ [z'])
          by (now rewrite <- !app_assoc).
        rewrite Y in Ey. apply app_inj_tail in Ey as [Ey <-]. subst ys.
        assert (Ev2 : t' :: v3 = (us1 ++ [z]) ++ close :: rest)
          by (rewrite Eu; now rewrite <- !app_assoc).
        assert (Eh : exists tl, us1 ++ [z] = t' :: tl).
        { destruct us1 as [|u1 us1']; cbn [app] in Ev2 |- *;
            inversion Ev2; subst; eexists; reflexivity. }
        destruct Eh as (tl & Eh).
        assert (Z : ((zs ++ t :: us1) ++ [z]) ++ comma :: close :: rest'
                    = zs ++ t :: (us1 ++ [z]) ++ comma :: close :: rest')
          by (now rewrite <- !app_assoc).
        rewrite Z, Lz by (cbn; auto).
        cbn [then_run]. rewrite Et, Ec.
        rewrite Eh at 1. cbn [app]. rewrite Et'.
        apply IH with (close := close) (rest := rest); auto.
        now rewrite <- Ev2.
Qed.

Lemma looks_delimiter_parse_expression fuel :
  looks (delimiter_rest ")") false (parse_expression fuel).
Proof.
  apply looks_weaken with (R := expression_rest) (s := true);
    [apply looks_parse_expression| |discriminate].
  intros v' [|t w] H; [contradiction|].
  cbn [expression_rest ends_expression]. unfold info in H.
  destruct H as [H|H]; injection H as Hk Hv; rewrite Hv;
    apply orb_true_r.
Qed.

Lemma looks_delimiter__type_and_name stop :
  looks (delimiter_rest stop) false _type_and_name.
Proof.
  apply looks_weaken with (R := any_rest) (s := true);
    [apply looks__type_and_name|intros; exact I|discriminate].
Qed.

(** C6: a comma list that parses without a trailing comma parses to the
    same elements (and the same closing token) with one.  The list is
    [(ys ++ [z]) ++ [close]], not empty and not ending in a comma
    already; the element parser may be any that does not look past a
    following comma or closing token, as [parse_expression] and
    [_type_and_name], the two the grammar uses, do not.  The statement
    [a = f(1, "x",);] parses to the same tree as [a = f(1, "x");]. *)
Theorem comma_list_accepts_trailing_comma :
  (forall A (stop : string) (parsemethod : M A) (fuel : nat)
          (ys : list Token) (z close comma : Token)
          (rest rest' : list Token) (elements : list A) (last : Token),
      respects parsemethod ->
      looks (delimiter_rest stop) false parsemethod ->
      stop <> "," ->
      info z <> ("OP", ",") ->
      info comma = ("OP", ",") ->
      run (_parse_comma_list stop parsemethod fuel)
        ((ys ++ [z]) ++ close :: rest) = (Returned (elements, last), rest) ->
      run (_parse_comma_list stop parsemethod fuel)
        ((ys ++ [z]) ++ comma :: close :: rest')
      = (Returned (elements, last), rest'))
  /\ (forall fuel,
         respects (parse_expression fuel)
         /\ looks (delimiter_rest ")") false (parse_expression fuel))
  /\ (respects _type_and_name
      /\ looks (delimiter_rest ")") false _type_and_name)
  /\ (forall (s1 e1 s2 e2 s3 e3 s4 e4 s5 e5 s6 e6 s7 e7 s8 e8 s9 e9 s10 e10
              : position) (quote : ascii),
         int "1" = Some 1%Z ->
         let a := mkToken "NAME" "a" s1 e1 in
         let eq := mkToken "OP" "=" s2 e2 in
         let f := mkToken "NAME" "f" s3 e3 in
         let lpar := mkToken "OP" "(" s4 e4 in
         let one := mkToken "INTEGER" "1" s5 e5 in
         let comma1 := mkToken "OP" "," s6 e6 in
         let x := mkToken "STRING"
                    (String.String quote ("x" ++ String.String quote ""))
                    s7 e7 in
         let comma2 := mkToken "OP" "," s8 e8 in
         let rpar := mkToken "OP" ")" s9 e9 in
         let semi := mkToken "OP" ";" s10 e10 in
         let tree :=
           Assignment (Name "a" s1 e1)
             (FunctionCall (Name "f" s3 e3)
                [Integer 1 s5 e5; String "x" s7 e7] s3 e9) s1 e10 in
         statement_on [a; eq; f; lpar; one; comma1; x; comma2; rpar; semi]
           = (Returned tree, [])
         /\ statement_on [a; eq; f; lpar; one; comma1; x; rpar; semi]
            = (Returned tree, [])).
Proof.
  split; [|split; [|split; [|]]].
  - intros A stop parsemethod fuel ys z close comma rest rest' elements
      last Rp Hp Hstop Hz Hc E.
    rewrite run__parse_comma_list in E |- * by assumption.
    assert (Eh : exists t0 tl, ys ++ [z] = t0 :: tl).
    { destruct ys as [|y ys']; cbn [app]; eauto. }
    destruct Eh as (t0 & tl & Eh).
    rewrite Eh in E at 1. rewrite Eh at 1. cbn [app] in E |- *.
    destruct (info_eqb (info t0) ("OP", stop)).
    + inversion E as [[E1 E2 E3]].
      assert (length (tl ++ close :: rest) = length rest) by congruence.
      rewrite length_app in H. cbn [length] in H. lia.
    + now apply trailing_comma_in_loop with (close := close) (rest := rest).
  - intro fuel. split; [apply respects_parse_expression|].
    apply looks_delimiter_parse_expression.
  - split; [apply respects__type_and_name|].
    apply looks_delimiter__type_and_name.
  - intros s1 e1 s2 e2 s3 e3 s4 e4 s5 e5 s6 e6 s7 e7 s8 e8 s9 e9 s10 e10
      quote H1. cbv zeta. unfold statement_on. cbn [length].
    split; run_eval; rewrite H1; run_eval; reflexivity.
Qed.

(** ** Call suffixes *)

Lemma consumes_false_of_same_head {A} (m : M A) :
  looks same_head false m -> consumes false m.
Proof.
  intro H. apply consumes_of_looks with (R := same_head) (s := false); auto.
Qed.

(** The loop of [parse_expression], having turned [r] into [e] over the
    tokens [ys1], goes on from [e] with whatever follows [ys1]. *)
Lemma parse_expression_loop_goes_on (h : M Node) (B : nat) :
  respects h -> looks same_head false h -> agree B h h ->
  forall k r ys1 w e,
    run (parse_expression_loop h k r) (ys1 ++ w) = (Returned e, w) ->
    length (ys1 ++ w) < k ->
    forall K w2,
      length (ys1 ++ w2) < K -> length (ys1 ++ w2) <= B ->
      run (parse_expression_loop h K r) (ys1 ++ w2)
      = run (parse_expression_loop h K e) w2.
Proof.
  intros Rh Lh Ah.
  pose proof (consumes_false_of_same_head Lh) as Ch.
  assert (Ccl : forall k, consumes true (_parse_comma_list ")" h k))
    by (intro; now apply consumes__parse_comma_list).
  assert (Lcl : forall k, looks any_rest true (_parse_comma_list ")" h k))
    by (intro; now apply looks__parse_comma_list).
  assert (Lloop : forall k r,
             looks expression_rest false (parse_expression_loop h k r))
    by (intros; now apply looks_parse_expression_loop).
  assert (Acl : forall N k1 k2,
             N <= B -> N < k1 -> N < k2 ->
             agree N (_parse_comma_list ")" h k1)
                     (_parse_comma_list ")" h k2)).
  { intros N k1 k2 HN H1 H2. apply agree__parse_comma_list; auto.
    now apply (agree_mono Ah). }
  assert (Aloop : forall N k1 k2 r,
             N <= B -> N < k1 -> N < k2 ->
             agree N (parse_expression_loop h k1 r)
                     (parse_expression_loop h k2 r)).
  { intros N k1 k2 r HN H1 H2. apply agree_parse_expression_loop; auto.
    now apply (agree_mono Ah). }
  induction k as [|k0 IH]; intros r ys1 w e E Hk K w2 HK HB; [lia|].
  destruct K as [|K0]; [lia|].
  rewrite run_parse_expression_loop_S in E by assumption.
  destruct ys1 as [|o ys2]; cbn [app] in E.
  - destruct w as [|t w0]; [discriminate|].
    destruct (negb (kind t =? "OP") || negb (value t =? "(")) eqn:Ec.
    + now inversion E; subst.
    + destruct (run (_parse_comma_list ")" h k0) w0) as [[al|x|] v2] eqn:El;
        cbn [then_run] in E; try discriminate.
      destruct (consumes_length (Ccl k0) El) as [_ H1].
      destruct (Lloop _ _ _ _ _ E) as (ys3 & E3 & _).
      specialize (H1 eq_refl). rewrite E3 in H1.
      rewrite length_app in H1. cbn [length] in H1. lia.
  - destruct (negb (kind o =? "OP") || negb (value o =? "(")) eqn:Ec.
    + inversion E as [[E1 E2]].
      assert (length (o :: ys2 ++ w) = length w) by congruence.
      cbn [length] in H. rewrite length_app in H. lia.
    + destruct (run (_parse_comma_list ")" h k0) (ys2 ++ w))
        as [[al|x|] v2] eqn:El; cbn [then_run] in E; try discriminate.
      destruct (Lcl _ _ _ _ El) as (zs & Ez & _ & Lz).
      destruct (Lloop _ _ _ _ _ E) as (ys3 & E3 & _).
      rewrite E3, app_assoc in Ez. apply app_inv_tail in Ez. subst ys2.
      cbn [app length] in Hk, HK, HB. rewrite !length_app in Hk, HK, HB.
      (* the arguments, with the other counter *)
      assert (El' : run (_parse_comma_list ")" h K0) (zs ++ ys3 ++ w2)
                    = (Returned al, ys3 ++ w2)).
      { pose proof (Lz [] I) as L0.
        assert (Ea : run (_parse_comma_list ")" h k0) (zs ++ [])
                     = run (_parse_comma_list ")" h K0) (zs ++ [])).
        { refine (proj1 (Acl (length (zs ++ [])) k0 K0 _ _ _
                           (zs ++ []) (le_n _)));
            rewrite length_app; cbn [length]; lia. }
        rewrite Ea in L0.
        destruct (Lcl _ _ _ _ L0) as (zs' & Ez' & _ & Lz').
        rewrite !app_nil_r in Ez'. subst zs'. now apply Lz'. }
      rewrite run_parse_expression_loop_S by assumption.
      cbn [app]. rewrite Ec, <- app_assoc, El'. cbn [then_run].
      rewrite E3 in E.
      rewrite (IH _ _ _ _ E) with (K := K0) (w2 := w2);
        try (rewrite ?length_app; lia).
      refine (proj1 (Aloop (length w2) K0 (S K0) e _ _ _ w2 (le_n _))); lia.
Qed.

Lemma looks_same_head_false_parse_expression fuel :
  looks same_head false (parse_expression fuel).
Proof.
  apply looks_weaken with (R := same_head) (s := true);
    [apply looks_same_head_parse_expression|auto|discriminate].
Qed.

(** An expression parsed from [ys] is parsed from [ys] in front of any
    rest that does not start with an opening parenthesis. *)
Lemma expression_any_rest (ys w : list Token) (e : Node) :
  expression_on (ys ++ w) = (Returned e, w) ->
  ys <> []
  /\ forall f w',
       ends_expression w' -> length (ys ++ w') < f ->
       run (parse_expression f) (ys ++ w') = (Returned e, w').
Proof.
  unfold expression_on. intro H.
  destruct (looks_parse_expression (S (length (ys ++ w)))) as [L W].
  destruct (L _ _ _ H) as (ys' & E1 & S1 & L1).
  apply app_inv_tail in E1. subst ys'. split; [now apply S1|].
  pose proof (W _ _ _ H) as Hw.
  intros f [|t' w''] Hw' Hf; [contradiction|].
  assert (H1 : run (parse_expression f) (ys ++ [t']) = (Returned e, [t'])).
  { rewrite <- (L1 [t']) by exact Hw'.
    symmetry. apply parse_expression_fuel.
    - destruct w; [contradiction|].
      rewrite !length_app. cbn [length]. lia.
    - rewrite length_app in *. cbn [length] in *. lia. }
  destruct (looks_parse_expression f) as [L' _].
  destruct (L' _ _ _ H1) as (ys' & E1 & _ & L1').
  apply app_inv_tail in E1. subst ys'. now apply L1'.
Qed.

(** Arguments parsed from [zs] (the closing parenthesis included) are
    parsed from [zs] in front of any rest. *)
Lemma arguments_any_rest (zs w0 : list Token) (al : list Node * Token) :
  arguments_on (zs ++ w0) = (Returned al, w0) ->
  forall f k w',
    length (zs ++ w') < f -> length (zs ++ w') < k ->
    run (_parse_comma_list ")" (parse_expression f) k) (zs ++ w')
    = (Returned al, w').
Proof.
  unfold arguments_on. intros H f k w' Hf Hk.
  set (F := S (length (zs ++ w0))) in *.
  assert (Lcl : forall f k,
             looks any_rest true
               (_parse_comma_list ")" (parse_expression f) k)).
  { intros. apply looks__parse_comma_list;
      [apply respects_parse_expression
      |apply looks_same_head_false_parse_expression]. }
  destruct (Lcl _ _ _ _ _ H) as (zs' & E1 & _ & L1).
  apply app_inv_tail in E1. subst zs'.
  pose proof (L1 [] I) as H0.
  assert (Ea : run (_parse_comma_list ")" (parse_expression F) F) (zs ++ [])
               = run (_parse_comma_list ")" (parse_expression f) k)
                   (zs ++ [])).
  { assert (N1 : length (zs ++ []) < F)
      by (unfold F; rewrite !length_app; cbn [length]; lia).
    assert (N2 : length (zs ++ []) < f)
      by (rewrite length_app in *; cbn [length]; lia).
    assert (N3 : length (zs ++ []) < k)
      by (rewrite length_app in *; cbn [length]; lia).
    refine (proj1 (@agree__parse_comma_list _ ")" (length (zs ++ []))
                     (parse_expression F) (parse_expression f) F k
                     (respects_parse_expression F)
                     (respects_parse_expression f) _ _ N1 N3
                     (zs ++ []) (le_n _))).
    - now apply agree_parse_expression.
    - apply consumes_weak, consumes_parse_expression. }
  rewrite Ea in H0.
  destruct (Lcl _ _ _ _ _ H0) as (zs' & E1 & _ & L1').
  rewrite !app_nil_r in E1. subst zs'. now apply L1'.
Qed.

(** C7: a call suffix after an expression makes a [FunctionCall] whose
    callee is that whole expression, so call chains nest to the left.
    If [ys] parses to the expression [e] and [zs] (arguments and closing
    parenthesis) to the arguments [args], then [ys ( zs] parses to
    [FunctionCall(e, args)], spanning from the start of [e] to the end of
    the closing parenthesis.  [f()()], followed by a token other than an
    opening parenthesis (as in the statement [f()();]), parses to
    [FunctionCall(FunctionCall(Name("f"), []), [])]. *)
Theorem call_suffix_wraps_the_whole_expression :
  (forall (ys w zs w0 w' : list Token) (e : Node) (open last : Token)
          (args : list Node),
      expression_on (ys ++ w) = (Returned e, w) ->
      info open = ("OP", "(") ->
      arguments_on (zs ++ w0) = (Returned (args, last), w0) ->
      ends_expression w' ->
      expression_on (ys ++ open :: zs ++ w')
      = (Returned (FunctionCall e args (Node_start e) (end_ last)), w'))
  /\ (forall (s1 e1 s2 e2 s3 e3 s4 e4 s5 e5 : position) (w : list Token),
         ends_expression w ->
         expression_on
           ([mkToken "NAME" "f" s1 e1;
             mkToken "OP" "(" s2 e2; mkToken "OP" ")" s3 e3;
             mkToken "OP" "(" s4 e4; mkToken "OP" ")" s5 e5] ++ w)
         = (Returned
              (FunctionCall (FunctionCall (Name "f" s1 e1) [] s1 e3) []
                 s1 e5), w))
  /\ (forall (s1 e1 s2 e2 s3 e3 s4 e4 s5 e5 s6 e6 : position),
         statement_on
           [mkToken "NAME" "f" s1 e1;
            mkToken "OP" "(" s2 e2; mkToken "OP" ")" s3 e3;
            mkToken "OP" "(" s4 e4; mkToken "OP" ")" s5 e5;
            mkToken "OP" ";" s6 e6]
         = (Returned
              (ExpressionStatement
                 (FunctionCall (FunctionCall (Name "f" s1 e1) [] s1 e3) []
                    s1 e5) s1 e6), [])).
Proof.
  split; [|split].
  - intros ys w zs w0 w' e open last args He Ho Ha Hw'.
    destruct (@expression_any_rest ys w e He) as [Hys Hx].
    unfold info in Ho. injection Ho as Hok Hov.
    destruct ys as [|t ys1]; [contradiction|].
    unfold expression_on.
    remember (length ((t :: ys1) ++ open :: zs ++ w')) as n eqn:Hn.
    pose proof Hn as Hn'. cbn [app length] in Hn'.
    rewrite !length_app in Hn'. cbn [length] in Hn'.
    rewrite length_app in Hn'.
    destruct n as [|n0]; [lia|].
    (* the run over [ys] and [w'], with this fuel *)
    assert (H1 : run (parse_expression (S (S n0))) ((t :: ys1) ++ w')
                 = (Returned e, w'))
      by (apply Hx; [exact Hw'|cbn [app length]; rewrite length_app; lia]).
    rewrite run_parse_expression_S in H1.
    rewrite run_parse_expression_S. cbn [app] in H1 |- *.
    match type of H1 with
    | then_run ?P _ = _ => destruct P as [[p|x|] v1] eqn:EP
    end; cbn [then_run] in H1; try discriminate.
    destruct (primary_one_token _ _ EP) as [-> Lp].
    rewrite Lp. cbn [then_run].
    rewrite (@parse_expression_loop_goes_on (parse_expression (S n0)) n0)
      with (k := S n0) (w := w') (e := e); auto with respects.
    + rewrite run_parse_expression_loop_S by auto with respects.
      rewrite Hok, Hov. cbn [String.eqb Ascii.eqb Bool.eqb negb orb].
      rewrite (@arguments_any_rest zs w0 (args, last) Ha (S n0) n0 w')
        by (rewrite length_app; lia).
      cbn [then_run fst snd].
      destruct n0 as [|n1]; [lia|].
      rewrite run_parse_expression_loop_S by auto with respects.
      destruct w' as [|t' w'']; [contradiction|].
      cbn [ends_expression] in Hw'. now rewrite Hw'.
    + apply looks_same_head_false_parse_expression.
    + apply agree_parse_expression; lia.
    + rewrite length_app. lia.
    + rewrite !length_app. cbn [length]. rewrite length_app. lia.
    + rewrite !length_app. cbn [length]. rewrite length_app. lia.
  - intros s1 e1 s2 e2 s3 e3 s4 e4 s5 e5 [|t w] Hw; [contradiction|].
    cbn [ends_expression] in Hw.
    unfold expression_on. cbn [app length]. run_eval.
    rewrite Hw. reflexivity.
  - intros. reflexivity.
Qed.

(** * Further properties of the code *)

(** ** The cursor, seen through the pending tokens *)

(** X1: [check_and_pop] checks before it pops, whatever part of the pending
    tokens is buffered: with no pending token it raises [EOFError]; when
    the next token has the wrong kind, or the wrong value where one is
    asked for, it raises the assertion with that token and every token is
    still pending; otherwise it returns the next token and only that one
    is consumed. *)
Theorem check_and_pop_checks_before_popping
    (kind_ : string) (value_ : option string)
    (c : _HandyDandyTokenIterator) :
  observe (check_and_pop kind_ value_ c) =
  match view c with
  | [] => (Raised EOFError, [])
  | t :: rest =>
      if (kind t =? kind_)
         && match value_ with Some x => value t =? x | None => true end
      then (Returned t, rest)
      else (Raised (AssertionError_token t), t :: rest)
  end.
Proof.
  rewrite (respects_check_and_pop kind_ value_ c), run_check_and_pop.
  destruct (view c) as [|t rest]; [reflexivity|].
  destruct (kind t =? kind_); cbn [negb andb]; [|reflexivity].
  destruct value_ as [x|]; [destruct (value t =? x)|]; reflexivity.
Qed.

(** X2: [something_coming_up] says whether a token is pending and consumes
    none: after [True] the next [pop] returns the token [coming_up()] would
    have returned, the first pending one; after [False] the next [pop]
    raises a bare [StopIteration], where [coming_up()] raises
    [EOFError]. *)
Theorem something_coming_up_tells_whether_pop_succeeds
    (c : _HandyDandyTokenIterator) :
  let c' := snd (something_coming_up c) in
  view c' = view c
  /\ (fst (something_coming_up c) = Returned true <->
      exists t, hd_error (view c) = Some t
                /\ fst (pop c') = Returned t
                /\ fst (coming_up 1 c) = Returned t)
  /\ (fst (something_coming_up c) = Returned false <->
      view c = []
      /\ fst (pop c') = Raised StopIteration
      /\ fst (coming_up 1 c) = Raised EOFError)
  /\ (fst (something_coming_up c) = Returned true
      \/ fst (something_coming_up c) = Returned false).
Proof.
  intro c'.
  pose proof (observe_something_coming_up c) as Hs.
  pose proof (observe_pop c') as Hp.
  pose proof (@observe_coming_up 1 c ltac:(lia)) as Hc.
  unfold observe in Hs, Hp, Hc. fold c' in Hs.
  injection Hs as Hs1 Hs2. rewrite Hs2 in Hp.
  change (Z.to_nat (1 - 1)) with 0 in Hc.
  split; [exact Hs2|]. rewrite Hs1.
  destruct (view c) as [|t rest]; cbn [nth_error hd_error] in *;
    injection Hp as Hp1 _; injection Hc as Hc1 _.
  - split; [split; [discriminate|intros (t & Ht & _); discriminate]|].
    split; [|now right]. split; [now intros _|reflexivity].
  - split; [split; [intros _; now exists t|reflexivity]|].
    split; [|now left]. split; [discriminate|intros [Hv _]; discriminate].
Qed.

(** X3: [coming_up(n)] with [n <= 0]: the [while] loop is skipped, so nothing
    is fetched and the cursor is left as it was, and
    [self._coming_up_stack[-n]] counts from the left end of the deque:
    [coming_up(0)] is the token buffered last, and an index past the
    buffered tokens (any index on an empty deque) is a bare
    [IndexError], however many tokens the iterator still holds. *)
Theorem coming_up_nonpositive_reads_the_buffer
    (n : Z) (c : _HandyDandyTokenIterator) :
  (n <= 0)%Z ->
  coming_up n c =
  (match nth_error (rev (_coming_up_stack c)) (Z.to_nat (- n)) with
   | Some t => Returned t
   | None => Raised IndexError
   end, c).
Proof.
  intro Hn. unfold coming_up, bind.
  set (len := Z.of_nat (length (_coming_up_stack c))).
  assert (Hlen : (0 <= len)%Z) by (unfold len; lia).
  replace (Z.to_nat (n - len)) with 0 by lia.
  cbn [coming_up_loop]. fold len.
  destruct (Z.ltb_spec len n) as [H|_]; [lia|].
  unfold deque_getitem. fold len.
  destruct (Z.ltb_spec (- n) 0) as [H|_]; [lia|].
  rewrite nth_error_rev.
  destruct (Z.leb_spec 0 (- n)) as [_|H]; [|lia]. cbn [andb].
  destruct (Z.ltb_spec (- n) len) as [Hin|Hout].
  - destruct (Nat.ltb_spec (Z.to_nat (- n)) (length (_coming_up_stack c)))
      as [_|H]; [|unfold len in Hin; lia].
    replace (Z.to_nat (len - 1 - - n))
      with (length (_coming_up_stack c) - S (Z.to_nat (- n)))
      by (unfold len in *; lia).
    now destruct (nth_error (_coming_up_stack c) _).
  - destruct (Nat.ltb_spec (Z.to_nat (- n)) (length (_coming_up_stack c)))
      as [H|_]; [unfold len in Hout; lia|reflexivity].
Qed.

(** ** Termination *)

(** X4: the loops of the parser use up a token at every turn, so
    [parse_statement] and [parse_expression] end on every token sequence:
    with any fuel above the number of pending tokens they return or raise,
    and what they do does not depend on the fuel. *)
Theorem parse_statement_terminates (v : list Token) (f1 f2 : nat) :
  length v < f1 -> length v < f2 ->
  (fst (run (parse_statement f1) v) <> OutOfFuel
   /\ run (parse_statement f1) v = run (parse_statement f2) v)
  /\ (fst (run (parse_expression f1) v) <> OutOfFuel
      /\ run (parse_expression f1) v = run (parse_expression f2) v).
Proof.
  intros H1 H2. split.
  - destruct (@agree_parse_statement (length v) f1 f2 H1 H2 v (le_n _))
      as [E N].
    now split.
  - destruct (@agree_parse_expression (length v) f1 f2 H1 H2 v (le_n _))
      as [E N].
    now split.
Qed.

(** ** Exceptions *)

Lemma raises_at_bind {A B} (m : M A) (k : A -> M B) :
  respects m -> (forall a, respects (k a)) ->
  raises_at m -> (forall a, raises_at (k a)) -> raises_at (bind m k).
Proof.
  intros Rm Rk Hm Hk v e v' E. rewrite run_bind in E by assumption.
  destruct (run m v) as [[a|e0|] v1] eqn:Em; cbn [then_run] in E;
    try discriminate.
  - eapply Hk; eassumption.
  - inversion E; subst. eapply Hm; eassumption.
Qed.

Lemma raises_at_ret {A} (a : A) : raises_at (ret a).
Proof. intros v e v' E. rewrite run_ret in E. discriminate. Qed.

Lemma raises_at_out_of_fuel {A} : raises_at (@out_of_fuel A).
Proof. intros v e v' E. rewrite run_out_of_fuel in E. discriminate. Qed.

Lemma raises_at_coming_up_1 : raises_at (coming_up 1).
Proof.
  intros v e v' E. rewrite run_coming_up_1 in E.
  destruct v; inversion E. cbn. lia.
Qed.

Lemma raises_at_coming_up_2 : raises_at (coming_up 2).
Proof.
  intros v e v' E. rewrite run_coming_up_2 in E.
  destruct v as [|? [|? ?]]; inversion E; cbn; lia.
Qed.

Lemma raises_at_pop : raises_at pop.
Proof.
  intros v e v' E. rewrite run_pop in E.
  destruct v; inversion E. exact I.
Qed.

Lemma raises_at_check_and_pop k x : raises_at (check_and_pop k x).
Proof.
  intros v e v' E. rewrite run_check_and_pop in E.
  destruct v as [|t v]; [inversion E; cbn; lia|].
  destruct (negb (kind t =? k)); [now inversion E|].
  destruct x as [x|]; [destruct (negb (value t =? x))|];
    now inversion E.
Qed.

Lemma raises_at_parse_name b : raises_at (parse_name b).
Proof.
  intros v e v' E. rewrite run_parse_name in E.
  destruct v as [|t v]; [inversion E; cbn; lia|].
  destruct (negb (kind t =? "NAME")); [now inversion E|].
  destruct (b && in_KEYWORDS (value t)); inversion E. exact I.
Qed.

Lemma raises_at_parse_string : raises_at parse_string.
Proof.
  intros v e v' E. rewrite run_parse_string in E.
  destruct v as [|t v]; [inversion E; cbn; lia|].
  destruct (negb (kind t =? "STRING")); now inversion E.
Qed.

Lemma raises_at_parse_integer : raises_at parse_integer.
Proof.
  intros v e v' E. rewrite run_parse_integer in E.
  destruct v as [|t v]; [inversion E; cbn; lia|].
  destruct (negb (kind t =? "INTEGER")); [now inversion E|].
  destruct (int (value t)); inversion E. exact I.
Qed.

Create HintDb raises_at.

#[local] Hint Resolve raises_at_ret raises_at_out_of_fuel
  raises_at_coming_up_1 raises_at_coming_up_2 raises_at_pop
  raises_at_check_and_pop raises_at_parse_name raises_at_parse_string
  raises_at_parse_integer : raises_at.

Ltac raises_at_tac :=
  repeat first
    [ match goal with
      | |- forall _, _ => intro
      | |- raises_at (bind _ _) =>
          apply raises_at_bind; [respects_tac|respects_tac| |]
      | |- raises_at (if ?b then _ else _) => destruct b
      | |- raises_at (match ?x with _ => _ end) => destruct x
      end
    | progress auto with raises_at respects ].

Lemma raises_at__parse_comma_list_loop {A} stop (parsemethod : M A) :
  respects parsemethod -> raises_at parsemethod ->
  forall fuel elements,
    raises_at (_parse_comma_list_loop stop parsemethod fuel elements).
Proof.
  intros Rp Hp fuel.
  induction fuel as [|fuel IH]; intro elements;
    cbn [_parse_comma_list_loop]; raises_at_tac.
Qed.

#[local] Hint Resolve raises_at__parse_comma_list_loop : raises_at.

Lemma raises_at__parse_comma_list {A} stop (parsemethod : M A) fuel :
  respects parsemethod -> raises_at parsemethod ->
  raises_at (_parse_comma_list stop parsemethod fuel).
Proof. intros Rp Hp. unfold _parse_comma_list. raises_at_tac. Qed.

#[local] Hint Resolve raises_at__parse_comma_list : raises_at.

Lemma raises_at_parse_expression_loop (parse_expression : M Node) :
  respects parse_expression -> raises_at parse_expression ->
  forall fuel result,
    raises_at (parse_expression_loop parse_expression fuel result).
Proof.
  intros Rp Hp fuel.
  induction fuel as [|fuel IH]; intro result; cbn [parse_expression_loop];
    raises_at_tac.
Qed.

#[local] Hint Resolve raises_at_parse_expression_loop : raises_at.

(** The token [parse_expression] rejects has only been peeked at. *)
Lemma raises_at_parse_expression fuel : raises_at (parse_expression fuel).
Proof.
  induction fuel as [|fuel IH]; intros v e v' E.
  - cbn [parse_expression] in E. rewrite run_out_of_fuel in E.
    discriminate.
  - rewrite run_parse_expression_S in E.
    destruct v as [|t v1]; [inversion E; cbn; lia|].
    assert (Hloop : forall (m : M Node), raises_at m ->
      then_run (run m (t :: v1))
        (fun result =>
           run (parse_expression_loop (parse_expression fuel) fuel result))
      = (Raised e, v') -> error_at e v').
    { intros m Hm E'.
      destruct (run m (t :: v1)) as [[result|e0|] v2] eqn:Em;
        cbn [then_run] in E'; try discriminate.
      - eapply raises_at_parse_expression_loop;
          [apply respects_parse_expression|exact IH|exact E'].
      - inversion E'; subst. eapply Hm; eassumption. }
    destruct (kind t =? "NAME");
      [exact (Hloop _ (@raises_at_parse_name true) E)|].
    destruct (kind t =? "STRING");
      [exact (Hloop _ raises_at_parse_string E)|].
    destruct (kind t =? "INTEGER");
      [exact (Hloop _ raises_at_parse_integer E)|].
    cbn [then_run] in E. now inversion E.
Qed.

#[local] Hint Resolve raises_at_parse_expression : raises_at.

Lemma raises_at_body_loop (parse_statement : M Node) :
  respects parse_statement -> raises_at parse_statement ->
  forall fuel body, raises_at (body_loop parse_statement fuel body).
Proof.
  intros Rp Hp fuel.
  induction fuel as [|fuel IH]; intro body; cbn [body_loop];
    raises_at_tac.
Qed.

Lemma raises_at__type_and_name : raises_at _type_and_name.
Proof. unfold _type_and_name. raises_at_tac. Qed.

#[local] Hint Resolve raises_at_body_loop raises_at__type_and_name
  : raises_at.

Lemma raises_at_parse_statement fuel : raises_at (parse_statement fuel).
Proof.
  induction fuel as [|fuel IH]; cbn [parse_statement];
    [apply raises_at_out_of_fuel|].
  unfold parse_return, parse_if, parse_function_def, assignment,
    parse_declaration, parse_expression_statement.
  raises_at_tac.
Qed.

(** X5: [parse_statement] never lets through the [StopIteration] of the
    token iterator (every [pop] comes after a peek that found the token)
    nor an [IndexError] of the deque ([coming_up] indexes a token it has
    buffered), and when it fails with the assertion of [parse_name], the
    name that comes with it is in [KEYWORDS]. *)
Theorem parse_statement_never_raises_StopIteration
    (fuel : nat) (v : list Token) (e : exception) (v' : list Token) :
  run (parse_statement fuel) v = (Raised e, v') ->
  e <> StopIteration
  /\ e <> IndexError
  /\ forall s, e = AssertionError_keyword s -> in_KEYWORDS s = true.
Proof.
  intro E. pose proof (@raises_parse_statement fuel v e v' E) as H.
  destruct e as [| | |t|s|t|s]; cbn [parser_exception] in H;
    try contradiction;
    (split; [discriminate|]; split; [discriminate|]);
    intros s' Hs; try discriminate.
  now inversion Hs; subst.
Qed.

(** X6: where an exception of [parse_statement] leaves the cursor: the token
    that [check_and_pop] or [parse_expression] rejected is still the next
    pending token (it was peeked at, not popped), and [EOFError] is raised
    with at most one token pending (one, when [parse_statement] peeks two
    ahead and finds a single name). *)
Theorem rejected_token_is_still_pending
    (fuel : nat) (v : list Token) (e : exception) (v' : list Token) :
  run (parse_statement fuel) v = (Raised e, v') ->
  (forall t, e = AssertionError_token t \/ e = ValueError_invalid_token t ->
             exists rest, v' = t :: rest)
  /\ (e = EOFError -> length v' <= 1).
Proof.
  intro E. pose proof (@raises_at_parse_statement fuel v e v' E) as H.
  split.
  - intros t [->| ->]; cbn [error_at] in H;
      (destruct v' as [|t' rest]; [discriminate|]);
      inversion H; subst; now exists rest.
  - intros ->. exact H.
Qed.

(** ** The shape of the nodes *)

Lemma returns_only_bind {A B} (P : A -> bool) (Q : B -> bool) (m : M A)
    (k : A -> M B) :
  respects m -> (forall a, respects (k a)) ->
  returns_only P m -> (forall a, P a = true -> returns_only Q (k a)) ->
  returns_only Q (bind m k).
Proof.
  intros Rm Rk Hm Hk v b v' E.
  apply run_bind_inv in E; [|assumption|assumption].
  destruct E as (a & v1 & E1 & E2).
  eapply Hk; [eapply Hm|]; eassumption.
Qed.

Lemma returns_only_any {A B} (Q : B -> bool) (m : M A) (k : A -> M B) :
  respects m -> (forall a, respects (k a)) ->
  (forall a, returns_only Q (k a)) -> returns_only Q (bind m k).
Proof.
  intros Rm Rk Hk v b v' E.
  apply run_bind_inv in E; [|assumption|assumption].
  destruct E as (a & v1 & E1 & E2). eapply Hk; eassumption.
Qed.

Lemma returns_only_ret {A} (P : A -> bool) (a : A) :
  P a = true -> returns_only P (ret a).
Proof.
  intros H v b v' E. apply run_ret_inv in E. destruct E as [-> _].
  exact H.
Qed.

Lemma name_node_expression (n : Node) :
  name_node n = true -> expression_node n = true.
Proof.
  destruct n; cbn [name_node expression_node]; intro H;
    first [exact H|discriminate].
Qed.

Lemma returns_parse_name : returns_only name_node (parse_name true).
Proof.
  intros v n v' E. rewrite run_parse_name in E.
  destruct v as [|t v0]; [discriminate|].
  destruct (negb (kind t =? "NAME")); [discriminate|]. cbn [andb] in E.
  destruct (in_KEYWORDS (value t)) eqn:Ek; [discriminate|].
  inversion E; subst. cbn [name_node]. now rewrite Ek.
Qed.

Lemma returns_parse_string : returns_only expression_node parse_string.
Proof.
  intros v n v' E. rewrite run_parse_string in E.
  destruct v as [|t v0]; [discriminate|].
  destruct (negb (kind t =? "STRING")); [discriminate|].
  now inversion E.
Qed.

Lemma returns_parse_integer : returns_only expression_node parse_integer.
Proof.
  intros v n v' E. rewrite run_parse_integer in E.
  destruct v as [|t v0]; [discriminate|].
  destruct (negb (kind t =? "INTEGER")); [discriminate|].
  destruct (int (value t)); [|discriminate]. now inversion E.
Qed.

Lemma returns__type_and_name : returns_only argument_pair _type_and_name.
Proof.
  intros v [typenode name] v' E. rewrite run__type_and_name in E.
  destruct (run (parse_name true) v) as [[n1|e|] v1] eqn:E1;
    cbn [then_run] in E; try discriminate.
  destruct (run (parse_name true) v1) as [[n2|e|] v2] eqn:E2;
    cbn [then_run] in E; try discriminate.
  inversion E; subst.
  apply returns_parse_name in E1. apply returns_parse_name in E2.
  unfold argument_pair. cbn [fst snd]. rewrite E1. cbn [andb].
  destruct n2; cbn [name_node] in E2; try discriminate. exact E2.
Qed.

(** The elements of a comma list are what [parsemethod] returns. *)
Lemma returns__parse_comma_list_loop {A} (P : A -> bool) stop
    (parsemethod : M A) :
  respects parsemethod -> returns_only P parsemethod ->
  forall fuel elements,
    forallb P elements = true ->
    returns_only (fun r => forallb P (fst r))
      (_parse_comma_list_loop stop parsemethod fuel elements).
Proof.
  intros Rp Hp fuel.
  induction fuel as [|fuel IH]; intros elements He v [r last] v' E.
  - cbn [_parse_comma_list_loop] in E. rewrite run_out_of_fuel in E.
    discriminate.
  - rewrite run__parse_comma_list_loop_S in E by assumption.
    destruct (run parsemethod v) as [[element|e|] v1] eqn:Ep;
      cbn [then_run] in E; try discriminate.
    apply Hp in Ep.
    assert (He' : forallb P (elements ++ [element]) = true)
      by (rewrite forallb_app, He; cbn [forallb]; now rewrite Ep).
    destruct v1 as [|t v2]; [discriminate|].
    destruct (info_eqb (info t) ("OP", stop)); [now inversion E; subst|].
    destruct (negb (kind t =? "OP") || negb (value t =? ","));
      [discriminate|].
    destruct v2 as [|t' v3]; [discriminate|].
    destruct (info_eqb (info t') ("OP", stop)); [now inversion E; subst|].
    exact (IH _ He' _ _ _ E).
Qed.

Lemma returns__parse_comma_list {A} (P : A -> bool) stop
    (parsemethod : M A) fuel :
  respects parsemethod -> returns_only P parsemethod ->
  returns_only (fun r => forallb P (fst r))
    (_parse_comma_list stop parsemethod fuel).
Proof.
  intros Rp Hp v [r last] v' E.
  rewrite run__parse_comma_list in E by assumption.
  destruct v as [|t v1]; [discriminate|].
  destruct (info_eqb (info t) ("OP", stop)); [now inversion E; subst|].
  exact (@returns__parse_comma_list_loop _ P stop parsemethod Rp Hp fuel
           [] eq_refl _ _ _ E).
Qed.

Lemma returns_parse_expression_loop (parse_expression : M Node) :
  respects parse_expression ->
  returns_only expression_node parse_expression ->
  forall fuel result,
    expression_node result = true ->
    returns_only expression_node
      (parse_expression_loop parse_expression fuel result).
Proof.
  intros Rp Hp fuel.
  induction fuel as [|fuel IH]; intros result Hr v n v' E.
  - cbn [parse_expression_loop] in E. rewrite run_out_of_fuel in E.
    discriminate.
  - rewrite run_parse_expression_loop_S in E by assumption.
    destruct v as [|t v1]; [discriminate|].
    destruct (negb (kind t =? "OP") || negb (value t =? "("));
      [now inversion E; subst|].
    destruct (run (_parse_comma_list ")" parse_expression fuel) v1)
      as [[[arguments last]|e|] v2] eqn:El; cbn [then_run] in E;
      try discriminate.
    apply (@returns__parse_comma_list _ expression_node ")"
             parse_expression fuel Rp Hp) in El.
    cbn [fst snd] in El, E.
    refine (IH _ _ _ _ _ E). cbn [expression_node].
    now rewrite Hr, El.
Qed.

Lemma returns_parse_expression fuel :
  returns_only expression_node (parse_expression fuel).
Proof.
  induction fuel as [|fuel IH]; intros v n v' E.
  - cbn [parse_expression] in E. rewrite run_out_of_fuel in E.
    discriminate.
  - rewrite run_parse_expression_S in E.
    destruct v as [|t v0]; [discriminate|].
    assert (Hprimary : forall m : M Node,
      returns_only expression_node m ->
      then_run (run m (t :: v0))
        (fun result =>
           run (parse_expression_loop (parse_expression fuel) fuel result))
      = (Returned n, v') -> expression_node n = true).
    { intros m Hm E'.
      destruct (run m (t :: v0)) as [[result|e|] v1] eqn:Em;
        cbn [then_run] in E'; try discriminate.
      apply Hm in Em.
      exact (@returns_parse_expression_loop (parse_expression fuel)
               (respects_parse_expression fuel) IH fuel result Em _ _ _
               E'). }
    destruct (kind t =? "NAME").
    { refine (Hprimary (parse_name true) _ E). intros v1 n1 v1' E1.
      apply name_node_expression. exact (@returns_parse_name _ _ _ E1). }
    destruct (kind t =? "STRING");
      [exact (Hprimary _ returns_parse_string E)|].
    destruct (kind t =? "INTEGER");
      [exact (Hprimary _ returns_parse_integer E)|].
    discriminate.
Qed.

Lemma returns_body_loop (parse_statement : M Node) :
  respects parse_statement ->
  returns_only statement_node parse_statement ->
  forall fuel body,
    forallb statement_node body = true ->
    returns_only (forallb statement_node)
      (body_loop parse_statement fuel body).
Proof.
  intros Rp Hp fuel.
  induction fuel as [|fuel IH]; intros body Hb v r v' E;
    cbn [body_loop] in E.
  - rewrite run_out_of_fuel in E. discriminate.
  - run_inv E as t v1 E1.
    destruct (negb (info_eqb (info t) ("OP", "}"))).
    + run_inv E as statement v2 E2. apply Hp in E2.
      refine (IH _ _ _ _ _ E).
      rewrite forallb_app, Hb. cbn [forallb]. now rewrite E2.
    + apply run_ret_inv in E. now destruct E as [-> _].
Qed.

Lemma returns_parse_expression_statement fuel :
  returns_only statement_node (parse_expression_statement fuel).
Proof.
  intros v n v' E. unfold parse_expression_statement in E.
  run_inv E as value_ v1 E1. run_inv E as semicolon v2 E2.
  apply run_ret_inv in E. destruct E as [-> _].
  exact (@returns_parse_expression _ _ _ _ E1).
Qed.

Lemma returns_assignment fuel :
  returns_only statement_node (assignment fuel).
Proof.
  intros v n v' E. unfold assignment in E.
  run_inv E as variable v1 E1. run_inv E as equals v2 E2.
  run_inv E as value_ v3 E3. run_inv E as semicolon v4 E4.
  apply run_ret_inv in E. destruct E as [-> _]. cbn [statement_node].
  now rewrite (@returns_parse_name _ _ _ E1), (@returns_parse_expression _ _ _ _ E3).
Qed.

Lemma returns_parse_return fuel :
  returns_only statement_node (parse_return fuel).
Proof.
  intros v n v' E. unfold parse_return in E.
  run_inv E as the_return v1 E1. run_inv E as value_ v2 E2.
  run_inv E as semicolon v3 E3.
  apply run_ret_inv in E. destruct E as [-> _].
  exact (@returns_parse_expression _ _ _ _ E2).
Qed.

Lemma returns_parse_declaration fuel :
  returns_only statement_node (parse_declaration fuel).
Proof.
  intros v n v' E. unfold parse_declaration in E.
  run_inv E as tn v1 E1. destruct tn as [datatype variable_name].
  run_inv E as third_thing v2 E2.
  apply returns__type_and_name in E1. unfold argument_pair in E1.
  cbn [fst snd] in E1.
  destruct (value third_thing =? ";").
  - cbv zeta in E. apply run_ret_inv in E. destruct E as [-> _].
    cbn [statement_node]. now rewrite E1.
  - run_inv E as initial_value v3 E3. run_inv E as semicolon v4 E4.
    apply run_ret_inv in E. destruct E as [-> _].
    cbn [statement_node].
    now rewrite E1, (@returns_parse_expression _ _ _ _ E3).
Qed.

Lemma returns_parse_if (parse_statement : M Node) fuel :
  respects parse_statement ->
  returns_only statement_node parse_statement ->
  returns_only statement_node (parse_if parse_statement fuel).
Proof.
  intros Rp Hp v n v' E. unfold parse_if in E.
  run_inv E as the_if v1 E1. run_inv E as condition v2 E2.
  run_inv E as brace v3 E3. run_inv E as body v4 E4.
  run_inv E as closing_brace v5 E5.
  apply run_ret_inv in E. destruct E as [-> _]. cbn [statement_node].
  rewrite (@returns_parse_expression _ _ _ _ E2).
  exact (@returns_body_loop parse_statement Rp Hp fuel [] eq_refl _ _ _
           E4).
Qed.

Lemma returns_parse_function_def (parse_statement : M Node) fuel :
  respects parse_statement ->
  returns_only statement_node parse_statement ->
  returns_only statement_node (parse_function_def parse_statement fuel).
Proof.
  intros Rp Hp v n v' E. unfold parse_function_def in E.
  run_inv E as function_keyword v1 E1. run_inv E as name v2 E2.
  run_inv E as paren v3 E3. run_inv E as aj v4 E4.
  destruct aj as [arguments junk].
  run_inv E as t v5 E5. run_inv E as returntype v6 E6.
  run_inv E as before_body v7 E7. run_inv E as body v8 E8.
  run_inv E as closing_brace v9 E9.
  apply run_ret_inv in E. destruct E as [-> _]. cbn [statement_node].
  apply returns_parse_name in E2.
  apply (@returns__parse_comma_list _ argument_pair ")" _type_and_name
           fuel respects__type_and_name returns__type_and_name) in E4.
  cbn [fst] in E4.
  apply (@returns_body_loop parse_statement Rp Hp fuel [] eq_refl) in E8.
  assert (Hr : match returntype with
               | Some r => name_node r
               | None => true
               end = true).
  { destruct (info_eqb (info t) ("NAME", "returns")).
    - run_inv E6 as popped v10 E10. run_inv E6 as r v11 E11.
      apply run_ret_inv in E6. destruct E6 as [-> _].
      exact (@returns_parse_name _ _ _ E11).
    - apply run_ret_inv in E6. now destruct E6 as [-> _]. }
  rewrite E4, E8, Hr.
  destruct name; cbn [name_node] in E2; try discriminate.
  cbn [Node_name]. now rewrite E2.
Qed.

Lemma returns_parse_statement fuel :
  returns_only statement_node (parse_statement fuel).
Proof.
  induction fuel as [|fuel IH]; intros v n v' E.
  - cbn [parse_statement] in E. rewrite run_out_of_fuel in E.
    discriminate.
  - assert (Rp : respects (parse_statement fuel))
      by apply respects_parse_statement.
    rewrite parse_statement_S in E.
    run_inv E as t1 v1 E1.
    destruct (kind t1 =? "NAME");
      [|exact (@returns_parse_expression_statement _ _ _ _ E)].
    run_inv E as t2 v2 E2.
    destruct (value t2 =? "return"); [exact (@returns_parse_return _ _ _ _ E)|].
    run_inv E as t3 v3 E3.
    destruct (value t3 =? "if"); [exact (@returns_parse_if _ _ Rp IH _ _ _ E)|].
    run_inv E as t4 v4 E4.
    destruct (value t4 =? "function");
      [exact (@returns_parse_function_def _ _ Rp IH _ _ _ E)|].
    run_inv E as after_name v5 E5.
    destruct (info_eqb (info after_name) ("OP", "="));
      [exact (@returns_assignment _ _ _ _ E)|].
    destruct (kind after_name =? "NAME");
      [exact (@returns_parse_declaration _ _ _ _ E)|].
    exact (@returns_parse_expression_statement _ _ _ _ E).
Qed.

(** X7: what [parse_statement] returns is a statement node, down to its
    leaves: an [ExpressionStatement], [Declaration], [Assignment], [If],
    [FunctionDef] or [Return] whose expressions are names, literals and
    calls, whose bodies are statements again, and whose names (of
    variables, types, functions and arguments) are not in [KEYWORDS].
    No [DecRef] node is built anywhere, and no bare expression comes out
    as a statement. *)
Theorem parse_statement_returns_a_statement
    (fuel : nat) (v : list Token) (n : Node) (v' : list Token) :
  run (parse_statement fuel) v = (Returned n, v') ->
  statement_node n = true
  /\ expression_node n = false
  /\ (forall name s e, n <> DecRef name s e).
Proof.
  intro E. pose proof (@returns_parse_statement fuel v n v' E) as H.
  split; [exact H|].
  destruct n; cbn [statement_node] in H; try discriminate;
    (split; [reflexivity|intros; discriminate]).
Qed.

(** X8: what [parse_expression] returns is an expression node, down to its
    leaves: a [Name] that is not in [KEYWORDS], an [Integer], a [String],
    or a [FunctionCall] of an expression on expressions. *)
Theorem parse_expression_returns_an_expression
    (fuel : nat) (v : list Token) (n : Node) (v' : list Token) :
  run (parse_expression fuel) v = (Returned n, v') ->
  expression_node n = true /\ statement_node n = false.
Proof.
  intro E. pose proof (@returns_parse_expression fuel v n v' E) as H.
  split; [exact H|].
  destruct n; cbn [expression_node] in H; try discriminate; reflexivity.
Qed.

(** ** The tokens of a statement *)

Lemma check_and_pop_kind k x v t v' :
  run (check_and_pop k x) v = (Returned t, v') -> kind t = k.
Proof.
  rewrite run_check_and_pop. destruct v as [|t0 v0]; [discriminate|].
  destruct (kind t0 =? k) eqn:Ek; cbn [negb]; [|discriminate].
  apply String.eqb_eq in Ek.
  destruct x as [x|];
    [destruct (negb (value t0 =? x)); [discriminate|]|];
    intro E; now inversion E; subst.
Qed.

Lemma check_and_pop_value k x v t v' :
  run (check_and_pop k (Some x)) v = (Returned t, v') -> value t = x.
Proof.
  rewrite run_check_and_pop. destruct v as [|t0 v0]; [discriminate|].
  destruct (negb (kind t0 =? k)); [discriminate|].
  destruct (value t0 =? x) eqn:Ev; cbn [negb]; [|discriminate].
  apply String.eqb_eq in Ev. intro E. now inversion E; subst.
Qed.

Lemma consumes_inv_strict {A} (m : M A) v a v' :
  consumes true m -> run m v = (Returned a, v') ->
  exists t ys, v = (t :: ys) ++ v'.
Proof.
  intros H E. destruct (H v a v' E) as (ys & -> & Hs & _).
  destruct ys as [|t ys]; [now elim (Hs eq_refl)|]. now exists t, ys.
Qed.

Lemma terminated_intro first middle last :
  kind last = "OP" -> value last = ";" \/ value last = "}" ->
  terminated (first :: middle ++ [last]).
Proof. intros Hk Hv. now exists first, middle, last. Qed.

Lemma terminated_parse_expression_statement fuel v n v' :
  run (parse_expression_statement fuel) v = (Returned n, v') ->
  exists ys, v = ys ++ v' /\ terminated ys.
Proof.
  unfold parse_expression_statement. intro E.
  run_inv E as value_ v1 E1. run_inv E as semicolon v2 E2.
  apply run_ret_inv in E. destruct E as [_ ->].
  apply consumes_inv_strict in E1; [|apply consumes_parse_expression].
  destruct E1 as (t & ys & ->).
  pose proof (check_and_pop_kind E2) as Hk.
  pose proof (check_and_pop_value E2) as Hv.
  apply check_and_pop_inv in E2. subst v1.
  exists (t :: ys ++ [semicolon]). split; [list_eq|].
  apply terminated_intro; auto.
Qed.

Lemma terminated_assignment fuel v n v' :
  run (assignment fuel) v = (Returned n, v') ->
  exists ys, v = ys ++ v' /\ terminated ys.
Proof.
  unfold assignment. intro E.
  run_inv E as variable v1 E1. run_inv E as equals v2 E2.
  run_inv E as value_ v3 E3. run_inv E as semicolon v4 E4.
  apply run_ret_inv in E. destruct E as [_ ->].
  apply parse_name_inv in E1. destruct E1 as (t & -> & _).
  apply check_and_pop_inv in E2. subst v1.
  apply consumes_inv with (s := true) in E3;
    [|apply consumes_parse_expression].
  destruct E3 as (ys & ->).
  pose proof (check_and_pop_kind E4) as Hk.
  pose proof (check_and_pop_value E4) as Hv.
  apply check_and_pop_inv in E4. subst v3.
  exists (t :: (equals :: ys) ++ [semicolon]). split; [list_eq|].
  apply terminated_intro; auto.
Qed.

Lemma terminated_parse_return fuel v n v' :
  run (parse_return fuel) v = (Returned n, v') ->
  exists ys, v = ys ++ v' /\ terminated ys.
Proof.
  unfold parse_return. intro E.
  run_inv E as the_return v1 E1. run_inv E as value_ v2 E2.
  run_inv E as semicolon v3 E3.
  apply run_ret_inv in E. destruct E as [_ ->].
  apply check_and_pop_inv in E1. subst v.
  apply consumes_inv with (s := true) in E2;
    [|apply consumes_parse_expression].
  destruct E2 as (ys & ->).
  pose proof (check_and_pop_kind E3) as Hk.
  pose proof (check_and_pop_value E3) as Hv.
  apply check_and_pop_inv in E3. subst v2.
  exists (the_return :: ys ++ [semicolon]). split; [list_eq|].
  apply terminated_intro; auto.
Qed.

Lemma terminated_parse_declaration fuel v n v' :
  run (parse_declaration fuel) v = (Returned n, v') ->
  exists ys, v = ys ++ v' /\ terminated ys.
Proof.
  unfold parse_declaration. intro E.
  run_inv E as tn v1 E1. destruct tn as [datatype variable_name].
  run_inv E as third_thing v2 E2.
  apply _type_and_name_inv in E1. destruct E1 as (t1 & t2 & -> & _).
  pose proof (check_and_pop_kind E2) as Hk3.
  apply check_and_pop_inv in E2. subst v1.
  destruct (value third_thing =? ";") eqn:E3.
  - cbv zeta in E. apply run_ret_inv in E. destruct E as [_ ->].
    apply String.eqb_eq in E3.
    exists (t1 :: [t2] ++ [third_thing]). split; [reflexivity|].
    apply terminated_intro; auto.
  - run_inv E as initial_value v3 E4. run_inv E as semicolon v4 E5.
    apply run_ret_inv in E. destruct E as [_ ->].
    apply consumes_inv with (s := true) in E4;
    [|apply consumes_parse_expression].
  destruct E4 as (ys & ->).
    pose proof (check_and_pop_kind E5) as Hk.
    pose proof (check_and_pop_value E5) as Hv.
    apply check_and_pop_inv in E5. subst v3.
    exists (t1 :: (t2 :: third_thing :: ys) ++ [semicolon]).
    split; [list_eq|]. apply terminated_intro; auto.
Qed.

Lemma terminated_parse_if (parse_statement : M Node) fuel v n v' :
  respects parse_statement -> consumes false parse_statement ->
  run (parse_if parse_statement fuel) v = (Returned n, v') ->
  exists ys, v = ys ++ v' /\ terminated ys.
Proof.
  intros Rp Hp. unfold parse_if. intro E.
  run_inv E as the_if v1 E1. run_inv E as condition v2 E2.
  run_inv E as brace v3 E3. run_inv E as body v4 E4.
  run_inv E as closing_brace v5 E5.
  apply run_ret_inv in E. destruct E as [_ ->].
  apply check_and_pop_inv in E1. subst v.
  apply consumes_inv with (s := true) in E2;
    [|apply consumes_parse_expression].
  destruct E2 as (ys & ->).
  apply check_and_pop_inv in E3. subst v2.
  apply consumes_inv with (s := false) in E4;
    [|now apply consumes_body_loop].
  destruct E4 as (zs & ->).
  pose proof (check_and_pop_kind E5) as Hk.
  pose proof (check_and_pop_value E5) as Hv.
  apply check_and_pop_inv in E5. subst v4.
  exists (the_if :: (ys ++ brace :: zs) ++ [closing_brace]).
  split; [list_eq|]. apply terminated_intro; auto.
Qed.

Lemma terminated_parse_function_def (parse_statement : M Node) fuel v n
    v' :
  respects parse_statement -> consumes false parse_statement ->
  run (parse_function_def parse_statement fuel) v = (Returned n, v') ->
  exists ys, v = ys ++ v' /\ terminated ys.
Proof.
  intros Rp Hp. unfold parse_function_def. intro E.
  run_inv E as function_keyword v1 E1. run_inv E as name v2 E2.
  run_inv E as paren v3 E3. run_inv E as aj v4 E4.
  destruct aj as [arguments junk].
  run_inv E as t v5 E5. run_inv E as returntype v6 E6.
  run_inv E as before_body v7 E7. run_inv E as body v8 E8.
  run_inv E as closing_brace v9 E9.
  apply run_ret_inv in E. destruct E as [_ ->].
  apply check_and_pop_inv in E1. subst v.
  apply consumes_inv with (s := true) in E2; [|apply consumes_parse_name].
  destruct E2 as (ys2 & ->).
  apply check_and_pop_inv in E3. subst v2.
  apply consumes_inv with (s := true) in E4;
    [|apply consumes__parse_comma_list;
      [apply respects__type_and_name
      |apply consumes_weak, consumes__type_and_name]].
  destruct E4 as (ys4 & ->).
  apply coming_up_1_inv in E5. subst v5.
  apply consumes_inv with (s := false) in E6; [|consumes_tac].
  destruct E6 as (ys6 & ->).
  apply check_and_pop_inv in E7. subst v6.
  apply consumes_inv with (s := false) in E8;
    [|now apply consumes_body_loop].
  destruct E8 as (ys8 & ->).
  pose proof (check_and_pop_kind E9) as Hk.
  pose proof (check_and_pop_value E9) as Hv.
  apply check_and_pop_inv in E9. subst v8.
  exists (function_keyword
            :: (ys2 ++ paren :: ys4 ++ ys6 ++ before_body :: ys8)
            ++ [closing_brace]).
  split; [list_eq|]. apply terminated_intro; auto.
Qed.

(** As the comment in [parse_statement] has it, "there's always a
    semicolon and at least something before it": a statement that parses
    is made of two tokens at least, and its last token is the operator
    [;] or, for [if] and [function], the operator [}]. *)
Lemma terminated_parse_statement fuel v n v' :
  run (parse_statement fuel) v = (Returned n, v') ->
  exists ys, v = ys ++ v' /\ terminated ys.
Proof.
  destruct fuel as [|fuel]; intro E.
  - cbn [parse_statement] in E. rewrite run_out_of_fuel in E.
    discriminate.
  - assert (Rp : respects (parse_statement fuel))
      by apply respects_parse_statement.
    assert (Hp : consumes false (parse_statement fuel))
      by apply consumes_weak, consumes_parse_statement.
    rewrite parse_statement_S in E.
    run_inv E as t1 v1 E1. apply coming_up_1_inv in E1. subst v1.
    destruct (kind t1 =? "NAME");
      [|now apply terminated_parse_expression_statement in E].
    run_inv E as t2 v2 E2. apply coming_up_1_inv in E2. subst v2.
    destruct (value t2 =? "return");
      [now apply terminated_parse_return in E|].
    run_inv E as t3 v3 E3. apply coming_up_1_inv in E3. subst v3.
    destruct (value t3 =? "if");
      [now apply terminated_parse_if in E|].
    run_inv E as t4 v4 E4. apply coming_up_1_inv in E4. subst v4.
    destruct (value t4 =? "function");
      [now apply terminated_parse_function_def in E|].
    run_inv E as after_name v5 E5. apply coming_up_2_inv in E5. subst v5.
    destruct (info_eqb (info after_name) ("OP", "="));
      [now apply terminated_assignment in E|].
    destruct (kind after_name =? "NAME");
      [now apply terminated_parse_declaration in E|].
    now apply terminated_parse_expression_statement in E.
Qed.

(** ** A statement does not depend on the tokens after it *)

Lemma looks_any_then {A B} (s1 s2 : bool) (m : M A) (k : A -> M B) :
  respects m -> (forall a, respects (k a)) ->
  looks any_rest s1 m -> (forall a, looks any_rest s2 (k a)) ->
  looks any_rest (s1 || s2) (bind m k).
Proof.
  intros Rm Rk Hm Hk.
  apply (looks_bind (R1 := any_rest) (s1 := s1) (s2 := s2));
    [exact Rm|exact Rk|exact Hm|exact Hk|apply any_rest_compat].
Qed.

Lemma looks_token_then {B} kind_ value_ (s : bool) (k : Token -> M B) :
  (forall t, respects (k t)) -> (forall t, looks any_rest s (k t)) ->
  looks any_rest true (bind (check_and_pop kind_ value_) k).
Proof.
  intros Rk Hk.
  apply (@looks_any_then _ _ true s);
    [apply respects_check_and_pop|exact Rk|apply looks_check_and_pop
    |exact Hk].
Qed.

Lemma looks_name_then {B} (s : bool) (k : Node -> M B) :
  (forall t, respects (k t)) -> (forall t, looks any_rest s (k t)) ->
  looks any_rest true (bind (parse_name true) k).
Proof.
  intros Rk Hk.
  apply (@looks_any_then _ _ true s);
    [apply respects_parse_name|exact Rk|apply looks_parse_name|exact Hk].
Qed.

(** A peek at the next token, before a call that consumes it. *)
Lemma looks_peek_then {B} (k : Token -> M B) :
  (forall t, respects (k t)) -> (forall t, looks any_rest true (k t)) ->
  looks any_rest true (bind (coming_up 1) k).
Proof.
  intros Rk Hk.
  apply (looks_bind (R1 := same_head) (s1 := false) (s2 := true));
    [apply respects_coming_up_1|exact Rk|apply looks_coming_up_1|exact Hk
    |apply same_head_compat_strict].
Qed.

(** An expression, which looks at the token after it, before a call
    that consumes that token. *)
Lemma looks_expression_then {B} fuel (k : Node -> M B) :
  (forall e, respects (k e)) -> (forall e, looks any_rest true (k e)) ->
  looks any_rest true (bind (parse_expression fuel) k).
Proof.
  intros Rk Hk.
  apply (looks_bind (R1 := same_head) (s1 := true) (s2 := true));
    [apply respects_parse_expression|exact Rk
    |apply looks_same_head_parse_expression|exact Hk
    |apply same_head_compat_strict].
Qed.

Lemma looks_parse_expression_statement fuel :
  looks any_rest true (parse_expression_statement fuel).
Proof.
  unfold parse_expression_statement.
  apply looks_expression_then; [respects_tac|intro value_].
  apply looks_token_then with (s := false); [respects_tac|intro semicolon].
  apply looks_ret.
Qed.

Lemma looks_assignment fuel : looks any_rest true (assignment fuel).
Proof.
  unfold assignment.
  apply looks_name_then with (s := true); [respects_tac|intro variable].
  apply looks_token_then with (s := true); [respects_tac|intros _].
  apply looks_expression_then; [respects_tac|intro value_].
  apply looks_token_then with (s := false); [respects_tac|intro semicolon].
  apply looks_ret.
Qed.

Lemma looks_parse_return fuel : looks any_rest true (parse_return fuel).
Proof.
  unfold parse_return.
  apply looks_token_then with (s := true); [respects_tac|intro the_return].
  apply looks_expression_then; [respects_tac|intro value_].
  apply looks_token_then with (s := false); [respects_tac|intro semicolon].
  apply looks_ret.
Qed.

Lemma looks_parse_declaration fuel :
  looks any_rest true (parse_declaration fuel).
Proof.
  unfold parse_declaration.
  apply (@looks_any_then _ _ true false);
    [respects_tac|respects_tac|apply looks__type_and_name|].
  intros [datatype variable_name].
  apply looks_weaken with (R := any_rest) (s := true);
    [|auto|discriminate].
  apply looks_token_then with (s := false);
    [respects_tac|intro third_thing].
  destruct (value third_thing =? ";"); [apply looks_ret|].
  apply looks_weaken with (R := any_rest) (s := true);
    [|auto|discriminate].
  apply looks_expression_then; [respects_tac|intro initial_value].
  apply looks_token_then with (s := false); [respects_tac|intro semicolon].
  apply looks_ret.
Qed.

(** The loop of a body looks at the token after the last statement: the
    closing brace, which the caller consumes. *)
Lemma looks_body_loop (parse_statement : M Node) :
  respects parse_statement -> looks any_rest true parse_statement ->
  forall fuel body,
    looks same_head false (body_loop parse_statement fuel body).
Proof.
  intros Rp Hp fuel.
  induction fuel as [|fuel IH]; intro body; cbn [body_loop];
    [apply looks_out_of_fuel|].
  apply (looks_bind (R1 := same_head) (s1 := false) (s2 := false));
    [respects_tac|respects_tac|apply looks_coming_up_1|intro t
    |apply same_head_compat].
  destruct (negb (info_eqb (info t) ("OP", "}"))); [|apply looks_ret].
  apply looks_weaken with (R := same_head) (s := true);
    [|auto|discriminate].
  apply (looks_bind (R1 := any_rest) (s1 := true) (s2 := false));
    [respects_tac|respects_tac|exact Hp|intro statement; apply IH
    |apply any_rest_compat].
Qed.

Lemma looks_body_then {B} (parse_statement : M Node) fuel
    (k : list Node -> M B) :
  respects parse_statement -> looks any_rest true parse_statement ->
  (forall b, respects (k b)) -> (forall b, looks any_rest true (k b)) ->
  looks any_rest true (bind (body_loop parse_statement fuel []) k).
Proof.
  intros Rp Hp Rk Hk.
  apply (looks_bind (R1 := same_head) (s1 := false) (s2 := true));
    [respects_tac|exact Rk|now apply looks_body_loop|exact Hk
    |apply same_head_compat_strict].
Qed.

Lemma looks_parse_if (parse_statement : M Node) fuel :
  respects parse_statement -> looks any_rest true parse_statement ->
  looks any_rest true (parse_if parse_statement fuel).
Proof.
  intros Rp Hp. unfold parse_if.
  apply looks_token_then with (s := true); [respects_tac|intro the_if].
  apply looks_expression_then; [respects_tac|intro condition].
  apply looks_token_then with (s := true); [respects_tac|intros _].
  apply looks_body_then; [exact Rp|exact Hp|respects_tac|intro body].
  apply looks_token_then with (s := false);
    [respects_tac|intro closing_brace].
  apply looks_ret.
Qed.

Lemma looks_parse_function_def (parse_statement : M Node) fuel :
  respects parse_statement -> looks any_rest true parse_statement ->
  looks any_rest true (parse_function_def parse_statement fuel).
Proof.
  intros Rp Hp. unfold parse_function_def.
  apply looks_token_then with (s := true);
    [respects_tac|intro function_keyword].
  apply looks_name_then with (s := true); [respects_tac|intro name].
  apply looks_token_then with (s := true); [respects_tac|intros _].
  apply (@looks_any_then _ _ true true);
    [respects_tac|respects_tac| |].
  { apply looks__parse_comma_list; [apply respects__type_and_name|].
    apply looks_weaken with (R := any_rest) (s := true);
      [apply looks__type_and_name|intros; exact I|discriminate]. }
  intros [arguments junk].
  apply looks_peek_then; [respects_tac|intro t].
  apply (@looks_any_then _ _ false true); [respects_tac|respects_tac| |].
  { destruct (info_eqb (info t) ("NAME", "returns")); [|apply looks_ret].
    apply looks_weaken with (R := any_rest) (s := true);
      [|auto|discriminate].
    apply (@looks_any_then _ _ true true);
      [respects_tac|respects_tac|apply looks_pop|intros _].
    apply looks_name_then with (s := false); [respects_tac|intro r].
    apply looks_ret. }
  intro returntype.
  apply looks_token_then with (s := true);
    [respects_tac|intro before_body].
  apply looks_body_then; [exact Rp|exact Hp|respects_tac|intro body].
  apply looks_token_then with (s := false);
    [respects_tac|intro closing_brace].
  apply looks_ret.
Qed.

(** The peek two tokens ahead of [parse_statement] stays inside the
    statement, since that has two tokens at least. *)
Lemma looks_coming_up_2_then (k : Token -> M Node) :
  (forall a, respects (k a)) ->
  (forall a, looks any_rest true (k a)) ->
  (forall a v n v',
      run (k a) v = (Returned n, v') ->
      exists ys, v = ys ++ v' /\ terminated ys) ->
  looks any_rest true (bind (coming_up 2) k).
Proof.
  intros Rk Hk Tk v n v' E.
  run_inv E as a v1 E1.
  pose proof (coming_up_2_inv E1). subst v1.
  destruct (Hk a v n v' E) as (ys & Ev & Hs & L).
  destruct (Tk a v n v' E)
    as (ys' & Ev' & (first & middle & last & -> & _)).
  rewrite Ev in Ev'. apply app_inv_tail in Ev'. subst ys.
  exists (first :: middle ++ [last]).
  split; [exact Ev|]. split; [discriminate|].
  intros w _. rewrite run_bind by (try exact Rk; respects_tac).
  rewrite run_coming_up_2 in E1 |- *. subst v.
  destruct middle as [|m middle']; cbn [app] in E1 |- *;
    inversion E1; subst; cbn [then_run]; apply L; exact I.
Qed.

Lemma looks_parse_statement fuel : looks any_rest true (parse_statement fuel).
Proof.
  induction fuel as [|fuel IH];
    [cbn [parse_statement]; apply looks_out_of_fuel|].
  assert (Rp : respects (parse_statement fuel))
    by apply respects_parse_statement.
  rewrite parse_statement_S.
  apply looks_peek_then; [respects_tac|intro t1].
  destruct (kind t1 =? "NAME"); [|apply looks_parse_expression_statement].
  apply looks_peek_then; [respects_tac|intro t2].
  destruct (value t2 =? "return"); [apply looks_parse_return|].
  apply looks_peek_then; [respects_tac|intro t3].
  destruct (value t3 =? "if"); [now apply looks_parse_if|].
  apply looks_peek_then; [respects_tac|intro t4].
  destruct (value t4 =? "function"); [now apply looks_parse_function_def|].
  apply looks_coming_up_2_then.
  - respects_tac.
  - intro after_name.
    destruct (info_eqb (info after_name) ("OP", "="));
      [apply looks_assignment|].
    destruct (kind after_name =? "NAME");
      [apply looks_parse_declaration
      |apply looks_parse_expression_statement].
  - intros after_name v n v' E.
    destruct (info_eqb (info after_name) ("OP", "="));
      [now apply terminated_assignment in E|].
    destruct (kind after_name =? "NAME");
      [now apply terminated_parse_declaration in E
      |now apply terminated_parse_expression_statement in E].
Qed.

Lemma statement_on_any_rest (ys w w' : list Token) (n : Node) :
  statement_on (ys ++ w) = (Returned n, w) ->
  statement_on (ys ++ w') = (Returned n, w').
Proof.
  unfold statement_on. intro E.
  set (F := S (length (ys ++ w) + length (ys ++ w'))).
  assert (E1 : run (parse_statement F) (ys ++ w) = (Returned n, w)).
  { rewrite <- E. apply parse_statement_fuel; unfold F; lia. }
  destruct (@looks_parse_statement F _ _ _ E1) as (ys' & Ey & _ & L).
  apply app_inv_tail in Ey. subst ys'.
  rewrite <- (L w' I). apply parse_statement_fuel; unfold F; lia.
Qed.

(** X9: a statement that parses from the tokens [ys], with [w] after them,
    parses to the same node from [ys] with anything else, or nothing,
    after them: [parse_statement] reads no token past the [;] or [}]
    that ends the statement.  The tokens [ys] are two at least and end
    with that [;] or [}]. *)
Theorem statement_does_not_depend_on_what_follows
    (ys w : list Token) (n : Node) :
  statement_on (ys ++ w) = (Returned n, w) ->
  terminated ys
  /\ forall w', statement_on (ys ++ w') = (Returned n, w').
Proof.
  intro E. split; [|intro w'; now apply statement_on_any_rest with w].
  unfold statement_on in E.
  destruct (@terminated_parse_statement _ _ _ _ E) as (ys' & Ey & Ht).
  apply app_inv_tail in Ey. now subst ys'.
Qed.

(** ** The generator of [parse_file] *)

(** One turn of the loop of [parse_file], on the pending tokens. *)
Lemma iterate_parse_S (f : nat) (v : list Token) :
  iterate (S f) (parse v) =
  match v with
  | [] => ([], Returned tt)
  | _ :: _ =>
      match statement_on v with
      | (Returned n, v') =>
          let '(nodes, ending) := iterate f (parse v') in
          (n :: nodes, ending)
      | (Raised e, _) => ([], Raised e)
      | (OutOfFuel, _) => ([], OutOfFuel)
      end
  end.
Proof.
  cbn [iterate]. unfold generator_next, parse, parse_file.
  cbn [gi_finished gi_parser].
  pose proof (@observe_coming_up 1 (_Parser v) ltac:(lia)) as Hc.
  change (view (_Parser v)) with v in Hc.
  change (Z.to_nat (1 - 1)) with 0 in Hc.
  destruct (coming_up 1 (_Parser v)) as [r c1].
  unfold observe in Hc. cbn [fst snd] in Hc. injection Hc as Hr Hv.
  destruct v as [|t v0]; cbn [nth_error] in Hr; subst r;
    [reflexivity|].
  cbv beta iota.
  pose proof (respects_parse_statement (S (remaining c1)) c1) as Hs.
  unfold observe, remaining in Hs |- *. rewrite Hv in Hs |- *.
  change (run (parse_statement (S (length (t :: v0)))) (t :: v0))
    with (statement_on (t :: v0)) in Hs.
  destruct (parse_statement (S (length (t :: v0))) c1) as [r2 c2].
  cbn [fst snd] in Hs. rewrite <- Hs.
  destruct r2 as [node|e|]; cbv beta iota; try reflexivity.
  rewrite (@iterate_same_pending f
             {| gi_parser := c2; gi_finished := false |}
             (parse_file (_Parser (view c2))));
    [reflexivity|now split].
Qed.

Lemma statement_on_shorter (v : list Token) (n : Node) (v' : list Token) :
  statement_on v = (Returned n, v') -> length v' < length v.
Proof.
  unfold statement_on. intro E.
  now apply (consumes_length (consumes_parse_statement _) E).
Qed.

Lemma statement_on_not_out_of_fuel (v v' : list Token) :
  statement_on v <> (OutOfFuel, v').
Proof.
  unfold statement_on. intro E.
  destruct (@parse_statement_fuel v (S (length v)) (S (length v)))
    as [_ H]; [lia|lia|].
  apply H. now rewrite E.
Qed.

(** Every statement yielded uses up a token: as much fuel as there are
    tokens, and one more, is enough. *)
Lemma iterate_enough (f : nat) :
  forall v f',
    length v < f -> length v < f' ->
    iterate f (parse v) = iterate f' (parse v)
    /\ snd (iterate f (parse v)) <> OutOfFuel.
Proof.
  induction f as [|f IH]; intros v f' Hf Hf'; [lia|].
  destruct f' as [|f']; [lia|]. rewrite !iterate_parse_S.
  destruct v as [|t v0]; [split; [reflexivity|discriminate]|].
  destruct (statement_on (t :: v0)) as [[n|e|] v'] eqn:Es.
  - pose proof (statement_on_shorter Es) as Hl.
    destruct (IH v' f') as [Eq Hne]; [lia|lia|]. rewrite <- Eq.
    destruct (iterate f (parse v')) as [nodes ending].
    split; [reflexivity|exact Hne].
  - split; [reflexivity|discriminate].
  - now elim (statement_on_not_out_of_fuel Es).
Qed.

(** The loop of [parse_file]: it ends at the end of the input; before
    that it yields the node of the next statement and goes on with the
    tokens left, or raises what [parse_statement] raises. *)
Lemma iterate_all_parse (v : list Token) :
  iterate_all (parse v) =
  match v with
  | [] => ([], Returned tt)
  | _ :: _ =>
      match statement_on v with
      | (Returned n, v') =>
          (n :: fst (iterate_all (parse v')), snd (iterate_all (parse v')))
      | (Raised e, _) => ([], Raised e)
      | (OutOfFuel, _) => ([], OutOfFuel)
      end
  end.
Proof.
  unfold iterate_all at 1.
  change (remaining (gi_parser (parse v))) with (length v).
  rewrite iterate_parse_S. destruct v as [|t v0]; [reflexivity|].
  destruct (statement_on (t :: v0)) as [[n|e|] v'] eqn:Es;
    try reflexivity.
  pose proof (statement_on_shorter Es) as Hl.
  destruct (@iterate_enough (length (t :: v0)) v' (S (length v')))
    as [Eq _]; [lia|lia|].
  rewrite Eq. unfold iterate_all.
  change (remaining (gi_parser (parse v'))) with (length v').
  now destruct (iterate (S (length v')) (parse v')).
Qed.

(** X10: iterating [parse(tokens)] ends on every token sequence; when it
    ends with an exception, that is neither the [StopIteration] of the
    token iterator nor an [IndexError] of the deque; and the nodes
    yielded before the end are statements, each made of two tokens at
    least. *)
Theorem parse_file_ends (tokens : list Token) :
  snd (iterate_all (parse tokens)) <> OutOfFuel
  /\ (forall e, snd (iterate_all (parse tokens)) = Raised e ->
                 e <> StopIteration /\ e <> IndexError)
  /\ forallb statement_node (fst (iterate_all (parse tokens))) = true
  /\ 2 * length (fst (iterate_all (parse tokens))) <= length tokens.
Proof.
  induction tokens as [tokens IH] using (induction_ltof1 _ (@length _)).
  unfold ltof in IH. rewrite iterate_all_parse.
  destruct tokens as [|t v0].
  { cbn [fst snd forallb length]. repeat split; try discriminate. lia. }
  destruct (statement_on (t :: v0)) as [[n|e|] v'] eqn:Es;
    cbn [fst snd forallb length].
  - destruct (IH v' (statement_on_shorter Es)) as (H1 & H2 & H3 & H4).
    split; [exact H1|]. split; [exact H2|].
    unfold statement_on in Es.
    rewrite (@returns_parse_statement _ _ _ _ Es), H3.
    split; [reflexivity|].
    destruct (@terminated_parse_statement _ _ _ _ Es)
      as (ys & Ey & first & middle & last & -> & _).
    apply (f_equal (@length _)) in Ey. cbn [app length] in Ey.
    rewrite !length_app in Ey. cbn [length] in Ey. lia.
  - unfold statement_on in Es.
    split; [discriminate|]. split; [|split; [reflexivity|lia]].
    intros e' He. inversion He; subst e'.
    pose proof (@raises_parse_statement _ _ _ _ Es) as Hp.
    destruct e; cbn [parser_exception] in Hp; try contradiction;
      split; discriminate.
  - now elim (statement_on_not_out_of_fuel Es).
Qed.

(** X11: the statements of a token sequence that parses to its end come out
    first when more tokens follow: the generator then goes on with
    these as a fresh parser does, so parsing [v1 ++ v2] yields the nodes
    of [v1], then what parsing [v2] alone yields, and ends as that
    does. *)
Theorem parse_of_a_concatenation
    (v1 v2 : list Token) (nodes1 : list Node) :
  iterate_all (parse v1) = (nodes1, Returned tt) ->
  iterate_all (parse (v1 ++ v2))
  = (nodes1 ++ fst (iterate_all (parse v2)),
     snd (iterate_all (parse v2))).
Proof.
  revert nodes1.
  induction v1 as [v1 IH] using (induction_ltof1 _ (@length _)).
  unfold ltof in IH. intros nodes1 E. rewrite iterate_all_parse in E.
  destruct v1 as [|t v0].
  { inversion E; subst. cbn [app].
    now destruct (iterate_all (parse v2)). }
  destruct (statement_on (t :: v0)) as [[n|e|] v'] eqn:Es;
    try discriminate.
  pose proof (statement_on_shorter Es) as Hl.
  destruct (iterate_all (parse v')) as [nodes' ending'] eqn:E'.
  cbn [fst snd] in E. inversion E; subst nodes1 ending'. clear E.
  pose proof Es as Ey. unfold statement_on in Ey.
  apply consumes_inv_strict in Ey; [|apply consumes_parse_statement].
  destruct Ey as (t' & ys & Ey). rewrite Ey in Es |- *.
  rewrite <- app_assoc.
  rewrite iterate_all_parse. cbn [app].
  change (t' :: ys ++ v' ++ v2) with ((t' :: ys) ++ v' ++ v2).
  rewrite (@statement_on_any_rest (t' :: ys) v' (v' ++ v2) n Es).
  rewrite (IH v' Hl nodes' E'). reflexivity.
Qed.

(** ** Expressions *)

Lemma parse_expression_loop_at_the_end (h : M Node) :
  respects h -> looks same_head false h ->
  forall k r v e v',
    run (parse_expression_loop h k r) v = (Returned e, v') ->
    exists ys,
      v = ys ++ v'
      /\ run (parse_expression_loop h k r) ys = (Raised EOFError, []).
Proof.
  intros Rh Lh k.
  induction k as [|k IH]; intros r v e v' E.
  - cbn [parse_expression_loop] in E. rewrite run_out_of_fuel in E.
    discriminate.
  - rewrite run_parse_expression_loop_S in E by assumption.
    destruct v as [|t v1]; [discriminate|].
    destruct (negb (kind t =? "OP") || negb (value t =? "(")) eqn:Et.
    + inversion E; subst. exists []. split; [reflexivity|].
      now rewrite run_parse_expression_loop_S by assumption.
    + destruct (run (_parse_comma_list ")" h k) v1)
        as [[al|x|] v2] eqn:El; cbn [then_run] in E; try discriminate.
      destruct (@looks__parse_comma_list _ ")" h k Rh Lh _ _ _ El)
        as (zs & -> & _ & Lz).
      destruct (IH _ _ _ _ E) as (ys2 & -> & E2).
      exists (t :: zs ++ ys2). split; [list_eq|].
      rewrite run_parse_expression_loop_S by assumption.
      rewrite Et, (Lz ys2 I). cbn [then_run]. exact E2.
Qed.

(** X12: [parse_expression] always peeks at the token after the expression:
    when it returns, a token is left that is not an opening parenthesis,
    and on the tokens of the expression alone, with the input ending
    after them, it raises [EOFError] having consumed them all. *)
Theorem expression_needs_a_token_after_it
    (fuel : nat) (v : list Token) (n : Node) (v' : list Token) :
  run (parse_expression fuel) v = (Returned n, v') ->
  ends_expression v'
  /\ exists ys,
       v = ys ++ v' /\ ys <> []
       /\ run (parse_expression fuel) ys = (Raised EOFError, []).
Proof.
  intro E. split; [exact (proj2 (looks_parse_expression fuel) _ _ _ E)|].
  destruct fuel as [|fuel].
  { cbn [parse_expression] in E. rewrite run_out_of_fuel in E.
    discriminate. }
  rewrite run_parse_expression_S in E.
  destruct v as [|t v0]; [discriminate|].
  match type of E with
  | then_run ?P _ = _ => destruct P as [[r|x|] v1] eqn:EP
  end; cbn [then_run] in E; try discriminate.
  destruct (primary_one_token _ _ EP) as [-> Lp].
  destruct (@parse_expression_loop_at_the_end (parse_expression fuel)
              (respects_parse_expression fuel)
              (looks_same_head_false_parse_expression fuel) _ _ _ _ _ E)
    as (ys & -> & Ee).
  exists (t :: ys). split; [reflexivity|]. split; [discriminate|].
  rewrite run_parse_expression_S, (Lp ys). cbn [then_run]. exact Ee.
Qed.

(** X13: an expression node starts where the first token consumed for it
    starts and ends where the last one ends: for a call, at the start of
    the callee and at the end of the closing parenthesis of the last
    argument list. *)
Theorem expression_spans_its_tokens
    (fuel : nat) (v : list Token) (n : Node) (v' : list Token) :
  run (parse_expression fuel) v = (Returned n, v') ->
  exists first middle last,
    (v = first :: v' \/ v = first :: middle ++ last :: v')
    /\ Node_start n = start first
    /\ (v = first :: v' -> Node_end n = end_ first)
    /\ (v = first :: middle ++ last :: v' -> Node_end n = end_ last).
Proof.
  intro E.
  pose proof (consumes_length (consumes_parse_expression fuel) E) as [_ Hl].
  specialize (Hl eq_refl).
  destruct (@spanning_parse_expression fuel v n v' E)
    as (ys & -> & (first & tl & -> & Hs) & (front & last & Ey & He)).
  destruct front as [|f front]; cbn [app] in Ey; inversion Ey; subst.
  - exists last, [], last. split; [now left|]. split; [exact Hs|].
    split; [intros _; exact He|].
    intro H. apply (f_equal (@length _)) in H. cbn [app length] in H. lia.
  - exists f, front, last. split; [right; list_eq|].
    split; [exact Hs|]. split; [|intros _; exact He].
    intro H. apply (f_equal (@length _)) in H.
    cbn [app length] in H. rewrite !length_app in H. cbn [length] in H.
    lia.
Qed.

(** ** String literals *)

Lemma substring_0_append (body rest : string) :
  substring 0 (String.length body) (String.append body rest) = body.
Proof.
  induction body as [|c body IH]; cbn [String.length String.append].
  - now destruct rest.
  - cbn [substring]. now rewrite IH.
Qed.

Lemma length_append_one (body : string) (c : ascii) :
  String.length (String.append body (String.String c EmptyString))
  = S (String.length body).
Proof.
  induction body as [|c' body IH]; cbn [String.length String.append];
    [reflexivity|now rewrite IH].
Qed.

(** X14: [parse_string] takes any [STRING] token and cuts off the first and
    the last character of its text, [token.value[1:-1]], whatever they
    are: a text of a quote, a body and a quote gives the body, and a text
    of two characters or fewer gives the empty string. *)
Theorem parse_string_drops_first_and_last
    (t : Token) (rest : list Token) :
  kind t = "STRING" ->
  exists s,
    run parse_string (t :: rest)
    = (Returned (String s (start t) (end_ t)), rest)
    /\ (forall q1 q2 body,
          value t
          = String.String q1 (String.append body
                                (String.String q2 EmptyString)) ->
          s = body)
    /\ (String.length (value t) <= 2 -> s = EmptyString).
Proof.
  intro Hk. exists (slice_1_m1 (value t)).
  rewrite run_parse_string, Hk. cbn [String.eqb Ascii.eqb Bool.eqb negb].
  split; [reflexivity|]. unfold slice_1_m1. split.
  - intros q1 q2 body ->. cbn [String.length substring].
    rewrite length_append_one.
    replace (S (S (String.length body)) - 2) with (String.length body)
      by lia.
    apply substring_0_append.
  - intro Hl. destruct (value t) as [|c1 [|c2 [|c3 s']]];
      cbn [String.length] in Hl; try reflexivity. lia.
Qed.

(** ** The braces of [if] *)

(** X15: unlike [parse_function_def], [parse_if] asks for the opening brace:
    after [if] and a condition that parses, any other token (an operator
    other than the opening brace as well) fails the assertion of
    [check_and_pop] with that token, which stays pending. *)
Theorem if_requires_the_opening_brace
    (kw t : Token) (ys rest : list Token) (condition : Node) :
  info kw = ("NAME", "if") ->
  expression_on (ys ++ t :: rest) = (Returned condition, t :: rest) ->
  info t <> ("OP", "{") ->
  statement_on (kw :: ys ++ t :: rest)
  = (Raised (AssertionError_token t), t :: rest).
Proof.
  intros Hkw He Ht. unfold info in Hkw. injection Hkw as Hk Hv.
  unfold statement_on.
  remember (length (kw :: ys ++ t :: rest)) as F eqn:HF.
  cbn [length] in HF.
  cbn [parse_statement]. run_simpl. rewrite Hk.
  cbn [String.eqb Ascii.eqb Bool.eqb].
  run_simpl. rewrite Hv. cbn [String.eqb Ascii.eqb Bool.eqb].
  run_simpl. rewrite Hv. cbn [String.eqb Ascii.eqb Bool.eqb].
  unfold parse_if. run_step. rewrite run_check_and_pop, Hk, Hv.
  cbn [String.eqb Ascii.eqb Bool.eqb negb then_run].
  run_step. rewrite expression_on_fuel by lia. rewrite He.
  cbn [then_run]. run_step. rewrite run_check_and_pop.
  destruct (kind t =? "OP") eqn:Ek; cbn [negb then_run]; [|reflexivity].
  destruct (value t =? "{") eqn:Eb; cbn [negb then_run]; [|reflexivity].
  apply String.eqb_eq in Ek, Eb. elim Ht. unfold info. now rewrite Ek, Eb.
Qed.

(** ** The grammar of argument lists *)

(** The elements collected so far do not matter to the loop of a comma
    list. *)
Lemma _parse_comma_list_loop_elements {A} stop (parsemethod : M A) :
  respects parsemethod ->
  forall fuel acc1 acc2 v els last v',
    run (_parse_comma_list_loop stop parsemethod fuel acc1) v
    = (Returned (els, last), v') ->
    exists els',
      els = acc1 ++ els'
      /\ run (_parse_comma_list_loop stop parsemethod fuel acc2) v
         = (Returned (acc2 ++ els', last), v').
Proof.
  intros Rp fuel.
  induction fuel as [|fuel IH]; intros acc1 acc2 v els last v' E.
  - cbn [_parse_comma_list_loop] in E. rewrite run_out_of_fuel in E.
    discriminate.
  - rewrite run__parse_comma_list_loop_S in E |- * by assumption.
    destruct (run parsemethod v) as [[element|e|] v1];
      cbn [then_run] in E |- *; try discriminate.
    destruct v1 as [|t v2]; [discriminate|].
    destruct (info_eqb (info t) ("OP", stop));
      [inversion E; subst; now exists [element]|].
    destruct (negb (kind t =? "OP") || negb (value t =? ","));
      [discriminate|].
    destruct v2 as [|t' v3]; [discriminate|].
    destruct (info_eqb (info t') ("OP", stop));
      [inversion E; subst; now exists [element]|].
    destruct (IH _ (acc2 ++ [element]) _ _ _ _ E) as (els' & -> & E').
    exists (element :: els'). split; [list_eq|].
    rewrite E'. f_equal. f_equal. list_eq.
Qed.

Lemma arguments_on_fuel (v : list Token) (f k : nat) :
  length v < f -> length v < k ->
  run (_parse_comma_list ")" (parse_expression f) k) v = arguments_on v.
Proof.
  intros Hf Hk. unfold arguments_on.
  refine (proj1 (@agree__parse_comma_list _ ")" (length v)
                   (parse_expression f)
                   (parse_expression (S (length v))) k (S (length v))
                   _ _ _ _ Hk _ v (le_n _)));
    [apply respects_parse_expression|apply respects_parse_expression
    |apply agree_parse_expression; lia
    |apply consumes_weak, consumes_parse_expression|lia].
Qed.

(** An expression starts with no operator. *)
Lemma expression_on_head (v : list Token) (e : Node) (v' : list Token)
    (x : string) :
  expression_on v = (Returned e, v') ->
  exists t v0, v = t :: v0 /\ info_eqb (info t) ("OP", x) = false.
Proof.
  unfold expression_on. rewrite run_parse_expression_S.
  destruct v as [|t v0]; [discriminate|]. intro E. exists t, v0.
  split; [reflexivity|]. unfold info_eqb, info. cbn [fst snd].
  destruct (kind t =? "OP") eqn:Ek; [|reflexivity].
  apply String.eqb_eq in Ek. rewrite Ek in E.
  cbn [String.eqb Ascii.eqb Bool.eqb then_run] in E. discriminate.
Qed.

(** X16: the argument lists [_parse_comma_list] accepts, with
    [parse_expression] for the elements, follow the grammar in its
    comment: the closing parenthesis alone gives no element; an
    expression before the closing parenthesis gives that one; and an
    expression and a comma before a list that parses (the closing
    parenthesis alone as well, which is the trailing comma) give the
    expression's node in front of the nodes of that list. *)
Theorem argument_lists_follow_the_grammar :
  (forall close rest,
      info close = ("OP", ")") ->
      arguments_on (close :: rest) = (Returned ([], close), rest))
  /\ (forall ys close rest e,
        expression_on (ys ++ close :: rest) = (Returned e, close :: rest) ->
        info close = ("OP", ")") ->
        arguments_on (ys ++ close :: rest) = (Returned ([e], close), rest))
  /\ (forall ys comma v1 e elements last rest,
        expression_on (ys ++ comma :: v1) = (Returned e, comma :: v1) ->
        info comma = ("OP", ",") ->
        arguments_on v1 = (Returned (elements, last), rest) ->
        arguments_on (ys ++ comma :: v1)
        = (Returned (e :: elements, last), rest)).
Proof.
  split; [|split].
  - intros close rest Hc. unfold arguments_on.
    rewrite run__parse_comma_list by apply respects_parse_expression.
    apply info_eqb_eq in Hc. now rewrite Hc.
  - intros ys close rest e He Hc. apply info_eqb_eq in Hc.
    destruct (expression_on_head ")" He) as (t & v0 & Ev & Et).
    unfold arguments_on.
    rewrite run__parse_comma_list by apply respects_parse_expression.
    rewrite Ev at 1. rewrite Et.
    rewrite run__parse_comma_list_loop_S
      by apply respects_parse_expression.
    rewrite expression_on_fuel by lia. rewrite He. cbn [then_run app].
    now rewrite Hc.
  - intros ys comma v1 e elements last rest He Hc Ha.
    destruct (expression_on_head ")" He) as (t & v0 & Ev & Et).
    unfold info in Hc. injection Hc as Hck Hcv.
    rewrite <- (@arguments_on_fuel (ys ++ comma :: v1)
                  (S (length (ys ++ comma :: v1)))
                  (S (length (ys ++ comma :: v1)))) by lia.
    rewrite run__parse_comma_list by apply respects_parse_expression.
    rewrite Ev at 1. rewrite Et.
    rewrite run__parse_comma_list_loop_S
      by apply respects_parse_expression.
    rewrite expression_on_fuel by lia. rewrite He. cbn [then_run app].
    assert (Hcs : info_eqb (info comma) ("OP", ")") = false)
      by (unfold info_eqb, info; cbn [fst snd]; now rewrite Hck, Hcv).
    rewrite Hcs, Hck, Hcv.
    cbn [String.eqb Ascii.eqb Bool.eqb negb andb orb].
    assert (Hl : length v1 < length (ys ++ comma :: v1))
      by (rewrite length_app; cbn [length]; lia).
    rewrite <- (@arguments_on_fuel v1 (S (length (ys ++ comma :: v1)))
                  (length (ys ++ comma :: v1))) in Ha by lia.
    rewrite run__parse_comma_list in Ha
      by apply respects_parse_expression.
    destruct v1 as [|t' v3]; [discriminate|].
    destruct (info_eqb (info t') ("OP", ")")).
    { inversion Ha; subst. reflexivity. }
    destruct (@_parse_comma_list_loop_elements _ ")"
                (parse_expression (S (length (ys ++ comma :: t' :: v3))))
                (respects_parse_expression _) _ [] [e] _ _ _ _ Ha)
      as (els' & -> & E').
    exact E'.
Qed.

(** ** The grammar of the statements without a body *)

Ltac eqb_simpl :=
  cbn [String.eqb Ascii.eqb Bool.eqb negb andb orb then_run fst snd].

Lemma return_statement (kw semi : Token) (ys rest : list Token)
    (e : Node) :
  info kw = ("NAME", "return") ->
  expression_on (ys ++ semi :: rest) = (Returned e, semi :: rest) ->
  info semi = ("OP", ";") ->
  statement_on (kw :: ys ++ semi :: rest)
  = (Returned (Return e (start kw) (end_ semi)), rest).
Proof.
  intros Hkw He Hs. unfold info in Hkw, Hs.
  injection Hkw as Hk Hv. injection Hs as Hsk Hsv.
  unfold statement_on.
  remember (length (kw :: ys ++ semi :: rest)) as F eqn:HF.
  cbn [length] in HF.
  cbn [parse_statement]. run_simpl. rewrite Hk. eqb_simpl.
  run_simpl. rewrite Hv. eqb_simpl.
  unfold parse_return. run_step. rewrite run_check_and_pop, Hk, Hv.
  eqb_simpl. run_step. rewrite expression_on_fuel by lia. rewrite He.
  eqb_simpl. run_step. rewrite run_check_and_pop, Hsk, Hsv. eqb_simpl.
  now run_simpl.
Qed.

Lemma assignment_statement (name equals semi : Token)
    (ys rest : list Token) (e : Node) :
  kind name = "NAME" -> in_KEYWORDS (value name) = false ->
  value name <> "function" ->
  info equals = ("OP", "=") ->
  expression_on (ys ++ semi :: rest) = (Returned e, semi :: rest) ->
  info semi = ("OP", ";") ->
  statement_on (name :: equals :: ys ++ semi :: rest)
  = (Returned
       (Assignment (Name (value name) (start name) (end_ name)) e
          (start name) (end_ semi)),
     rest).
Proof.
  intros K W F1 Hq He Hs.
  apply in_KEYWORDS_false in W as W'. destruct W' as [Wr Wi].
  apply String.eqb_neq in F1. apply info_eqb_eq in Hq as Hq'.
  unfold info in Hq, Hs. injection Hq as Hqk Hqv.
  injection Hs as Hsk Hsv.
  unfold statement_on.
  remember (length (name :: equals :: ys ++ semi :: rest)) as F eqn:HF.
  cbn [length] in HF.
  cbn [parse_statement]. run_simpl. rewrite K. eqb_simpl.
  run_simpl. rewrite Wr. run_simpl. rewrite Wi. run_simpl. rewrite F1.
  run_simpl. rewrite Hq'.
  unfold assignment. run_step. rewrite run_parse_name, K, W. eqb_simpl.
  run_step. rewrite run_check_and_pop, Hqk, Hqv. eqb_simpl.
  run_step. rewrite expression_on_fuel by lia. rewrite He. eqb_simpl.
  run_step. rewrite run_check_and_pop, Hsk, Hsv. eqb_simpl.
  now run_simpl.
Qed.

Lemma declaration_statement (t1 t2 semi : Token) (rest : list Token) :
  kind t1 = "NAME" -> kind t2 = "NAME" ->
  in_KEYWORDS (value t1) = false -> in_KEYWORDS (value t2) = false ->
  value t1 <> "function" ->
  info semi = ("OP", ";") ->
  statement_on (t1 :: t2 :: semi :: rest)
  = (Returned
       (Declaration (Name (value t1) (start t1) (end_ t1)) (value t2) None
          (start t1) (end_ semi)),
     rest).
Proof.
  intros K1 K2 W1 W2 F1 Hs.
  apply in_KEYWORDS_false in W1 as W1'. destruct W1' as [Wr Wi].
  apply String.eqb_neq in F1.
  unfold info in Hs. injection Hs as Hsk Hsv.
  unfold statement_on.
  remember (length (t1 :: t2 :: semi :: rest)) as F eqn:HF.
  cbn [parse_statement]. run_simpl. rewrite K1. eqb_simpl.
  run_simpl. rewrite Wr. run_simpl. rewrite Wi. run_simpl. rewrite F1.
  run_simpl. unfold info_eqb, info. cbn [fst snd]. rewrite K2. eqb_simpl.
  unfold parse_declaration. run_step. rewrite run__type_and_name.
  rewrite run_parse_name, K1, W1. eqb_simpl.
  rewrite run_parse_name, K2, W2. eqb_simpl.
  run_step. rewrite run_check_and_pop, Hsk. eqb_simpl. rewrite Hsv.
  eqb_simpl. now run_simpl.
Qed.

(** After a name that parses as an expression comes an opening
    parenthesis or the token that follows the expression. *)
Lemma expression_after_a_name (t : Token) (ys rest : list Token)
    (e : Node) (semi : Token) :
  kind t = "NAME" ->
  expression_on ((t :: ys) ++ semi :: rest) = (Returned e, semi :: rest) ->
  in_KEYWORDS (value t) = false
  /\ exists t2 v2,
       ys ++ semi :: rest = t2 :: v2
       /\ (ys = [] \/ info t2 = ("OP", "(")).
Proof.
  intros K He. unfold expression_on in He.
  remember (length ((t :: ys) ++ semi :: rest)) as F eqn:HF.
  rewrite run_parse_expression_S in He. cbn [app] in He.
  rewrite K in He. cbn [String.eqb Ascii.eqb Bool.eqb] in He.
  rewrite run_parse_name, K in He.
  cbn [String.eqb Ascii.eqb Bool.eqb negb andb] in He.
  destruct (in_KEYWORDS (value t)) eqn:W; [discriminate|].
  split; [reflexivity|]. cbn [then_run] in He.
  destruct ys as [|t2 ys']; [exists semi, rest; now split; [|left]|].
  exists t2, (ys' ++ semi :: rest). split; [reflexivity|]. right.
  destruct F as [|F0]; [discriminate|].
  rewrite run_parse_expression_loop_S in He
    by apply respects_parse_expression.
  cbn [app] in He.
  destruct (kind t2 =? "OP") eqn:E1; cbn [negb orb] in He.
  - destruct (value t2 =? "(") eqn:E2; cbn [negb] in He.
    + apply String.eqb_eq in E1, E2. unfold info. now rewrite E1, E2.
    + inversion He as [[H1 H2 H3]]. apply (f_equal (@length _)) in H3.
      rewrite length_app in H3. cbn [length] in H3. lia.
  - inversion He as [[H1 H2 H3]]. apply (f_equal (@length _)) in H3.
    rewrite length_app in H3. cbn [length] in H3. lia.
Qed.

Lemma expression_statement (ys : list Token) (semi : Token)
    (rest : list Token) (e : Node) :
  expression_on (ys ++ semi :: rest) = (Returned e, semi :: rest) ->
  hd_error (map value ys) <> Some "function" ->
  info semi = ("OP", ";") ->
  statement_on (ys ++ semi :: rest)
  = (Returned (ExpressionStatement e (Node_start e) (end_ semi)), rest).
Proof.
  intros He Hf Hs.
  assert (Htail : run (parse_expression_statement
                         (S (length (ys ++ semi :: rest))))
                    (ys ++ semi :: rest)
                  = (Returned
                       (ExpressionStatement e (Node_start e) (end_ semi)),
                     rest)).
  { unfold info in Hs. injection Hs as Hsk Hsv.
    unfold parse_expression_statement. run_step.
    rewrite expression_on_fuel by lia. rewrite He. eqb_simpl.
    run_step. rewrite run_check_and_pop, Hsk, Hsv. eqb_simpl.
    now run_simpl. }
  destruct (expression_on_head ")" He) as (t & v0 & Ev & _).
  destruct ys as [|t' ys']; cbn [app] in Ev.
  { exfalso. inversion Ev; subst.
    unfold expression_on in He.
    pose proof (consumes_length
                  (consumes_parse_expression
                     (S (length ([] ++ t :: v0)))) He) as [_ Hl].
    specialize (Hl eq_refl). cbn [app] in Hl. lia. }
  inversion Ev; subst t' v0. clear Ev.
  unfold statement_on. cbn [parse_statement]. run_simpl. cbn [app].
  destruct (kind t =? "NAME") eqn:K; [|exact Htail].
  apply String.eqb_eq in K.
  destruct (expression_after_a_name K He)
    as (W & t2 & v2 & E2 & Hsecond).
  apply in_KEYWORDS_false in W as [Wr Wi].
  assert (F1 : (value t =? "function") = false).
  { apply String.eqb_neq. intro H. apply Hf. cbn [map hd_error].
    now rewrite H. }
  run_simpl. rewrite Wr. run_simpl. rewrite Wi. run_simpl. rewrite F1.
  run_simpl. rewrite E2. cbn [then_run].
  assert (Hinfo : info_eqb (info t2) ("OP", "=") = false
                  /\ (kind t2 =? "NAME") = false).
  { destruct Hsecond as [->|H2].
    - cbn [app] in E2. inversion E2; subst t2 v2.
      unfold info in Hs. injection Hs as Hsk Hsv.
      unfold info_eqb, info. cbn [fst snd]. now rewrite Hsk, Hsv.
    - unfold info in H2. injection H2 as Hk2 Hv2.
      unfold info_eqb, info. cbn [fst snd]. now rewrite Hk2, Hv2. }
  destruct Hinfo as [H1 H2]. rewrite H1, H2, <- E2. exact Htail.
Qed.

(** X17: the statements without a body follow the grammar of the
    comments: [return expr ;] gives a [Return]; [name = expr ;] an
    [Assignment]; [type name ;] a [Declaration] without a value; and
    [expr ;] an [ExpressionStatement], each from its first token to its
    semicolon.  The names are names that are not in [KEYWORDS]; a first
    token [function] always starts a function definition, so the first
    name of an assignment or a declaration, and the first token of an
    expression statement, are not [function]. *)
Theorem statements_follow_the_grammar :
  (forall kw semi ys rest e,
      info kw = ("NAME", "return") ->
      expression_on (ys ++ semi :: rest) = (Returned e, semi :: rest) ->
      info semi = ("OP", ";") ->
      statement_on (kw :: ys ++ semi :: rest)
      = (Returned (Return e (start kw) (end_ semi)), rest))
  /\ (forall name equals semi ys rest e,
        kind name = "NAME" -> in_KEYWORDS (value name) = false ->
        value name <> "function" ->
        info equals = ("OP", "=") ->
        expression_on (ys ++ semi :: rest) = (Returned e, semi :: rest) ->
        info semi = ("OP", ";") ->
        statement_on (name :: equals :: ys ++ semi :: rest)
        = (Returned
             (Assignment (Name (value name) (start name) (end_ name)) e
                (start name) (end_ semi)),
           rest))
  /\ (forall t1 t2 semi rest,
        kind t1 = "NAME" -> kind t2 = "NAME" ->
        in_KEYWORDS (value t1) = false ->
        in_KEYWORDS (value t2) = false ->
        value t1 <> "function" ->
        info semi = ("OP", ";") ->
        statement_on (t1 :: t2 :: semi :: rest)
        = (Returned
             (Declaration (Name (value t1) (start t1) (end_ t1))
                (value t2) None (start t1) (end_ semi)),
           rest))
  /\ (forall ys semi rest e,
        expression_on (ys ++ semi :: rest) = (Returned e, semi :: rest) ->
        hd_error (map value ys) <> Some "function" ->
        info semi = ("OP", ";") ->
        statement_on (ys ++ semi :: rest)
        = (Returned (ExpressionStatement e (Node_start e) (end_ semi)),
           rest)).
Proof.
  split; [|split; [|split]].
  - intros. now apply return_statement.
  - intros. now apply assignment_statement.
  - intros. now apply declaration_statement.
  - intros. now apply expression_statement.
Qed.

(** ** The grammar of [if] *)

Lemma run_body_loop_S (parse_statement : M Node) fuel body v :
  respects parse_statement ->
  run (body_loop parse_statement (S fuel) body) v =
  match v with
  | [] => (Raised EOFError, [])
  | t :: _ =>
      if negb (info_eqb (info t) ("OP", "}"))
      then then_run (run parse_statement v) (fun statement v1 =>
             run (body_loop parse_statement fuel (body ++ [statement])) v1)
      else (Returned body, v)
  end.
Proof.
  intro Rp. cbn [body_loop]. repeat run_step.
  destruct v as [|t v0]; cbn [then_run]; [reflexivity|].
  destruct (negb (info_eqb (info t) ("OP", "}"))); now run_step.
Qed.

Lemma body_on_fuel (v : list Token) (f k : nat) :
  length v < f -> length v < k ->
  run (body_loop (parse_statement f) k []) v = body_on v.
Proof.
  intros Hf Hk. unfold body_on.
  refine (proj1 (@agree_body_loop (length v) (parse_statement f)
                   (parse_statement (S (length v))) k (S (length v)) []
                   _ _ _ _ Hk _ v (le_n _)));
    [apply respects_parse_statement|apply respects_parse_statement
    |apply agree_parse_statement; lia|apply consumes_parse_statement
    |lia].
Qed.

(** The statements collected so far do not matter to the loop of a
    body, which ends in front of a closing brace. *)
Lemma body_loop_statements (parse_statement : M Node) :
  respects parse_statement ->
  forall fuel acc1 acc2 v body v',
    run (body_loop parse_statement fuel acc1) v = (Returned body, v') ->
    (exists closing rest,
        v' = closing :: rest /\ info closing = ("OP", "}"))
    /\ exists body',
         body = acc1 ++ body'
         /\ run (body_loop parse_statement fuel acc2) v
            = (Returned (acc2 ++ body'), v').
Proof.
  intros Rp fuel.
  induction fuel as [|fuel IH]; intros acc1 acc2 v body v' E.
  - cbn [body_loop] in E. rewrite run_out_of_fuel in E. discriminate.
  - rewrite run_body_loop_S in E |- * by assumption.
    destruct v as [|t v0]; [discriminate|].
    destruct (info_eqb (info t) ("OP", "}")) eqn:Et; cbn [negb] in E |- *.
    + inversion E; subst. split.
      * exists t, v0. split; [reflexivity|now apply info_eqb_eq].
      * exists []. now rewrite !app_nil_r.
    + destruct (run parse_statement (t :: v0)) as [[statement|e|] v1];
        cbn [then_run] in E |- *; try discriminate.
      destruct (IH _ (acc2 ++ [statement]) _ _ _ E)
        as (Hc & body' & -> & E').
      split; [exact Hc|]. exists (statement :: body').
      split; [list_eq|]. rewrite E'. f_equal. f_equal. list_eq.
Qed.

(** A statement does not start with a closing brace. *)
Lemma statement_on_head (v : list Token) (n : Node) (v' : list Token) :
  statement_on v = (Returned n, v') ->
  exists t v0, v = t :: v0 /\ info_eqb (info t) ("OP", "}") = false.
Proof.
  unfold statement_on. intro E. cbn [parse_statement] in E.
  run_inv E as t1 v1 E1. rewrite run_coming_up_1 in E1.
  destruct v as [|t v0]; [discriminate|]. inversion E1; subst t1 v1.
  exists t, v0. split; [reflexivity|].
  unfold info_eqb, info. cbn [fst snd].
  destruct (kind t =? "NAME") eqn:K.
  - apply String.eqb_eq in K. now rewrite K.
  - unfold parse_expression_statement in E. run_inv E as e v2 E2.
    rewrite run_parse_expression_S in E2. rewrite K in E2.
    destruct (kind t =? "OP") eqn:Ek; [|reflexivity].
    apply String.eqb_eq in Ek. rewrite Ek in E2.
    cbn [String.eqb Ascii.eqb Bool.eqb then_run] in E2. discriminate.
Qed.

(** X18: [if] follows the grammar [if expr { statements }]: a body is the
    list of its statements, in order, up to the closing brace (none for
    a closing brace at once), and [if], a condition, an opening brace, a
    body and its closing brace give an [If] of the condition and the
    body, from the [if] to the closing brace. *)
Theorem if_follows_the_grammar :
  (forall closing rest,
      info closing = ("OP", "}") ->
      body_on (closing :: rest) = (Returned [], closing :: rest))
  /\ (forall ys v1 n body v',
        statement_on (ys ++ v1) = (Returned n, v1) ->
        body_on v1 = (Returned body, v') ->
        body_on (ys ++ v1) = (Returned (n :: body), v'))
  /\ (forall kw ys brace v1 condition body closing rest,
        info kw = ("NAME", "if") ->
        expression_on (ys ++ brace :: v1)
        = (Returned condition, brace :: v1) ->
        info brace = ("OP", "{") ->
        body_on v1 = (Returned body, closing :: rest) ->
        statement_on (kw :: ys ++ brace :: v1)
        = (Returned (If condition body (start kw) (end_ closing)), rest)).
Proof.
  split; [|split].
  - intros closing rest Hc. unfold body_on.
    rewrite run_body_loop_S by apply respects_parse_statement.
    apply info_eqb_eq in Hc. now rewrite Hc.
  - intros ys v1 n body v' Es Hb.
    pose proof (statement_on_shorter Es) as Hl.
    destruct (statement_on_head Es) as (t & v0 & Ev & Et).
    unfold body_on.
    rewrite run_body_loop_S by apply respects_parse_statement.
    rewrite Ev at 1. rewrite Et. cbn [negb].
    rewrite statement_on_fuel by lia. rewrite Es. cbn [then_run].
    rewrite <- (@body_on_fuel v1 (S (length (ys ++ v1)))
                  (length (ys ++ v1))) in Hb by lia.
    destruct (@body_loop_statements
                (parse_statement (S (length (ys ++ v1))))
                (respects_parse_statement _) _ [] [n] _ _ _ Hb)
      as (_ & body' & -> & E').
    exact E'.
  - intros kw ys brace v1 condition body closing rest Hkw He Hb Hbody.
    unfold info in Hkw, Hb. injection Hkw as Hk Hv.
    injection Hb as Hbk Hbv.
    assert (Hc : info closing = ("OP", "}")).
    { unfold body_on in Hbody.
      destruct (@body_loop_statements
                  (parse_statement (S (length v1)))
                  (respects_parse_statement _) _ [] [] _ _ _ Hbody)
        as ((c & r & Ec & Hc) & _).
      now inversion Ec; subst. }
    unfold info in Hc. injection Hc as Hck Hcv.
    unfold statement_on.
    remember (length (kw :: ys ++ brace :: v1)) as F eqn:HF.
    cbn [length] in HF. rewrite length_app in HF. cbn [length] in HF.
    cbn [parse_statement]. run_simpl. rewrite Hk. eqb_simpl.
    run_simpl. rewrite Hv. eqb_simpl. run_simpl. rewrite Hv. eqb_simpl.
    unfold parse_if. run_step. rewrite run_check_and_pop, Hk, Hv.
    eqb_simpl. run_step.
    rewrite expression_on_fuel by (rewrite length_app; cbn [length]; lia).
    rewrite He. eqb_simpl.
    run_step. rewrite run_check_and_pop, Hbk, Hbv. eqb_simpl.
    run_step. rewrite body_on_fuel by lia. rewrite Hbody. eqb_simpl.
    run_step. rewrite run_check_and_pop, Hck, Hcv. eqb_simpl.
    now run_simpl.
Qed.

(** ** The grammar of function definitions *)

Lemma parameters_on_fuel (v : list Token) (k : nat) :
  length v < k ->
  run (_parse_comma_list ")" _type_and_name k) v = parameters_on v.
Proof.
  intro Hk. unfold parameters_on.
  refine (proj1 (@agree__parse_comma_list _ ")" (length v)
                   _type_and_name _type_and_name k (S (length v))
                   _ _ _ _ Hk _ v (le_n _)));
    [apply respects__type_and_name|apply respects__type_and_name
    |apply agree_same, fuel_free__type_and_name
    |apply consumes_weak, consumes__type_and_name|lia].
Qed.

(** X19: function definitions follow the grammar
    [function name ( parameters ) { statements }], with [returns type]
    before the body or without: [function], a name that is not in
    [KEYWORDS], an opening parenthesis, parameters that parse, then
    either a token other than the name [returns], which only has to be
    an operator, or [returns], a type name and an operator, and then a
    body with its closing brace, give a [FunctionDef] of the name, the
    parameters, the return type if any, and the body, from [function] to
    the closing brace. *)
Theorem function_definitions_follow_the_grammar :
  (forall kw name paren v1 arguments junk before v2 body closing rest,
      info kw = ("NAME", "function") ->
      kind name = "NAME" -> in_KEYWORDS (value name) = false ->
      info paren = ("OP", "(") ->
      parameters_on v1 = (Returned (arguments, junk), before :: v2) ->
      kind before = "OP" ->
      body_on v2 = (Returned body, closing :: rest) ->
      statement_on (kw :: name :: paren :: v1)
      = (Returned
           (FunctionDef (value name) arguments None body (start kw)
              (end_ closing)),
         rest))
  /\ (forall kw name paren v1 arguments junk returns type before v2 body
             closing rest,
        info kw = ("NAME", "function") ->
        kind name = "NAME" -> in_KEYWORDS (value name) = false ->
        info paren = ("OP", "(") ->
        parameters_on v1
        = (Returned (arguments, junk), returns :: type :: before :: v2) ->
        info returns = ("NAME", "returns") ->
        kind type = "NAME" -> in_KEYWORDS (value type) = false ->
        kind before = "OP" ->
        body_on v2 = (Returned body, closing :: rest) ->
        statement_on (kw :: name :: paren :: v1)
        = (Returned
             (FunctionDef (value name) arguments
                (Some (Name (value type) (start type) (end_ type))) body
                (start kw) (end_ closing)),
           rest)).
Proof.
  assert (Hclosing : forall v2 body closing rest,
             body_on v2 = (Returned body, closing :: rest) ->
             kind closing = "OP" /\ value closing = "}").
  { intros v2 body closing rest Hbody. unfold body_on in Hbody.
    destruct (@body_loop_statements
                (parse_statement (S (length v2)))
                (respects_parse_statement _) _ [] [] _ _ _ Hbody)
      as ((c & r & Ec & Hc) & _).
    inversion Ec; subst. unfold info in Hc. now injection Hc. }
  assert (Hhead : forall kw name paren v1 arguments junk v3,
             info kw = ("NAME", "function") ->
             kind name = "NAME" -> in_KEYWORDS (value name) = false ->
             info paren = ("OP", "(") ->
             parameters_on v1 = (Returned (arguments, junk), v3) ->
             statement_on (kw :: name :: paren :: v1)
             = run (bind (coming_up 1) (fun t =>
                    bind (if info_eqb (info t) ("NAME", "returns")
                          then bind pop (fun _ =>
                                 bind (parse_name true)
                                   (fun r => ret (Some r)))
                          else ret None) (fun returntype =>
                    bind (check_and_pop "OP" None) (fun before_body =>
                    bind (body_loop
                            (parse_statement
                               (length (kw :: name :: paren :: v1)))
                            (S (length (kw :: name :: paren :: v1))) [])
                      (fun body =>
                    bind (check_and_pop "OP" (Some "}"))
                      (fun closing_brace =>
                    ret (FunctionDef (Node_name
                                        (Name (value name) (start name)
                                           (end_ name)))
                           arguments returntype body (start kw)
                           (end_ closing_brace)))))))) v3).
  { intros kw name paren v1 arguments junk v3 Hkw K W Hp Hargs.
    unfold info in Hkw, Hp. injection Hkw as Hk Hv.
    injection Hp as Hpk Hpv.
    unfold statement_on.
    remember (length (kw :: name :: paren :: v1)) as F eqn:HF.
    cbn [length] in HF.
    match goal with |- _ = ?R => remember R as rhs eqn:Hrhs end.
    cbn [parse_statement]. run_simpl. rewrite Hk. eqb_simpl.
    run_simpl. rewrite Hv. eqb_simpl. run_simpl. rewrite Hv. eqb_simpl.
    run_simpl. rewrite Hv. eqb_simpl.
    unfold parse_function_def. run_step.
    rewrite run_check_and_pop, Hk, Hv. eqb_simpl.
    run_step. rewrite run_parse_name, K, W. eqb_simpl.
    run_step. rewrite run_check_and_pop, Hpk, Hpv. eqb_simpl.
    run_step. rewrite parameters_on_fuel by lia. rewrite Hargs.
    cbn [then_run]. now subst rhs. }
  split.
  - intros kw name paren v1 arguments junk before v2 body closing rest
      Hkw K W Hp Hargs Hb Hbody.
    destruct (Hclosing _ _ _ _ Hbody) as [Hck Hcv].
    rewrite (Hhead _ _ _ _ _ _ _ Hkw K W Hp Hargs).
    pose proof (consumes_length
                  (@consumes__parse_comma_list _ ")" _type_and_name
                     (S (length v1)) respects__type_and_name
                     (consumes_weak consumes__type_and_name)) Hargs)
      as [Hl _].
    cbn [length] in Hl |- *.
    run_simpl.
    assert (Hr : info_eqb (info before) ("NAME", "returns") = false)
      by (unfold info_eqb, info; cbn [fst snd]; now rewrite Hb).
    rewrite Hr. run_simpl. rewrite run_check_and_pop, Hb. eqb_simpl.
    run_step. rewrite body_on_fuel by lia. rewrite Hbody. eqb_simpl.
    run_step. rewrite run_check_and_pop, Hck, Hcv. eqb_simpl.
    now run_simpl.
  - intros kw name paren v1 arguments junk returns type before v2 body
      closing rest Hkw K W Hp Hargs Hr Kt Wt Hb Hbody.
    destruct (Hclosing _ _ _ _ Hbody) as [Hck Hcv].
    rewrite (Hhead _ _ _ _ _ _ _ Hkw K W Hp Hargs).
    pose proof (consumes_length
                  (@consumes__parse_comma_list _ ")" _type_and_name
                     (S (length v1)) respects__type_and_name
                     (consumes_weak consumes__type_and_name)) Hargs)
      as [Hl _].
    cbn [length] in Hl |- *.
    run_simpl. apply info_eqb_eq in Hr. rewrite Hr.
    run_simpl. rewrite run_parse_name, Kt, Wt. eqb_simpl.
    run_simpl. rewrite run_check_and_pop, Hb. eqb_simpl.
    run_step. rewrite body_on_fuel by lia. rewrite Hbody. eqb_simpl.
    run_step. rewrite run_check_and_pop, Hck, Hcv. eqb_simpl.
    now run_simpl.
Qed.

(** ** Independent parser instances *)
















End Weirdc.

Arguments Returned {position A} a.
Arguments Raised {position A} e.
Arguments OutOfFuel {position A}.
Arguments EOFError {position}.
Arguments StopIteration {position}.
Arguments IndexError {position}.
Arguments AssertionError_keyword {position} name.
Arguments ValueError_int {position} text.
Arguments Iterator {position} address.
Arguments Shared {position} address.
Arguments Call_next {position} g.
Arguments empty_store {position}.

(** * The statements above at particular token sequences

    Positions are offsets into the source text, and [int] is
    [int_digits]. *)

(** C2: on [if if {}] the code does not raise the exception that stands
    for InvalidToken; it raises the keyword assertion. *)
Lemma if_if_does_not_raise_InvalidToken :
  exists e,
    statement_of int_digits
      [mkToken "NAME" "if" 0 2; mkToken "NAME" "if" 3 5;
       mkToken "OP" "{" 6 7; mkToken "OP" "}" 7 8] = Raised e
    /\ error_kind_of e = ReservedKeywordUsed
    /\ error_kind_of e <> InvalidToken.
Proof.
  exists (AssertionError_keyword "if").
  split; [reflexivity|]. split; [reflexivity|discriminate].
Qed.

(** C4: [function if ( ) { }] fails with the keyword assertion
    (ReservedKeywordUsed) on the name position: the check is not
    bypassed. *)
Lemma function_named_if_raises_ReservedKeywordUsed :
  statement_on int_digits
    [mkToken "NAME" "function" 0 8; mkToken "NAME" "if" 9 11;
     mkToken "OP" "(" 11 12; mkToken "OP" ")" 12 13;
     mkToken "OP" "{" 14 15; mkToken "OP" "}" 15 16]
  = (Raised (AssertionError_keyword "if"),
     [mkToken "OP" "(" 11 12; mkToken "OP" ")" 12 13;
      mkToken "OP" "{" 14 15; mkToken "OP" "}" 15 16])
  /\ error_kind_of (@AssertionError_keyword nat "if") = ReservedKeywordUsed.
Proof. split; reflexivity. Qed.

Lemma function_name_is_checked_for_keywords_witness :
  info (mkToken "NAME" "function" 0 8) = ("NAME", "function")
  /\ (statement_on int_digits
        [mkToken "NAME" "function" 0 8; mkToken "NAME" "return" 9 15;
         mkToken "OP" "(" 15 16; mkToken "OP" ")" 16 17;
         mkToken "OP" "{" 18 19; mkToken "OP" "}" 19 20]
      = (Raised (AssertionError_keyword "return"),
         [mkToken "OP" "(" 15 16; mkToken "OP" ")" 16 17;
          mkToken "OP" "{" 18 19; mkToken "OP" "}" 19 20])
      <-> kind (mkToken "NAME" "return" 9 15) = "NAME"
          /\ in_KEYWORDS "return" = true).
Proof.
  split; [reflexivity|].
  apply (function_name_is_checked_for_keywords int_digits
           (kw := mkToken "NAME" "function" 0 8)
           (mkToken "NAME" "return" 9 15)).
  reflexivity.
Defined.

(** C10: with a reserved word for one of the names, or [function] or
    [return] for the first, NAME NAME OP expr [;] is not accepted. *)
Lemma declaration_names_are_checked :
  statement_of int_digits
    [mkToken "NAME" "Int" 0 3; mkToken "NAME" "if" 4 6;
     mkToken "OP" "," 7 8; mkToken "INTEGER" "1" 9 10;
     mkToken "OP" ";" 10 11]
  = Raised (AssertionError_keyword "if")
  /\ statement_of int_digits
       [mkToken "NAME" "function" 0 8; mkToken "NAME" "a" 9 10;
        mkToken "OP" "," 11 12; mkToken "INTEGER" "1" 13 14;
        mkToken "OP" ";" 14 15]
     = Raised (AssertionError_token (mkToken "OP" "," 11 12))
  /\ statement_of int_digits
       [mkToken "NAME" "return" 0 6; mkToken "NAME" "a" 7 8;
        mkToken "OP" "," 9 10; mkToken "INTEGER" "1" 11 12;
        mkToken "OP" ";" 12 13]
     = Raised (AssertionError_token (mkToken "OP" "," 9 10)).
Proof. repeat split. Qed.

Lemma declaration_separator_is_any_OP_witness :
  kind (mkToken "NAME" "Int" 0 3) = "NAME"
  /\ kind (mkToken "NAME" "a" 4 5) = "NAME"
  /\ kind (mkToken "OP" "," 6 7) = "OP"
  /\ in_KEYWORDS "Int" = false
  /\ in_KEYWORDS "a" = false
  /\ "Int" <> "function"
  /\ "," <> ";"
  /\ expression_on int_digits
       [mkToken "INTEGER" "1" 8 9; mkToken "OP" ";" 9 10]
     = (Returned (Integer 1 8 9), [mkToken "OP" ";" 9 10])
  /\ info (mkToken "OP" ";" 9 10) = ("OP", ";")
  /\ statement_on int_digits
       [mkToken "NAME" "Int" 0 3; mkToken "NAME" "a" 4 5;
        mkToken "OP" "," 6 7; mkToken "INTEGER" "1" 8 9;
        mkToken "OP" ";" 9 10]
     = (Returned
          (Declaration (Name "Int" 0 3) "a" (Some (Integer 1 8 9)) 0 7),
        []).
Proof.
  repeat (split; [first [reflexivity|discriminate]|]).
  apply (declaration_separator_is_any_OP (int := int_digits)
           (mkToken "NAME" "Int" 0 3) (mkToken "NAME" "a" 4 5)
           (mkToken "OP" "," 6 7) (semi := mkToken "OP" ";" 9 10)
           (rest := [mkToken "INTEGER" "1" 8 9; mkToken "OP" ";" 9 10])
           (rest' := []) (e := Integer 1 8 9));
    first [reflexivity|discriminate].
Defined.

Lemma coming_up_peeks_without_consuming_witness :
  (1 <= 2)%Z
  /\ let tokens :=
       [mkToken "NAME" "a" 0 1; mkToken "OP" "=" 2 3;
        mkToken "INTEGER" "1" 4 5; mkToken "OP" ";" 5 6] in
     let ops := [Op_coming_up 3; Op_pop; Op_something_coming_up] in
     let popped := fst (do_ops ops (new_HandyDandyTokenIterator tokens)) in
     let c := snd (do_ops ops (new_HandyDandyTokenIterator tokens)) in
     let pending := view c in
     let c' := snd (coming_up 2 c) in
     tokens = popped ++ _coming_up_stack c ++ _iterator c
     /\ fst (coming_up 2 c) =
          match nth_error pending (Z.to_nat (2 - 1)) with
          | Some t => Returned t
          | None => Raised EOFError
          end
     /\ (fst (coming_up 2 c) = Raised EOFError <->
         (Z.of_nat (length pending) < 2)%Z)
     /\ view c' = pending
     /\ (exists fetched,
           _coming_up_stack c' = _coming_up_stack c ++ fetched
           /\ _iterator c = fetched ++ _iterator c')
     /\ (forall k, k <= length pending ->
                   pops k c' = map Returned (firstn k pending)).
Proof.
  split; [lia|].
  intros tokens ops.
  apply (coming_up_peeks_without_consuming tokens ops (n := 2)). lia.
Defined.

(** * The further properties at particular token sequences *)

(** With [a] and [=] of [a = 1 ;] buffered, [coming_up(0)] is the [=],
    the token buffered last. *)
Lemma coming_up_nonpositive_reads_the_buffer_witness :
  let tokens :=
    [mkToken "NAME" "a" 0 1; mkToken "OP" "=" 2 3;
     mkToken "INTEGER" "1" 4 5; mkToken "OP" ";" 5 6] in
  let c := snd (coming_up 2 (_Parser tokens)) in
  (0 <= 0)%Z /\ coming_up 0 c = (Returned (mkToken "OP" "=" 2 3), c).
Proof.
  intros tokens c. split; [lia|].
  exact (@coming_up_nonpositive_reads_the_buffer nat 0%Z c
           ltac:(lia)).
Defined.

Lemma parse_statement_terminates_witness :
  let v :=
    [mkToken "NAME" "Int" 0 3; mkToken "NAME" "a" 4 5;
     mkToken "OP" ";" 5 6] in
  length v < 4 /\ length v < 10
  /\ (fst (run (parse_statement int_digits 4) v) <> OutOfFuel
      /\ run (parse_statement int_digits 4) v
         = run (parse_statement int_digits 10) v)
  /\ (fst (run (parse_expression int_digits 4) v) <> OutOfFuel
      /\ run (parse_expression int_digits 4) v
         = run (parse_expression int_digits 10) v).
Proof.
  intro v. split; [cbn; lia|]. split; [cbn; lia|].
  apply (@parse_statement_terminates nat int_digits v 4 10); cbn; lia.
Defined.

Lemma parse_statement_never_raises_StopIteration_witness :
  let v :=
    [mkToken "NAME" "if" 0 2; mkToken "NAME" "if" 3 5;
     mkToken "OP" "{" 6 7; mkToken "OP" "}" 7 8] in
  let e := @AssertionError_keyword nat "if" in
  let v' := [mkToken "OP" "{" 6 7; mkToken "OP" "}" 7 8] in
  run (parse_statement int_digits 5) v = (Raised e, v')
  /\ e <> StopIteration
  /\ e <> IndexError
  /\ forall s, e = AssertionError_keyword s -> in_KEYWORDS s = true.
Proof.
  intros v e v'. split; [reflexivity|].
  apply (@parse_statement_never_raises_StopIteration nat int_digits 5 v
           e v').
  reflexivity.
Defined.

(** [a = ;]: the semicolon starts no expression and is still pending. *)
Lemma rejected_token_is_still_pending_witness :
  let v :=
    [mkToken "NAME" "a" 0 1; mkToken "OP" "=" 2 3;
     mkToken "OP" ";" 4 5] in
  let e := ValueError_invalid_token (mkToken "OP" ";" 4 5) in
  let v' := [mkToken "OP" ";" 4 5] in
  run (parse_statement int_digits 4) v = (Raised e, v')
  /\ (forall t, e = AssertionError_token t \/ e = ValueError_invalid_token t ->
                exists rest, v' = t :: rest)
  /\ (e = EOFError -> length v' <= 1).
Proof.
  intros v e v'. split; [reflexivity|].
  apply (@rejected_token_is_still_pending nat int_digits 4 v e v').
  reflexivity.
Defined.

Lemma parse_statement_returns_a_statement_witness :
  let v :=
    [mkToken "NAME" "Int" 0 3; mkToken "NAME" "a" 4 5;
     mkToken "OP" "=" 6 7; mkToken "NAME" "f" 8 9; mkToken "OP" "(" 9 10;
     mkToken "INTEGER" "1" 10 11; mkToken "OP" ")" 11 12;
     mkToken "OP" ";" 12 13] in
  let n :=
    Declaration (Name "Int" 0 3) "a"
      (Some (FunctionCall (Name "f" 8 9) [Integer 1 10 11] 8 12)) 0 7 in
  run (parse_statement int_digits 9) v = (Returned n, [])
  /\ statement_node n = true
  /\ expression_node n = false
  /\ (forall name s e, n <> DecRef name s e).
Proof.
  intros v n. split; [reflexivity|].
  apply (@parse_statement_returns_a_statement nat int_digits 9 v n []).
  reflexivity.
Defined.

Lemma parse_expression_returns_an_expression_witness :
  let v :=
    [mkToken "NAME" "f" 0 1; mkToken "OP" "(" 1 2;
     mkToken "INTEGER" "1" 2 3; mkToken "OP" ")" 3 4;
     mkToken "OP" ";" 4 5] in
  let n := FunctionCall (Name "f" 0 1) [Integer 1 2 3] 0 4 in
  let v' := [mkToken "OP" ";" 4 5] in
  run (parse_expression int_digits 6) v = (Returned n, v')
  /\ expression_node n = true /\ statement_node n = false.
Proof.
  intros v n v'. split; [reflexivity|].
  apply (@parse_expression_returns_an_expression nat int_digits 6 v n v').
  reflexivity.
Defined.

Lemma statement_does_not_depend_on_what_follows_witness :
  let ys :=
    [mkToken "NAME" "a" 0 1; mkToken "OP" "=" 2 3;
     mkToken "INTEGER" "1" 4 5; mkToken "OP" ";" 5 6] in
  let w := [mkToken "NAME" "b" 7 8] in
  let n := Assignment (Name "a" 0 1) (Integer 1 4 5) 0 6 in
  statement_on int_digits (ys ++ w) = (Returned n, w)
  /\ terminated ys
  /\ forall w', statement_on int_digits (ys ++ w') = (Returned n, w').
Proof.
  intros ys w n. split; [reflexivity|].
  apply (@statement_does_not_depend_on_what_follows nat int_digits ys w n).
  reflexivity.
Defined.

Lemma parse_of_a_concatenation_witness :
  let v1 :=
    [mkToken "NAME" "Int" 0 3; mkToken "NAME" "a" 4 5;
     mkToken "OP" ";" 5 6] in
  let v2 :=
    [mkToken "NAME" "a" 7 8; mkToken "OP" "=" 9 10;
     mkToken "INTEGER" "1" 11 12; mkToken "OP" ";" 12 13;
     mkToken "NAME" "a" 14 15] in
  let nodes1 := [Declaration (Name "Int" 0 3) "a" None 0 6] in
  iterate_all int_digits (parse v1) = (nodes1, Returned tt)
  /\ iterate_all int_digits (parse (v1 ++ v2))
     = (nodes1 ++ fst (iterate_all int_digits (parse v2)),
        snd (iterate_all int_digits (parse v2))).
Proof.
  intros v1 v2 nodes1. split; [reflexivity|].
  apply (@parse_of_a_concatenation nat int_digits v1 v2 nodes1).
  reflexivity.
Defined.

Lemma expression_needs_a_token_after_it_witness :
  let v :=
    [mkToken "NAME" "f" 0 1; mkToken "OP" "(" 1 2; mkToken "OP" ")" 2 3;
     mkToken "OP" ";" 3 4] in
  let n := FunctionCall (Name "f" 0 1) [] 0 3 in
  let v' := [mkToken "OP" ";" 3 4] in
  run (parse_expression int_digits 5) v = (Returned n, v')
  /\ ends_expression v'
  /\ exists ys,
       v = ys ++ v' /\ ys <> []
       /\ run (parse_expression int_digits 5) ys = (Raised EOFError, []).
Proof.
  intros v n v'. split; [reflexivity|].
  apply (@expression_needs_a_token_after_it nat int_digits 5 v n v').
  reflexivity.
Defined.

Lemma expression_spans_its_tokens_witness :
  let v :=
    [mkToken "NAME" "f" 0 1; mkToken "OP" "(" 1 2; mkToken "OP" ")" 2 3;
     mkToken "OP" ";" 3 4] in
  let n := FunctionCall (Name "f" 0 1) [] 0 3 in
  let v' := [mkToken "OP" ";" 3 4] in
  run (parse_expression int_digits 5) v = (Returned n, v')
  /\ exists first middle last,
       (v = first :: v' \/ v = first :: middle ++ last :: v')
       /\ Node_start n = start first
       /\ (v = first :: v' -> Node_end n = end_ first)
       /\ (v = first :: middle ++ last :: v' -> Node_end n = end_ last).
Proof.
  intros v n v'. split; [reflexivity|].
  apply (@expression_spans_its_tokens nat int_digits 5 v n v').
  reflexivity.
Defined.

Lemma parse_string_drops_first_and_last_witness :
  let t := mkToken "STRING" "'hi'" 0 4 in
  kind t = "STRING"
  /\ exists s,
       run (@parse_string nat) [t; mkToken "OP" ";" 4 5]
       = (Returned (String s (start t) (end_ t)), [mkToken "OP" ";" 4 5])
       /\ (forall q1 q2 body,
             value t
             = String.String q1 (String.append body
                                   (String.String q2 EmptyString)) ->
             s = body)
       /\ (String.length (value t) <= 2 -> s = EmptyString).
Proof.
  intro t. split; [reflexivity|].
  apply (@parse_string_drops_first_and_last nat t [mkToken "OP" ";" 4 5]).
  reflexivity.
Defined.

(** [if a ; }]: the semicolon is no opening brace. *)
Lemma if_requires_the_opening_brace_witness :
  let kw := mkToken "NAME" "if" 0 2 in
  let t := mkToken "OP" ";" 4 5 in
  let ys := [mkToken "NAME" "a" 3 4] in
  let rest := [mkToken "OP" "}" 6 7] in
  info kw = ("NAME", "if")
  /\ expression_on int_digits (ys ++ t :: rest)
     = (Returned (Name "a" 3 4), t :: rest)
  /\ info t <> ("OP", "{")
  /\ statement_on int_digits (kw :: ys ++ t :: rest)
     = (Raised (AssertionError_token t), t :: rest).
Proof.
  intros kw t ys rest. split; [reflexivity|]. split; [reflexivity|].
  split; [discriminate|].
  apply (@if_requires_the_opening_brace nat int_digits kw t ys rest
           (Name "a" 3 4)); [reflexivity|reflexivity|discriminate].
Defined.

(** The arguments [1, 2,)]: the first expression and the comma, before
    the list [2,)]. *)
Lemma argument_lists_follow_the_grammar_witness :
  let ys := [mkToken "INTEGER" "1" 2 3] in
  let comma := mkToken "OP" "," 3 4 in
  let close := mkToken "OP" ")" 7 8 in
  let v1 :=
    [mkToken "INTEGER" "2" 5 6; mkToken "OP" "," 6 7; close;
     mkToken "OP" ";" 8 9] in
  expression_on int_digits (ys ++ comma :: v1)
  = (Returned (Integer 1 2 3), comma :: v1)
  /\ info comma = ("OP", ",")
  /\ arguments_on int_digits v1
     = (Returned ([Integer 2 5 6], close), [mkToken "OP" ";" 8 9])
  /\ arguments_on int_digits (ys ++ comma :: v1)
     = (Returned ([Integer 1 2 3; Integer 2 5 6], close),
        [mkToken "OP" ";" 8 9]).
Proof.
  intros ys comma close v1.
  split; [reflexivity|]. split; [reflexivity|]. split; [reflexivity|].
  apply (proj2 (proj2 (@argument_lists_follow_the_grammar nat int_digits))
           ys comma v1 (Integer 1 2 3) [Integer 2 5 6] close
           [mkToken "OP" ";" 8 9]); reflexivity.
Defined.

(** [f ( ) ;] is an expression statement. *)
Lemma statements_follow_the_grammar_witness :
  let ys :=
    [mkToken "NAME" "f" 0 1; mkToken "OP" "(" 1 2; mkToken "OP" ")" 2 3] in
  let semi := mkToken "OP" ";" 3 4 in
  let e := FunctionCall (Name "f" 0 1) [] 0 3 in
  expression_on int_digits (ys ++ [semi]) = (Returned e, [semi])
  /\ hd_error (map (@value nat) ys) <> Some "function"
  /\ info semi = ("OP", ";")
  /\ statement_on int_digits (ys ++ [semi])
     = (Returned (ExpressionStatement e 0 4), []).
Proof.
  intros ys semi e.
  split; [reflexivity|]. split; [discriminate|]. split; [reflexivity|].
  apply (proj2 (proj2 (proj2
           (@statements_follow_the_grammar nat int_digits)))
           ys semi [] e); [reflexivity|discriminate|reflexivity].
Defined.

(** [if a { b ; }] *)
Lemma if_follows_the_grammar_witness :
  let kw := mkToken "NAME" "if" 0 2 in
  let ys := [mkToken "NAME" "a" 3 4] in
  let brace := mkToken "OP" "{" 5 6 in
  let closing := mkToken "OP" "}" 10 11 in
  let v1 := [mkToken "NAME" "b" 7 8; mkToken "OP" ";" 8 9; closing] in
  let body := [ExpressionStatement (Name "b" 7 8) 7 9] in
  info kw = ("NAME", "if")
  /\ expression_on int_digits (ys ++ brace :: v1)
     = (Returned (Name "a" 3 4), brace :: v1)
  /\ info brace = ("OP", "{")
  /\ body_on int_digits v1 = (Returned body, [closing])
  /\ statement_on int_digits (kw :: ys ++ brace :: v1)
     = (Returned (If (Name "a" 3 4) body 0 11), []).
Proof.
  intros kw ys brace closing v1 body.
  split; [reflexivity|]. split; [reflexivity|]. split; [reflexivity|].
  split; [reflexivity|].
  apply (proj2 (proj2 (@if_follows_the_grammar nat int_digits))
           kw ys brace v1 (Name "a" 3 4) body closing []);
    reflexivity.
Defined.

(** [function f ( Int a ) returns Int { return a ; }] *)
Lemma function_definitions_follow_the_grammar_witness :
  let kw := mkToken "NAME" "function" 0 8 in
  let name := mkToken "NAME" "f" 9 10 in
  let paren := mkToken "OP" "(" 10 11 in
  let junk := mkToken "OP" ")" 16 17 in
  let returns := mkToken "NAME" "returns" 18 25 in
  let type := mkToken "NAME" "Int" 26 29 in
  let before := mkToken "OP" "{" 30 31 in
  let closing := mkToken "OP" "}" 41 42 in
  let v2 :=
    [mkToken "NAME" "return" 32 38; mkToken "NAME" "a" 39 40;
     mkToken "OP" ";" 40 41; closing] in
  let v1 :=
    mkToken "NAME" "Int" 11 14 :: mkToken "NAME" "a" 15 16 :: junk
    :: returns :: type :: before :: v2 in
  let arguments := [(Name "Int" 11 14, "a")] in
  let body := [Return (Name "a" 39 40) 32 41] in
  info kw = ("NAME", "function")
  /\ kind name = "NAME" /\ in_KEYWORDS (value name) = false
  /\ info paren = ("OP", "(")
  /\ parameters_on v1
     = (Returned (arguments, junk), returns :: type :: before :: v2)
  /\ info returns = ("NAME", "returns")
  /\ kind type = "NAME" /\ in_KEYWORDS (value type) = false
  /\ kind before = "OP"
  /\ body_on int_digits v2 = (Returned body, [closing])
  /\ statement_on int_digits (kw :: name :: paren :: v1)
     = (Returned
          (FunctionDef "f" arguments (Some (Name "Int" 26 29)) body 0 42),
        []).
Proof.
  intros kw name paren junk returns type before closing v2 v1 arguments
    body.
  repeat (split; [reflexivity|]).
  apply (proj2 (@function_definitions_follow_the_grammar nat int_digits)
           kw name paren v1 arguments junk returns type before v2 body
           closing []); reflexivity.
Defined.


(** Two parsers made on one iterator object are not independent: each
    takes its tokens from the same iterator, so on [a ; b ;] the second
    one yields the second statement, where two parsers made on the
    sequence both yield the first. *)
Lemma parsers_on_one_iterator_share_its_tokens :
  let tokens :=
    [mkToken "NAME" "a" 0 1; mkToken "OP" ";" 1 2;
     mkToken "NAME" "b" 3 4; mkToken "OP" ";" 4 5] in
  fst (run_client int_digits
         [Call_iter tokens; Call_parse (Iterator 0);
          Call_parse (Iterator 0); Call_next 0; Call_next 1] empty_store)
  = [(0, Returned (Some (ExpressionStatement (Name "a" 0 1) 0 2)));
     (1, Returned (Some (ExpressionStatement (Name "b" 3 4) 3 5)))]
  /\ fst (run_client int_digits
            [Call_parse (Sequence tokens); Call_parse (Sequence tokens);
             Call_next 0; Call_next 1] empty_store)
     = [(0, Returned (Some (ExpressionStatement (Name "a" 0 1) 0 2)));
        (1, Returned (Some (ExpressionStatement (Name "a" 0 1) 0 2)))].
Proof. split; reflexivity. Qed.
